(** * gdrive-folder-sync

    A shallow embedding of the [SyncEngine] class of [src/sync.ts] (push,
    pull, the conflict decision [shouldDownloadFile], the folder resolver
    [ensureFolderExists], [handleLocalDelete], [loadState]), of the
    [Watcher] class of [src/watcher.ts], of [parseArgs] of [src/index.ts],
    of [src/config.ts] and of the recursive listing of [src/gdrive.ts],
    with the properties of the specification that hold of the engine and
    further properties of the code.

    Conventions of the embedding.
    - JavaScript strings are [string]; objects used as dictionaries
      ([state.files], [state.folders]) are [gmap string _].
    - The numbers the engine handles are modification times.  It only stores
      and compares them, so a finite double is modelled by an integer
      (any order embedding of the finite doubles into [Z] will do).
    - [async] methods are computations in a state-and-exception monad [M]
      over a [World]: the in-memory state, the local file system, the remote
      store and the log of everything the engine asked of the outside. *)

From Stdlib Require Import ZArith String Ascii List Lia Bool.
From stdpp Require Import base option list gmap strings pretty.

Set Warnings "-register-all".

Local Open Scope string_scope.
Local Open Scope Z_scope.

(** ** Node's [path] module (POSIX flavour) *)

Module Path.

Definition sep : ascii := "/"%char.

Definition is_sep (c : ascii) : bool := Ascii.eqb c sep.

Fixpoint drop_while (p : ascii -> bool) (l : list ascii) : list ascii :=
  match l with
  | c :: l' => if p c then drop_while p l' else l
  | [] => []
  end.

Fixpoint take_while (p : ascii -> bool) (l : list ascii) : list ascii :=
  match l with
  | c :: l' => if p c then c :: take_while p l' else []
  | [] => []
  end.

(** [path.basename(p)]: scanning from the end, trailing separators are
    skipped and the component up to the previous separator is returned. *)
Definition basename (p : string) : string :=
  let r := drop_while is_sep (rev (list_ascii_of_string p)) in
  string_of_list_ascii (rev (take_while (fun c => negb (is_sep c)) r)).

(** [path.dirname(p)]: the scan runs over the indices [>= 1]; [end] is the
    index of the first separator met after a non-separator. *)
Definition dirname (p : string) : string :=
  match list_ascii_of_string p with
  | [] => "."
  | c0 :: rest =>
      let hasRoot := is_sep c0 in
      let r := drop_while is_sep (rev rest) in
      match drop_while (fun c => negb (is_sep c)) r with
      | [] => if hasRoot then "/" else "."
      | _ :: more =>
          match more with
          | [] => if hasRoot then "//" else string_of_list_ascii [c0]
          | _ => string_of_list_ascii (c0 :: rev more)
          end
      end
  end.

(** [s.split(path.sep)]: never the empty list; [acc] is the segment being
    read, reversed. *)
Fixpoint split_go (acc : list ascii) (l : list ascii) : list string :=
  match l with
  | [] => [string_of_list_ascii (rev acc)]
  | c :: l' =>
      if is_sep c then string_of_list_ascii (rev acc) :: split_go [] l'
      else split_go (c :: acc) l'
  end.

Definition split (s : string) : list string :=
  split_go [] (list_ascii_of_string s).

End Path.

(** ** [src/config.ts] *)

Module Config.

Definition CONFIG_FILENAME : string := ".gdrive-folder-sync.json".
Definition STATE_FILENAME : string := ".gdrive-folder-sync-state.json".

Definition getExcludedFiles : list string :=
  [CONFIG_FILENAME; STATE_FILENAME; ".DS_Store"].

Record Config := {
  localPath : string;
  gdriveFolderId : string;
}.

End Config.


(** ** Exceptions *)

Inductive Error :=
| ENOENT (path : string)
| EISDIR (path : string)
| EEXIST (path : string)
| RemoteError (message : string).

Inductive Result (A : Type) :=
| Ok (a : A)
| Throw (e : Error).
Arguments Ok {A} a.
Arguments Throw {A} e.

(** ** The local file system, as the engine uses it

    A table from absolute path to entry, with the clock that stamps writes.
    The engine calls [existsSync], [statSync], [readFileSync],
    [writeFileSync] and [mkdirSync] of Node's [fs]; the current [pull]
    never unlinks. *)

Module Fs.

Inductive Entry :=
| File (mtimeMs : Z) (content : string)
| Dir (mtimeMs : Z).

Definition mtimeMs (e : Entry) : Z :=
  match e with File m _ => m | Dir m => m end.

Definition isDirectory (e : Entry) : bool :=
  match e with File _ _ => false | Dir _ => true end.

Record t := { entries : gmap string Entry; now : Z }.

Definition existsSync (fs : t) (p : string) : bool :=
  match entries fs !! p with Some _ => true | None => false end.

Definition statSync (fs : t) (p : string) : Result Entry :=
  match entries fs !! p with Some e => Ok e | None => Throw (ENOENT p) end.

Definition readFileSync (fs : t) (p : string) : Result string :=
  match entries fs !! p with
  | Some (File _ c) => Ok c
  | Some (Dir _) => Throw (EISDIR p)
  | None => Throw (ENOENT p)
  end.

Definition writeFileSync (fs : t) (p : string) (c : string) : Result t :=
  match entries fs !! p with
  | Some (Dir _) => Throw (EISDIR p)
  | _ => Ok {| entries := <[p := File (now fs) c]> (entries fs); now := now fs |}
  end.

(** [mkdirSync(dir, {recursive: true})]: nothing to do on a directory. *)
Definition mkdirSync (fs : t) (p : string) : Result t :=
  match entries fs !! p with
  | Some (Dir _) => Ok fs
  | Some (File _ _) => Throw (EEXIST p)
  | None => Ok {| entries := <[p := Dir (now fs)]> (entries fs); now := now fs |}
  end.

End Fs.

(** ** JSON values and [JSON.parse]

    The persisted state is whatever [JSON.parse] makes of the file: the
    TypeScript annotation [SyncState] on [loadState] is not checked at run
    time, so the loaded value is modelled as an untyped JSON value. *)

Module Json.

Inductive json :=
| JNull
| JBool (b : bool)
| JNumber (lexeme : string)
| JString (s : string)
| JArray (items : list json)
| JObject (members : list (string * json)).

Definition chars := list ascii.

Definition is_ws (c : ascii) : bool :=
  match c with
  | " "%char | "009"%char | "010"%char | "013"%char => true
  | _ => false
  end.

Fixpoint skip_ws (l : chars) : chars :=
  match l with
  | c :: l' => if is_ws c then skip_ws l' else l
  | [] => []
  end.

Definition is_digit (c : ascii) : bool :=
  let n := nat_of_ascii c in (48 <=? n)%nat && (n <=? 57)%nat.

Fixpoint span_digits (l : chars) : chars * chars :=
  match l with
  | c :: l' =>
      if is_digit c then let '(d, r) := span_digits l' in (c :: d, r)
      else ([], l)
  | [] => ([], [])
  end.

(** number = [-] int [frac] [exp]; the lexeme is kept as text. *)
Definition parse_int (l : chars) : option (chars * chars) :=
  match span_digits l with
  | ([], _) => None
  | ("0"%char :: _ :: _, _) => None
  | (d, r) => Some (d, r)
  end.

Definition parse_frac (l : chars) : option (chars * chars) :=
  match l with
  | "."%char :: l' =>
      match span_digits l' with
      | ([], _) => None
      | (d, r) => Some ("."%char :: d, r)
      end
  | _ => Some ([], l)
  end.

Definition parse_exp (l : chars) : option (chars * chars) :=
  match l with
  | e :: l' =>
      if Ascii.eqb e "e" || Ascii.eqb e "E" then
        let '(sign, l'') :=
          match l' with
          | s :: t => if Ascii.eqb s "+" || Ascii.eqb s "-" then ([s], t) else ([], l')
          | [] => ([], l')
          end in
        match span_digits l'' with
        | ([], _) => None
        | (d, r) => Some ((e :: sign ++ d)%list, r)
        end
      else Some ([], l)
  | [] => Some ([], l)
  end.

Definition parse_number (l : chars) : option (json * chars) :=
  let '(sign, l1) :=
    match l with
    | "-"%char :: t => (["-"%char], t)
    | _ => ([], l)
    end in
  match parse_int l1 with
  | None => None
  | Some (i, l2) =>
      match parse_frac l2 with
      | None => None
      | Some (f, l3) =>
          match parse_exp l3 with
          | None => None
          | Some (e, l4) =>
              Some (JNumber (string_of_list_ascii (sign ++ i ++ f ++ e)%list), l4)
          end
      end
  end.

Definition hex_val (c : ascii) : option nat :=
  let n := nat_of_ascii c in
  if (48 <=? n)%nat && (n <=? 57)%nat then Some (n - 48)%nat
  else if (65 <=? n)%nat && (n <=? 70)%nat then Some (n - 55)%nat
  else if (97 <=? n)%nat && (n <=? 102)%nat then Some (n - 87)%nat
  else None.

(** A \uXXXX escape denotes a UTF-16 code unit; texts are byte strings
    here, so the unit is written out in UTF-8. *)
Definition utf8 (n : nat) : chars :=
  if (n <? 128)%nat then [ascii_of_nat n]
  else if (n <? 2048)%nat then
    [ascii_of_nat (192 + n / 64); ascii_of_nat (128 + n mod 64)]
  else
    [ascii_of_nat (224 + n / 4096); ascii_of_nat (128 + (n / 64) mod 64);
     ascii_of_nat (128 + n mod 64)].

Definition parse_escape (l : chars) : option (chars * chars) :=
  match l with
  | "034"%char :: r => Some (["034"%char], r)
  | "\"%char :: r => Some (["\"%char], r)
  | "/"%char :: r => Some (["/"%char], r)
  | "b"%char :: r => Some (["008"%char], r)
  | "f"%char :: r => Some (["012"%char], r)
  | "n"%char :: r => Some (["010"%char], r)
  | "r"%char :: r => Some (["013"%char], r)
  | "t"%char :: r => Some (["009"%char], r)
  | "u"%char :: a :: b :: c :: d :: r =>
      match hex_val a, hex_val b, hex_val c, hex_val d with
      | Some x, Some y, Some z, Some w =>
          Some (utf8 (((x * 16 + y) * 16 + z) * 16 + w)%nat, r)
      | _, _, _, _ => None
      end
  | _ => None
  end.

(** The characters of a string, after its opening quote. *)
Fixpoint parse_chars (fuel : nat) (l : chars) : option (chars * chars) :=
  match fuel with
  | O => None
  | S fuel' =>
      match l with
      | [] => None
      | "034"%char :: r => Some ([], r)
      | "\"%char :: r =>
          match parse_escape r with
          | None => None
          | Some (cs, r') =>
              match parse_chars fuel' r' with
              | None => None
              | Some (s, r'') => Some ((cs ++ s)%list, r'')
              end
          end
      | c :: r =>
          if (nat_of_ascii c <? 32)%nat then None
          else match parse_chars fuel' r with
               | None => None
               | Some (s, r') => Some (c :: s, r')
               end
      end
  end.

Definition parse_string (l : chars) : option (string * chars) :=
  match parse_chars (S (length l)) l with
  | None => None
  | Some (s, r) => Some (string_of_list_ascii s, r)
  end.

Definition expect (word : string) (v : json) (l : chars) : option (json * chars) :=
  let w := list_ascii_of_string word in
  if bool_decide (take (length w) l = w) then Some (v, drop (length w) l) else None.

(** value, then the tail of an array after its first element, then the
    tail of an object after its first member. *)
Fixpoint parse_value (fuel : nat) (l : chars) : option (json * chars) :=
  match fuel with
  | O => None
  | S fuel' =>
      match skip_ws l with
      | "n"%char :: _ => expect "null" JNull (skip_ws l)
      | "t"%char :: _ => expect "true" (JBool true) (skip_ws l)
      | "f"%char :: _ => expect "false" (JBool false) (skip_ws l)
      | "034"%char :: r =>
          match parse_string r with
          | None => None
          | Some (s, r') => Some (JString s, r')
          end
      | "["%char :: r =>
          match skip_ws r with
          | "]"%char :: r' => Some (JArray [], r')
          | _ =>
              match parse_value fuel' r with
              | None => None
              | Some (v, r') =>
                  match parse_items fuel' r' with
                  | None => None
                  | Some (vs, r'') => Some (JArray (v :: vs), r'')
                  end
              end
          end
      | "{"%char :: r =>
          match skip_ws r with
          | "}"%char :: r' => Some (JObject [], r')
          | "034"%char :: r' =>
              match parse_member fuel' r' with
              | None => None
              | Some (kv, r'') =>
                  match parse_members fuel' r'' with
                  | None => None
                  | Some (kvs, r3) => Some (JObject (kv :: kvs), r3)
                  end
              end
          | _ => None
          end
      | _ => parse_number (skip_ws l)
      end
  end
with parse_items (fuel : nat) (l : chars) : option (list json * chars) :=
  match fuel with
  | O => None
  | S fuel' =>
      match skip_ws l with
      | "]"%char :: r => Some ([], r)
      | ","%char :: r =>
          match parse_value fuel' r with
          | None => None
          | Some (v, r') =>
              match parse_items fuel' r' with
              | None => None
              | Some (vs, r'') => Some (v :: vs, r'')
              end
          end
      | _ => None
      end
  end
with parse_member (fuel : nat) (l : chars) : option ((string * json) * chars) :=
  match fuel with
  | O => None
  | S fuel' =>
      match parse_string l with
      | None => None
      | Some (k, r) =>
          match skip_ws r with
          | ":"%char :: r' =>
              match parse_value fuel' r' with
              | None => None
              | Some (v, r'') => Some ((k, v), r'')
              end
          | _ => None
          end
      end
  end
with parse_members (fuel : nat) (l : chars) : option (list (string * json) * chars) :=
  match fuel with
  | O => None
  | S fuel' =>
      match skip_ws l with
      | "}"%char :: r => Some ([], r)
      | ","%char :: r =>
          match skip_ws r with
          | "034"%char :: r' =>
              match parse_member fuel' r' with
              | None => None
              | Some (kv, r'') =>
                  match parse_members fuel' r'' with
                  | None => None
                  | Some (kvs, r3) => Some (kv :: kvs, r3)
                  end
              end
          | _ => None
          end
      | _ => None
      end
  end.

(** [JSON.parse(text)]: [None] stands for the [SyntaxError] it throws.
    Every recursive call consumes a character, so the length of the text
    bounds the depth. *)
Definition parse (text : string) : option json :=
  let l := list_ascii_of_string text in
  match parse_value (2 + length l) l with
  | Some (v, r) => match skip_ws r with [] => Some v | _ => None end
  | None => None
  end.

(** [o[k]] on a parsed object: the last member named [k] wins. *)
Fixpoint member (k : string) (ms : list (string * json)) : option json :=
  match ms with
  | [] => None
  | (k', v) :: ms' =>
      match member k ms' with
      | Some v' => Some v'
      | None => if String.eqb k k' then Some v else None
      end
  end.

End Json.

(** ** The remote store: [GDriveClient]

    The methods of the client issue HTTP requests; they are taken at their
    interface.  A client is a transition system on some remote state [R]:
    every method returns normally or throws, and moves the remote on.

    Before its request, every method validates the access token and, on a
    401, refreshes it: it then rewrites the token file and writes a line
    on the console.  Both belong to the client and are part of [R].  The
    token file is not an entry of the file system [Fs.t] below, which
    holds what the engine reads and writes, and the client's line is not
    in the trace, which holds what the engine itself does.  So what is
    said of the trace and of [Fs.t] is said of the engine's own calls. *)

Module GDrive.

Record GDriveFile := {
  id : string;
  name : string;
  mimeType : string;
  modifiedTime : string;
}.

Definition FOLDER_MIME : string := "application/vnd.google-apps.folder".
Definition NATIVE_PREFIX : string := "application/vnd.google-apps.".

Class Client (R : Type) := {
  listFilesRecursive : string -> R -> Result (list (string * GDriveFile)) * R;
  downloadFile : string -> R -> Result string * R;
  createFolder : string -> string -> R -> Result GDriveFile * R;
  findFolder : string -> string -> R -> Result (option GDriveFile) * R;
  uploadFile : string -> string -> string -> R -> Result GDriveFile * R;
  updateFile : string -> string -> R -> Result GDriveFile * R;
  deleteFile : string -> R -> Result unit * R;
}.

End GDrive.

Import GDrive (GDriveFile).

(** ** The replica state of [src/sync.ts]

    [state.files] and [state.folders] are plain objects read with [o[k]].
    A finite map agrees with that on every key except the names of the
    properties an object inherits ([constructor], [toString], ...; see
    [Js.inherited] below): for such a key JavaScript finds the inherited
    property where the map has nothing.  A statement that rests on a key
    being absent says that the key is none of these names. *)

Record FileState := {
  gdriveId : string;
  localMtime : Z;
  gdriveMtime : Z;
}.

Record SyncState := {
  files : gmap string FileState;
  folders : gmap string string;
}.

Definition emptyState : SyncState := {| files := ∅; folders := ∅ |}.

(** ** What the engine asks of the outside

    Every remote call, console line and file-system write is recorded, in
    order.  A remote call is recorded with the relative path the engine was
    working on when it made it (for the folder calls, the cumulative folder
    path) and with how it ended; the recursive listing, which is about no
    path in particular, has an event of its own. *)

Inductive Call :=
| DownloadFile (fileId : string)
| CreateFolder (name parentId : string)
| FindFolder (name parentId : string)
| UploadFile (name content parentId : string)
| UpdateFile (fileId content : string)
| DeleteFile (fileId : string).

Inductive Outcome :=
| Threw (e : Error)
| Returned (file : option GDriveFile).

Inductive Event :=
| Listed (folderId : string) (o : Outcome)
| Remote (subject : string) (c : Call) (o : Outcome)
| ConsoleLog (line : string)
| ConsoleError (line : string) (e : Error)
| WroteFile (path content : string)
| MadeDir (path : string).

Inductive Action := Download | Skip | LocalNewer.

(** ** The monad of the engine *)

Section Monad.

Context {R : Type}.

Record World := {
  state : SyncState;
  disk : Fs.t;
  remote : R;
  trace : list Event;
}.

Definition M (A : Type) : Type := World -> Result A * World.

Definition ret {A} (a : A) : M A := fun w => (Ok a, w).

Definition bind {A B} (m : M A) (k : A -> M B) : M B :=
  fun w =>
    match m w with
    | (Ok a, w') => k a w'
    | (Throw e, w') => (Throw e, w')
    end.

Definition throw {A} (e : Error) : M A := fun w => (Throw e, w).

(** [try { body } catch (err) { handler }] *)
Definition try_catch {A} (body : M A) (handler : Error -> M A) : M A :=
  fun w =>
    match body w with
    | (Ok a, w') => (Ok a, w')
    | (Throw e, w') => handler e w'
    end.

Definition get_state : M SyncState := fun w => (Ok (state w), w).

Definition put_state (s : SyncState) : M unit :=
  fun w => (Ok tt, {| state := s; disk := disk w; remote := remote w; trace := trace w |}).

Definition get_disk : M Fs.t := fun w => (Ok (disk w), w).

Definition put_disk (d : Fs.t) : M unit :=
  fun w => (Ok tt, {| state := state w; disk := d; remote := remote w; trace := trace w |}).

Definition emit (e : Event) : M unit :=
  fun w => (Ok tt, {| state := state w; disk := disk w; remote := remote w;
                      trace := (trace w ++ [e])%list |}).

Definition lift {A} (r : Result A) : M A := fun w => (r, w).

(** A remote call: the remote moves on and the call is recorded, whether
    it returns or throws. *)
Definition call {A} (record : Outcome -> Event) (op : R -> Result A * R)
    (file : A -> option GDriveFile) : M A :=
  fun w =>
    let '(r, rem) := op (remote w) in
    let o := match r with Ok a => Returned (file a) | Throw e => Threw e end in
    (r, {| state := state w; disk := disk w; remote := rem;
           trace := (trace w ++ [record o])%list |}).

End Monad.

Arguments World R : clear implicits.
Arguments M R A : clear implicits.

Notation "'let*' x ':=' m 'in' k" := (bind m (fun x => k))
  (at level 10, x name, m at level 100, k at level 200).
Notation "m ';;;' k" := (bind m (fun _ => k))
  (at level 100, k at level 200, right associativity).

Fixpoint for_each {R A} (l : list A) (body : A -> M R unit) : M R unit :=
  match l with
  | [] => ret tt
  | x :: l' => body x ;;; for_each l' body
  end.

Fixpoint fold_m {R A B} (body : B -> A -> M R B) (l : list A) (b : B) : M R B :=
  match l with
  | [] => ret b
  | x :: l' => let* b' := body b x in fold_m body l' b'
  end.

(** ** [SyncEngine] *)

Module SyncEngine.

Section Engine.

Context {R : Type} `{GDrive.Client R}.

(** The configuration, and the library functions the engine calls:
    [path.join], [path.relative], [new Date(s).getTime()] on the RFC 3339
    stamps the remote reports, and [JSON.stringify(state, null, 2)]. *)
Variable config : Config.Config.
Variable path_join : string -> string -> string.
Variable path_relative : string -> string -> string.
Variable getTime : string -> Z.
Variable JSON_stringify : SyncState -> string.

Definition statePath : string :=
  path_join (Config.localPath config) Config.STATE_FILENAME.

(** *** File system and console, in the monad *)

Definition existsSync (p : string) : M R bool :=
  let* d := get_disk in ret (Fs.existsSync d p).

Definition statSync (p : string) : M R Fs.Entry :=
  let* d := get_disk in lift (Fs.statSync d p).

Definition readFileSync (p : string) : M R string :=
  let* d := get_disk in lift (Fs.readFileSync d p).

Definition writeFileSync (p c : string) : M R unit :=
  let* d := get_disk in
  let* d' := lift (Fs.writeFileSync d p c) in
  put_disk d' ;;; emit (WroteFile p c).

Definition mkdirSync (p : string) : M R unit :=
  let* d := get_disk in
  let* d' := lift (Fs.mkdirSync d p) in
  put_disk d' ;;; emit (MadeDir p).

Definition console_log (line : string) : M R unit := emit (ConsoleLog line).

Definition console_error (line : string) (e : Error) : M R unit :=
  emit (ConsoleError line e).

(** *** Assignments to [this.state] *)

Definition set_file (rel : string) (f : FileState) : M R unit :=
  let* s := get_state in
  put_state {| files := <[rel := f]> (files s); folders := folders s |}.

Definition delete_file (rel : string) : M R unit :=
  let* s := get_state in
  put_state {| files := delete rel (files s); folders := folders s |}.

Definition set_folder (rel : string) (i : string) : M R unit :=
  let* s := get_state in
  put_state {| files := files s; folders := <[rel := i]> (folders s) |}.

(** *** [saveState], [isExcluded], [getRelativePath] *)

Definition saveState : M R unit :=
  let* s := get_state in writeFileSync statePath (JSON_stringify s).

Definition isExcluded (relativePath : string) : bool :=
  let excluded := Config.getExcludedFiles in
  let basename := Path.basename relativePath in
  bool_decide (basename ∈ excluded).

Definition getRelativePath (absolutePath : string) : string :=
  path_relative (Config.localPath config) absolutePath.

(** A JavaScript string is truthy when it is not empty. *)
Definition truthy (s : string) : bool := negb (String.eqb s "").

(** *** [ensureFolderExists]

    [cached s p] is [this.state.folders[p]] when the test
    [if (existingId)] lets it through. *)

Definition cached (s : SyncState) (p : string) : option string :=
  match folders s !! p with
  | Some existingId => if truthy existingId then Some existingId else None
  | None => None
  end.

Definition gdrive_findFolder (subject name parentId : string)
    : M R (option GDriveFile) :=
  call (Remote subject (FindFolder name parentId)) (GDrive.findFolder name parentId)
       (fun found => found).

Definition gdrive_createFolder (subject name parentId : string) : M R GDriveFile :=
  call (Remote subject (CreateFolder name parentId)) (GDrive.createFolder name parentId) Some.

(** The body of the loop, for the segment [part] whose cumulative path is
    [currentPath]: the next [parentId]. *)
Definition ensureFolder_step (currentPath part parentId : string) : M R string :=
  let* s := get_state in
  match cached s currentPath with
  | Some existingId => ret existingId
  | None =>
      let* existing := gdrive_findFolder currentPath part parentId in
      match existing with
      | Some found =>
          set_folder currentPath (GDrive.id found) ;;; ret (GDrive.id found)
      | None =>
          let* folder := gdrive_createFolder currentPath part parentId in
          set_folder currentPath (GDrive.id folder) ;;; ret (GDrive.id folder)
      end
  end.

Definition next_path (currentPath part : string) : string :=
  if truthy currentPath then currentPath +:+ "/" +:+ part else part.

Fixpoint ensureFolder_loop (parts : list string) (currentPath parentId : string)
    : M R string :=
  match parts with
  | [] => ret parentId
  | part :: parts' =>
      let currentPath := next_path currentPath part in
      let* parentId := ensureFolder_step currentPath part parentId in
      ensureFolder_loop parts' currentPath parentId
  end.

Definition ensureFolderExists (relativePath : string) : M R string :=
  let parts := Path.split relativePath in
  ensureFolder_loop parts "" (Config.gdriveFolderId config).

(** *** [handleLocalDelete] *)

Definition gdrive_deleteFile (subject fileId : string) : M R unit :=
  call (Remote subject (DeleteFile fileId)) (GDrive.deleteFile fileId) (fun _ => None).

Definition handleLocalDelete (relativePath : string) : M R unit :=
  let* s := get_state in
  match files s !! relativePath with
  | Some existing =>
      try_catch
        (gdrive_deleteFile relativePath (gdriveId existing) ;;;
         console_log ("[push] Deleted: " +:+ relativePath))
        (fun err =>
           console_error ("[push] Failed to delete " +:+ relativePath +:+ ":") err) ;;;
      delete_file relativePath
  | None => ret tt
  end.

(** *** [shouldDownloadFile] *)

Definition shouldDownloadFile (relativePath localPath : string) (remoteMtime : Z)
    : M R Action :=
  let* s := get_state in
  match files s !! relativePath with
  | None =>
      let* present := existsSync localPath in
      if negb present then ret Download
      else
        let* stats := statSync localPath in
        let localMtimeNow := Fs.mtimeMs stats in
        if remoteMtime >? localMtimeNow then ret Download
        else
          console_log ("[pull] Local is newer (no state): " +:+ relativePath) ;;;
          ret LocalNewer
  | Some existing =>
      if remoteMtime <=? gdriveMtime existing then ret Skip
      else
        let* present := existsSync localPath in
        if negb present then ret Download
        else
          let* stats := statSync localPath in
          let localMtimeNow := Fs.mtimeMs stats in
          if localMtimeNow <=? localMtime existing then ret Download
          else if remoteMtime >? localMtimeNow then ret Download
          else
            console_log ("[pull] Conflict, local wins: " +:+ relativePath) ;;;
            ret LocalNewer
  end.

(** *** [push] *)

Definition gdrive_updateFile (subject fileId content : string) : M R GDriveFile :=
  call (Remote subject (UpdateFile fileId content)) (GDrive.updateFile fileId content) Some.

Definition gdrive_uploadFile (subject name content parentId : string)
    : M R GDriveFile :=
  call (Remote subject (UploadFile name content parentId))
       (GDrive.uploadFile name content parentId) Some.

(** The body of the loop of [push], for one absolute path. *)
Definition push_entry (absolutePath : string) : M R unit :=
  let relativePath := getRelativePath absolutePath in
  if isExcluded relativePath then ret tt
  else
    let* present := existsSync absolutePath in
    if negb present then handleLocalDelete relativePath
    else
      let* stats := statSync absolutePath in
      if Fs.isDirectory stats then ret tt
      else
        let* content := readFileSync absolutePath in
        let localMtime := Fs.mtimeMs stats in
        let* s := get_state in
        match files s !! relativePath with
        | Some existing =>
            let* updated :=
              gdrive_updateFile relativePath (gdriveId existing) content in
            set_file relativePath
              {| gdriveId := gdriveId existing;
                 localMtime := localMtime;
                 gdriveMtime := getTime (GDrive.modifiedTime updated) |} ;;;
            console_log ("[push] Updated: " +:+ relativePath)
        | None =>
            let dir := Path.dirname relativePath in
            let* parentId :=
              if String.eqb dir "." then ret (Config.gdriveFolderId config)
              else ensureFolderExists dir in
            let* created :=
              gdrive_uploadFile relativePath (Path.basename relativePath)
                                content parentId in
            set_file relativePath
              {| gdriveId := GDrive.id created;
                 localMtime := localMtime;
                 gdriveMtime := getTime (GDrive.modifiedTime created) |} ;;;
            console_log ("[push] Created: " +:+ relativePath)
        end.

Definition push (absolutePaths : list string) : M R unit :=
  for_each absolutePaths push_entry ;;; saveState.

(** *** [pull] *)

Definition gdrive_listFilesRecursive (folderId : string)
    : M R (list (string * GDriveFile)) :=
  call (Listed folderId) (GDrive.listFilesRecursive folderId)
       (fun _ => None).

Definition gdrive_downloadFile (subject fileId : string) : M R string :=
  call (Remote subject (DownloadFile fileId)) (GDrive.downloadFile fileId) (fun _ => None).

(** First loop: folder entries of the listing go to [state.folders]. *)
Definition pull_folder (entry : string * GDriveFile) : M R unit :=
  let '(relativePath, file) := entry in
  if String.eqb (GDrive.mimeType file) GDrive.FOLDER_MIME
  then set_folder relativePath (GDrive.id file)
  else ret tt.

(** Second loop; [filesToPush] is the array the method returns. *)
Definition pull_entry (filesToPush : list string) (entry : string * GDriveFile)
    : M R (list string) :=
  let '(relativePath, remoteFile) := entry in
  if isExcluded relativePath then ret filesToPush
  else if String.prefix GDrive.NATIVE_PREFIX (GDrive.mimeType remoteFile)
  then ret filesToPush
  else
    let localPath := path_join (Config.localPath config) relativePath in
    let remoteMtime := getTime (GDrive.modifiedTime remoteFile) in
    let* action := shouldDownloadFile relativePath localPath remoteMtime in
    match action with
    | Download =>
        let* content := gdrive_downloadFile relativePath (GDrive.id remoteFile) in
        let dir := Path.dirname localPath in
        mkdirSync dir ;;;
        writeFileSync localPath content ;;;
        let* stats := statSync localPath in
        set_file relativePath
          {| gdriveId := GDrive.id remoteFile;
             localMtime := Fs.mtimeMs stats;
             gdriveMtime := remoteMtime |} ;;;
        console_log ("[pull] Downloaded: " +:+ relativePath) ;;;
        ret filesToPush
    | LocalNewer =>
        let* stats := statSync localPath in
        set_file relativePath
          {| gdriveId := GDrive.id remoteFile;
             localMtime := Fs.mtimeMs stats;
             gdriveMtime := remoteMtime |} ;;;
        ret (filesToPush ++ [localPath])%list
    | Skip => ret filesToPush
    end.

(** [remoteFiles.has(relativePath)] *)
Definition has (remoteFiles : list (string * GDriveFile)) (relativePath : string)
    : bool :=
  bool_decide (relativePath ∈ remoteFiles.*1).

(** Third loop, over [Object.keys(this.state.files)]. *)
Definition pull_missing (remoteFiles : list (string * GDriveFile))
    (filesToPush : list string) (relativePath : string) : M R (list string) :=
  if has remoteFiles relativePath then ret filesToPush
  else
    let localPath := path_join (Config.localPath config) relativePath in
    let* present := existsSync localPath in
    if present then
      delete_file relativePath ;;;
      console_log ("[pull] Not on remote, will push: " +:+ relativePath) ;;;
      ret (filesToPush ++ [localPath])%list
    else
      delete_file relativePath ;;;
      ret filesToPush.

Definition keys (s : SyncState) : list string := (map_to_list (files s)).*1.

Definition pull : M R (list string) :=
  console_log "[pull] Checking for remote changes..." ;;;
  let* remoteFiles := gdrive_listFilesRecursive (Config.gdriveFolderId config) in
  for_each remoteFiles pull_folder ;;;
  let* filesToPush := fold_m pull_entry remoteFiles [] in
  let* s := get_state in
  let* filesToPush := fold_m (pull_missing remoteFiles) (keys s) filesToPush in
  saveState ;;;
  console_log "[pull] Done" ;;;
  ret filesToPush.

(** *** [loadState]

    Called once, by the constructor, on the disk as it is then.  What it
    returns becomes [this.state] as it is. *)

Definition emptyDocument : Json.json :=
  Json.JObject [("files", Json.JObject []); ("folders", Json.JObject [])].

Definition loadState (d : Fs.t) : Json.json :=
  match Fs.readFileSync d statePath with
  | Ok content =>
      match Json.parse content with
      | Some document => document
      | None => emptyDocument
      end
  | Throw _ => emptyDocument
  end.

End Engine.

End SyncEngine.

(** ** Shapes of a loaded document

    The specification's [ReplicaState]: an object whose [files] member maps
    paths to records of a remote id and two modification times, and whose
    [folders] member maps paths to remote ids. *)

Module ReplicaState.

Import Json.

Definition is_string (j : json) : bool :=
  match j with JString _ => true | _ => false end.

Definition is_number (j : json) : bool :=
  match j with JNumber _ => true | _ => false end.

Definition has_member (k : string) (p : json -> bool) (ms : list (string * json))
    : bool :=
  match member k ms with Some v => p v | None => false end.

Definition is_record (j : json) : bool :=
  match j with
  | JObject ms =>
      has_member "gdriveId" is_string ms
      && has_member "localMtime" is_number ms
      && has_member "gdriveMtime" is_number ms
  | _ => false
  end.

Definition is_map (p : json -> bool) (j : json) : bool :=
  match j with
  | JObject ms => forallb (fun kv => p (snd kv)) ms
  | _ => false
  end.

Definition valid (j : json) : bool :=
  match j with
  | JObject ms =>
      has_member "files" (is_map is_record) ms
      && has_member "folders" (is_map is_string) ms
  | _ => false
  end.

End ReplicaState.

(** ** Test doubles

    A remote that answers from a script, one reply per call, and the two
    [path] functions on normalised paths below the synced directory. *)

Module Scripted.

Inductive Reply :=
| Listing (entries : list (string * GDriveFile))
| Bytes (content : string)
| AFile (file : GDriveFile)
| NoFile
| Done
| Fails (message : string).

Definition answer {A} (pick : Reply -> option A) (script : list Reply)
    : Result A * list Reply :=
  match script with
  | [] => (Throw (RemoteError "script exhausted"), [])
  | Fails message :: script' => (Throw (RemoteError message), script')
  | reply :: script' =>
      match pick reply with
      | Some a => (Ok a, script')
      | None => (Throw (RemoteError "unexpected reply"), script')
      end
  end.

Definition a_listing (r : Reply) :=
  match r with Listing l => Some l | _ => None end.
Definition a_content (r : Reply) :=
  match r with Bytes c => Some c | _ => None end.
Definition a_file (r : Reply) :=
  match r with AFile f => Some f | _ => None end.
Definition a_file_or_null (r : Reply) :=
  match r with AFile f => Some (Some f) | NoFile => Some None | _ => None end.
Definition a_void (r : Reply) :=
  match r with Done => Some tt | _ => None end.

#[global] Instance client : GDrive.Client (list Reply) := {
  listFilesRecursive _ := answer a_listing;
  downloadFile _ := answer a_content;
  createFolder _ _ := answer a_file;
  findFolder _ _ := answer a_file_or_null;
  uploadFile _ _ _ := answer a_file;
  updateFile _ _ := answer a_file;
  deleteFile _ := answer a_void;
}.

(** [path.join(base, rel)] and [path.relative(base, p)] when [rel] is
    normalised and [p] lies below [base]. *)
Definition join (base rel : string) : string := base +:+ "/" +:+ rel.

Fixpoint strip (prefix s : string) : option string :=
  match prefix, s with
  | EmptyString, _ => Some s
  | String a prefix', String b s' =>
      if Ascii.eqb a b then strip prefix' s' else None
  | _, _ => None
  end.

Definition relative (base p : string) : string :=
  match strip (base +:+ "/") p with
  | Some rel => rel
  | None => p
  end.

(** Milliseconds of a stamp: the test stamps are written as decimal
    numerals. *)
Fixpoint digits (acc : Z) (s : string) : Z :=
  match s with
  | EmptyString => acc
  | String c s' => digits (10 * acc + Z.of_nat (nat_of_ascii c - 48)) s'
  end.

Definition getTime (stamp : string) : Z := digits 0 stamp.

Definition stringify (s : SyncState) : string := "<state>".

Definition config : Config.Config :=
  {| Config.localPath := "/sync"; Config.gdriveFolderId := "root" |}.

Definition world (s : SyncState) (d : Fs.t) (script : list Reply)
    : World (list Reply) :=
  {| state := s; disk := d; remote := script; trace := [] |}.

End Scripted.

(** ** Scenarios

    Concrete worlds over the scripted remote, for the synced directory
    [/sync] whose remote root is [root]. *)

Module Scenario.

Import Scripted.

Definition push := SyncEngine.push config join relative getTime stringify.
Definition pull := SyncEngine.pull config join getTime stringify.
Definition push_entry := SyncEngine.push_entry config relative getTime.
Definition pull_entry := SyncEngine.pull_entry config join getTime.
Definition loadState := SyncEngine.loadState config join.

Definition a_record : FileState :=
  {| gdriveId := "X1"; localMtime := 10; gdriveMtime := 20 |}.

(** [a.txt] was last written locally at 50. *)
Definition a_disk : Fs.t :=
  {| Fs.entries := {[ "/sync/a.txt" := Fs.File 50 "local" ]}; Fs.now := 100 |}.

Definition a_tracked : World (list Reply) :=
  world {| files := {[ "a.txt" := a_record ]}; folders := ∅ |} a_disk [].

Definition a_untracked : World (list Reply) := world emptyState a_disk [].

(** The remote copy of [a.txt], modified at 30. *)
Definition a_remote : GDriveFile :=
  {| GDrive.id := "R1"; GDrive.name := "a.txt";
     GDrive.mimeType := "text/plain"; GDrive.modifiedTime := "30" |}.

(** [a.txt] as the remote reports it once uploaded. *)
Definition a_created : GDriveFile :=
  {| GDrive.id := "X9"; GDrive.name := "a.txt";
     GDrive.mimeType := "text/plain"; GDrive.modifiedTime := "70" |}.

Definition a_uploading : World (list Reply) :=
  world emptyState a_disk [AFile a_created].

(** [gone.txt] is tracked and is no longer on the disk; in the first
    world the remote will refuse to delete it. *)
Definition gone_record : FileState :=
  {| gdriveId := "G1"; localMtime := 5; gdriveMtime := 6 |}.

Definition gone_state : SyncState :=
  {| files := {[ "gone.txt" := gone_record ]}; folders := ∅ |}.

Definition gone_refused : World (list Reply) :=
  world gone_state a_disk [Fails "500"].

(** [kept.txt] is tracked and on the disk, and the remote lists
    nothing. *)
Definition kept_state : SyncState :=
  {| files := {[ "kept.txt" := gone_record ]}; folders := ∅ |}.

Definition kept_disk : Fs.t :=
  {| Fs.entries := {[ "/sync/kept.txt" := Fs.File 5 "mine" ]}; Fs.now := 100 |}.

Definition kept_unlisted : World (list Reply) :=
  world kept_state kept_disk [Listing []].

(** Two new files; the remote takes the first and refuses the second. *)
Definition two_disk : Fs.t :=
  {| Fs.entries := {[ "/sync/a.txt" := Fs.File 50 "local";
                      "/sync/b.txt" := Fs.File 51 "other" ]};
     Fs.now := 100 |}.

Definition two_new : World (list Reply) :=
  world emptyState two_disk [AFile a_created; Fails "500"].

(** [docs] is cached; [docs/img] is not, and is on the remote. *)
Definition img_folder : GDriveFile :=
  {| GDrive.id := "F2"; GDrive.name := "img";
     GDrive.mimeType := GDrive.FOLDER_MIME; GDrive.modifiedTime := "1" |}.

Definition docs_cached : World (list Reply) :=
  world {| files := ∅; folders := {[ "docs" := "F1" ]} |} a_disk
        [AFile img_folder].

(** A directory that bears the name of an excluded file, with a file to
    push in it; the remote has no such folder yet. *)
Definition store_folder : GDriveFile :=
  {| GDrive.id := "F7"; GDrive.name := ".DS_Store";
     GDrive.mimeType := GDrive.FOLDER_MIME; GDrive.modifiedTime := "1" |}.

Definition store_disk : Fs.t :=
  {| Fs.entries := {[ "/sync/.DS_Store/a.txt" := Fs.File 50 "local" ]};
     Fs.now := 100 |}.

Definition store_start : World (list Reply) :=
  {| state := emptyState; disk := store_disk;
     remote := [NoFile; AFile store_folder; AFile a_created]; trace := [] |}.

(** State files: an empty object, and a text cut short. *)
Definition state_file (content : string) : Fs.t :=
  {| Fs.entries := {[ "/sync/.gdrive-folder-sync-state.json" := Fs.File 1 content ]};
     Fs.now := 100 |}.

End Scenario.

(** ** Reading a trace *)

Definition is_delete (c : Call) : bool :=
  match c with DeleteFile _ => true | _ => false end.

(** The remote calls that move content: upload, download, update, delete. *)
Definition is_transfer (c : Call) : bool :=
  match c with
  | UploadFile _ _ _ | DownloadFile _ | UpdateFile _ _ | DeleteFile _ => true
  | FindFolder _ _ | CreateFolder _ _ => false
  end.

Definition is_folder_call (c : Call) : bool :=
  match c with FindFolder _ _ | CreateFolder _ _ => true | _ => false end.

(** Every [createFolder] of a trace comes right after a [findFolder] for
    the same path, name and parent that found nothing. *)
Definition create_after_find (evs : list Event) : Prop :=
  ∀ before p n parent o after,
    evs = (before ++ Remote p (CreateFolder n parent) o :: after)%list →
    ∃ before',
      before = (before' ++ [Remote p (FindFolder n parent) (Returned None)])%list.

(** The values [currentPath] takes while [ensureFolderExists] walks the
    segments [parts], starting from [currentPath]. *)
Fixpoint cumulative (parts : list string) (currentPath : string) : list string :=
  match parts with
  | [] => []
  | part :: parts' =>
      let currentPath := SyncEngine.next_path currentPath part in
      currentPath :: cumulative parts' currentPath
  end.

(** An event is quiet when it is neither a write to the disk nor a remote
    call that threw, a throwing [deleteFile] excepted. *)
Definition quiet (e : Event) : bool :=
  match e with
  | Remote _ c (Threw _) => is_delete c
  | Listed _ (Threw _) => false
  | WroteFile _ _ => false
  | MadeDir _ => false
  | _ => true
  end.

(** ** Sessions

    The worlds an engine that started on the empty document can be in:
    between two of its operations the disk and the remote may have changed
    in any way. *)

Section Sessions.

Context {R : Type} `{GDrive.Client R}.
Variable config : Config.Config.
Variable path_join : string -> string -> string.
Variable path_relative : string -> string -> string.
Variable getTime : string -> Z.
Variable JSON_stringify : SyncState -> string.

Inductive reachable : World R -> Prop :=
| reach_start d r :
    reachable {| state := emptyState; disk := d; remote := r; trace := [] |}
| reach_outside w d r :
    reachable w ->
    reachable {| state := state w; disk := d; remote := r; trace := trace w |}
| reach_push w absolutePaths res w' :
    reachable w ->
    SyncEngine.push config path_join path_relative getTime JSON_stringify
      absolutePaths w = (res, w') ->
    reachable w'
| reach_pull w res w' :
    reachable w ->
    SyncEngine.pull config path_join getTime JSON_stringify w = (res, w') ->
    reachable w'.

End Sessions.

(** ** Excluded names *)

Definition files_clean (s : SyncState) : Prop :=
  ∀ k, is_Some (files s !! k) → SyncEngine.isExcluded k = false.

Definition folders_clean (s : SyncState) : Prop :=
  ∀ k, is_Some (folders s !! k) → SyncEngine.isExcluded k = false.

(** A transfer is made for a path that is not excluded, and an upload
    never names an excluded file. *)
Definition event_clean (e : Event) : Prop :=
  match e with
  | Remote subject c _ =>
      (is_transfer c = true → SyncEngine.isExcluded subject = false) ∧
      match c with
      | UploadFile name _ _ => name ∉ Config.getExcludedFiles
      | _ => True
      end
  | _ => True
  end.

Definition excluded_free {R} (w : World R) : Prop :=
  files_clean (state w) ∧ Forall event_clean (trace w).

(** ** Relations between worlds

    What a computation may be known to do to the world, whatever it returns
    or throws. *)

Section Relations.

Context {R : Type}.

(** [respects T m]: whatever [m] does and however it ends, it takes a world
    to one related to it by [T]. *)
Definition respects (T : World R → World R → Prop) {A} (m : M R A) : Prop :=
  ∀ w r w', m w = (r, w') → T w w'.

(** [returns Q m]: a value [m] returns satisfies [Q]. *)
Definition returns {A} (Q : A → Prop) (m : M R A) : Prop :=
  ∀ w a w', m w = (Ok a, w') → Q a.

Definition all_quiet (evs : list Event) : Prop := Forall (λ e, quiet e = true) evs.

Definition ends_in_throw {A} (r : Result A) (evs : list Event) : Prop :=
  ∃ e evs0 subject c,
    r = Throw e ∧ evs = (evs0 ++ [Remote subject c (Threw e)])%list ∧ all_quiet evs0.

(** [tidy m]: [m] leaves the disk alone, and a remote call that throws in it
    (other than a [deleteFile]) is the last thing it does and is what it
    throws. *)
Definition tidy {A} (m : M R A) : Prop :=
  ∀ w r w', m w = (r, w') →
    disk w' = disk w ∧
    ∃ evs, trace w' = (trace w ++ evs)%list ∧ (all_quiet evs ∨ ends_in_throw r evs).

Definition keeps_clean (w w' : World R) : Prop :=
  excluded_free w → excluded_free w'.

Definition stays_untracked (rel : string) (w w' : World R) : Prop :=
  files (state w) !! rel = None → files (state w') !! rel = None.

Definition keeps_disk (w w' : World R) : Prop :=
  ∀ p, Fs.existsSync (disk w) p = true → Fs.existsSync (disk w') p = true.

Definition silent_on (rel : string) (w w' : World R) : Prop :=
  ∃ evs, trace w' = (trace w ++ evs)%list ∧ ∀ c o, Remote rel c o ∉ evs.

Definition keeps_record (rel : string) (w w' : World R) : Prop :=
  files (state w') !! rel = files (state w) !! rel.

Definition bystander (rel : string) (w w' : World R) : Prop :=
  keeps_disk w w' ∧ silent_on rel w w' ∧ keeps_record rel w w'.

Definition keeps_cache (w w' : World R) : Prop :=
  ∀ p i, SyncEngine.cached (state w) p = Some i →
         SyncEngine.cached (state w') p = Some i.

Definition folder_events (parts : list string) (currentPath : string)
    (w : World R) (evs : list Event) : Prop :=
  ∀ e, e ∈ evs →
    ∃ p c o, e = Remote p c o ∧ is_folder_call c = true ∧
             p ∈ cumulative parts currentPath ∧
             SyncEngine.cached (state w) p = None.

End Relations.

(** * The rest of the program

    [src/watcher.ts], the argument parsing of [src/index.ts], [loadConfig]
    of [src/config.ts] and the recursive listing of [src/gdrive.ts]. *)

(** ** JavaScript strings *)

Module Js.

Fixpoint prefix_of (p l : list ascii) : bool :=
  match p, l with
  | [], _ => true
  | a :: p', b :: l' => Ascii.eqb a b && prefix_of p' l'
  | _ :: _, [] => false
  end.

(** [s.startsWith(p)] and [s.endsWith(p)] *)
Definition startsWith (s p : string) : bool :=
  prefix_of (list_ascii_of_string p) (list_ascii_of_string s).

Definition endsWith (s p : string) : bool :=
  prefix_of (rev (list_ascii_of_string p)) (rev (list_ascii_of_string s)).

(** [s.slice(2)] *)
Definition slice2 (s : string) : string :=
  match s with
  | String _ (String _ r) => r
  | _ => ""
  end.

(** A [Map] keeps its keys in the order of their first insertion; [set] on
    a key that is there replaces the value where it stands. *)
Fixpoint map_set {V} (k : string) (v : V) (m : list (string * V)) : list (string * V) :=
  match m with
  | [] => [(k, v)]
  | (k', v') :: m' =>
      if String.eqb k k' then (k, v) :: m' else (k', v') :: map_set k v m'
  end.

(** [set.add(x)] on a [Set], which keeps the order of first insertion. *)
Definition set_add (s : list string) (x : string) : list string :=
  if bool_decide (x ∈ s) then s else (s ++ [x])%list.

(** The names of the properties of [Object.prototype]: [o[k]] finds
    something for each of them in every plain object. *)
Definition inherited : list string :=
  ["constructor"; "__defineGetter__"; "__defineSetter__"; "hasOwnProperty";
   "__lookupGetter__"; "__lookupSetter__"; "isPrototypeOf";
   "propertyIsEnumerable"; "toString"; "valueOf"; "__proto__";
   "toLocaleString"].

End Js.

(** ** The walk of the folder resolver, in the words of the specification

    The segments of the path are taken from left to right.  [done] are the
    segments walked so far and [todo] those to come; the cumulative prefix
    of a segment is the segments up to it joined by slashes, [parent] is
    the id under which the next segment is looked for: the root at first,
    then the id of the prefix before.  A prefix that [folders] holds with
    a non-empty id costs no call.  Otherwise the remote is asked for a
    folder of the segment's name under [parent], and only if it has none
    is one created, of that name under that parent; the id found or
    created is recorded for the prefix.  The walk stops at the first call
    that throws. *)




Section Resolver.

Context {R : Type} `{GDrive.Client R}.


End Resolver.

(** ** [GDriveClient.listFilesRecursive]

    The remote tree: every object with the children [listFiles] reports for
    its id (only asked of folders).  The method is followed on the runs in
    which every [listFiles] returns; one that throws makes the whole call
    throw. *)

Module Listing.

Inductive DriveNode :=
| Node (file : GDriveFile) (children : list DriveNode).

Definition file (n : DriveNode) : GDriveFile :=
  match n with Node f _ => f end.

Definition Map := list (string * GDriveFile).

Definition set_all (subFiles : Map) (result : Map) : Map :=
  fold_left (fun r kv => Js.map_set (fst kv) (snd kv) r) subFiles result.

(** The body of the loop, for one file of the folder. *)
Fixpoint listNode (basePath : string) (result : Map) (n : DriveNode) : Map :=
  match n with
  | Node file children =>
      let filePath :=
        if SyncEngine.truthy basePath then basePath +:+ "/" +:+ GDrive.name file
        else GDrive.name file in
      if String.eqb (GDrive.mimeType file) GDrive.FOLDER_MIME then
        let subFiles :=
          (fix loop (files : list DriveNode) (result : Map) : Map :=
             match files with
             | [] => result
             | f :: files' => loop files' (listNode filePath result f)
             end) children [] in
        set_all subFiles result
      else Js.map_set filePath file result
  end.

Definition listFilesRecursive (files : list DriveNode) (basePath : string) : Map :=
  fold_left (listNode basePath) files [].

End Listing.

(** ** [src/index.ts]: [parseArgs] *)

Module Cli.

Section Cli.

(** [path.join], [process.env.HOME] and [process.cwd()]. *)
Variable path_join : string -> string -> string.
Variable HOME : option string.
Variable cwd : string.

(** The loop over the arguments, from index [i] on; a [--config] followed
    by a non-empty argument takes both. *)
Fixpoint scanArgs (args : list string) (configPath folderPath : option string)
    : option string * option string :=
  match args with
  | [] => (configPath, folderPath)
  | a :: rest =>
      let otherwise :=
        if negb (Js.startsWith a "-") then scanArgs rest configPath (Some a)
        else scanArgs rest configPath folderPath in
      if String.eqb a "--config" then
        match rest with
        | v :: rest' =>
            if SyncEngine.truthy v then scanArgs rest' (Some v) folderPath
            else otherwise
        | [] => otherwise
        end
      else otherwise
  end.

Definition truthy_opt (s : option string) : option string :=
  match s with
  | Some v => if SyncEngine.truthy v then Some v else None
  | None => None
  end.

(** The [configPath] of the object [parseArgs] returns. *)
Definition parseArgs (args : list string) : string :=
  let '(configPath, folderPath) := scanArgs args None None in
  match truthy_opt configPath with
  | Some c => c
  | None =>
      match truthy_opt folderPath with
      | Some f =>
          let f :=
            if Js.startsWith f "~/" then path_join (default "" HOME) (Js.slice2 f)
            else f in
          path_join f Config.CONFIG_FILENAME
      | None => path_join cwd Config.CONFIG_FILENAME
      end
  end.

End Cli.

End Cli.

(** ** [src/config.ts]: [expandPath] and [loadConfig] *)

Module ConfigFile.

Inductive Failure :=
| ReadFailed (e : Error)
| SyntaxError
| TypeError.

Definition DEFAULT_DEBOUNCE_MS : Z := 15000.
Definition DEFAULT_POLL_INTERVAL_MS : Z := 900000.

(** What [loadConfig] returns.  The file is not validated: a member that is
    only copied keeps whatever value the file gave it ([None] is
    [undefined]). *)
Record Loaded := {
  localPath : string;
  gdriveFolderId : option Json.json;
  tokenFile : string;
  clientId : option Json.json;
  clientSecret : option Json.json;
  debounceMs : Z;
  pollIntervalMs : Z;
}.

Section ConfigFile.

Variable path_join : string -> string -> string.
Variable HOME : option string.
Variable GOOGLE_CLIENT_ID : option string.
Variable GOOGLE_CLIENT_SECRET : option string.

Definition expandPath (p : string) : string :=
  if Js.startsWith p "~/" then path_join (default "" HOME) (Js.slice2 p)
  else p.

(** [raw.k] for the keys read here: a [TypeError] on [null], the member of
    an object, [undefined] on anything else. *)
Definition get (raw : Json.json) (k : string) : Failure + option Json.json :=
  match raw with
  | Json.JNull => inl TypeError
  | Json.JObject members => inr (Json.member k members)
  | _ => inr None
  end.

(** [expandPath(v)]: only a string has [startsWith]. *)
Definition expandValue (v : option Json.json) : Failure + string :=
  match v with
  | Some (Json.JString p) => inr (expandPath p)
  | _ => inl TypeError
  end.

(** [v ?? process.env.NAME] *)
Definition orEnv (v : option Json.json) (env : option string) : option Json.json :=
  match v with
  | None | Some Json.JNull => Json.JString <$> env
  | Some x => Some x
  end.

Definition loadConfig (d : Fs.t) (configPath : string) : Failure + Loaded :=
  let expanded := expandPath configPath in
  match Fs.readFileSync d expanded with
  | Throw e => inl (ReadFailed e)
  | Ok content =>
      match Json.parse content with
      | None => inl SyntaxError
      | Some raw =>
          match get raw "localPath" with
          | inl f => inl f
          | inr lp =>
              match expandValue lp with
              | inl f => inl f
              | inr localPath =>
                  match get raw "gdriveFolderId", get raw "tokenFile" with
                  | inr folderId, inr tf =>
                      match expandValue tf with
                      | inl f => inl f
                      | inr tokenFile =>
                          match get raw "clientId", get raw "clientSecret" with
                          | inr cid, inr secret =>
                              inr {| localPath := localPath;
                                     gdriveFolderId := folderId;
                                     tokenFile := tokenFile;
                                     clientId := orEnv cid GOOGLE_CLIENT_ID;
                                     clientSecret := orEnv secret GOOGLE_CLIENT_SECRET;
                                     debounceMs := DEFAULT_DEBOUNCE_MS;
                                     pollIntervalMs := DEFAULT_POLL_INTERVAL_MS |}
                          | inl f, _ | _, inl f => inl f
                          end
                      end
                  | inl f, _ | _, inl f => inl f
                  end
              end
          end
      end
  end.

End ConfigFile.

End ConfigFile.

(** ** [src/watcher.ts] *)

Module Watcher.

(** A directory as [fs.readdirSync(dir, {withFileTypes: true})] reports
    it, with, for each sub-directory, what it reports there. *)
Inductive Dirent :=
| FileEntry (name : string)
| DirEntry (name : string) (entries : list Dirent).

(** The fields of the class that change: the [Set] of pending paths and
    the due time of the timer last set. *)
Record State := {
  pendingChanges : list string;
  debounceTimer : option Z;
}.

(** [excludedFiles.some((f) => s.endsWith(f))], the test of [getAllFiles]
    on an entry's name and of the [ignored] option on a path. *)
Definition endsWithExcluded (excludedFiles : list string) (s : string) : bool :=
  existsb (fun f => Js.endsWith s f) excludedFiles.

Section Watcher.

Context {R : Type} `{GDrive.Client R}.
Variable config : Config.Config.
Variable path_join : string -> string -> string.
Variable path_relative : string -> string -> string.
Variable getTime : string -> Z.
Variable JSON_stringify : SyncState -> string.
Variable debounceMs : Z.

(** The body of the loop of [getAllFiles], for one entry. *)
Fixpoint entryFiles (dir : string) (excludedFiles : list string) (entry : Dirent)
    : list string :=
  match entry with
  | FileEntry name =>
      if endsWithExcluded excludedFiles name then []
      else [path_join dir name]
  | DirEntry name entries =>
      if endsWithExcluded excludedFiles name then []
      else
        (fix loop (entries : list Dirent) : list string :=
           match entries with
           | [] => []
           | e :: entries' =>
               (entryFiles (path_join dir name) excludedFiles e ++ loop entries')%list
           end) entries
  end.

Definition getAllFiles (dir : string) (entries : list Dirent)
    (excludedFiles : list string) : list string :=
  flat_map (entryFiles dir excludedFiles) entries.

Definition pull : M R unit :=
  let* filesToPush := SyncEngine.pull config path_join getTime JSON_stringify in
  if (0 <? length filesToPush)%nat then
    SyncEngine.console_log
      ("[pull] Pushing " +:+ pretty (length filesToPush) +:+ " locally-newer files...") ;;;
    SyncEngine.push config path_join path_relative getTime JSON_stringify filesToPush
  else ret tt.

(** [entries] is the tree under [config.localPath]. *)
Definition pushAll (entries : list Dirent) : M R unit :=
  let excludedFiles := Config.getExcludedFiles in
  let allFiles := getAllFiles (Config.localPath config) entries excludedFiles in
  if (0 <? length allFiles)%nat then
    SyncEngine.console_log
      ("[init] Pushing " +:+ pretty (length allFiles) +:+ " local files...") ;;;
    SyncEngine.push config path_join path_relative getTime JSON_stringify allFiles
  else ret tt.

(** The callback of [setInterval]. *)
Definition pollTick : M R unit :=
  try_catch pull (fun err => SyncEngine.console_error "[poll] Pull failed:" err).

(** [onChange] at time [now]: the timer is set anew. *)
Definition onChange (now : Z) (st : State) (absolutePath : string) : M R State :=
  let relativePath := path_relative (Config.localPath config) absolutePath in
  SyncEngine.console_log ("[watch] Change detected: " +:+ relativePath) ;;;
  ret {| pendingChanges := Js.set_add (pendingChanges st) absolutePath;
         debounceTimer := Some (now + debounceMs) |}.

Definition flush (st : State) : M R State :=
  if (length (pendingChanges st) =? 0)%nat then ret st
  else
    let changes := pendingChanges st in
    let st := {| pendingChanges := []; debounceTimer := debounceTimer st |} in
    try_catch
      (SyncEngine.push config path_join path_relative getTime JSON_stringify changes)
      (fun err => SyncEngine.console_error "[watch] Push failed:" err) ;;;
    ret st.

End Watcher.

End Watcher.

(** ** More scenarios *)

Module Cases.

Import Scripted.

Definition ensureFolderExists := SyncEngine.ensureFolderExists (R := list Reply) config.
Definition saveState := SyncEngine.saveState (R := list Reply) config join stringify.







(** Nothing is on the disk and nothing is tracked; the remote lists
    [a.txt] and then refuses the download. *)
Definition refused : World (list Reply) :=
  world emptyState {| Fs.entries := ∅; Fs.now := 100 |}
        [Listing [("a.txt", Scenario.a_remote)]; Fails "500"].



(** A batch with nothing to push on [a_untracked]: an excluded name and a
    path that is neither on the disk nor tracked. *)
Definition idle_batch : list string := ["/sync/.DS_Store"; "/sync/ghost.txt"].


Definition pushAll := Watcher.pushAll config join relative getTime stringify.

(** A command line, with its environment. *)
Definition parseArgs := Cli.parseArgs join (Some "/home/u") "/work".

End Cases.

(** ** Reading a tree

    [leads_to names e]: the entry names [names] lead from the directory
    entry [e] down to a file.  [leaf_at names n]: the object names [names]
    lead from the remote object [n] down to one that is not a folder. *)

Fixpoint leads_to (names : list string) (e : Watcher.Dirent) : Prop :=
  match names with
  | [] => False
  | n :: rest =>
      match e with
      | Watcher.FileEntry name => n = name ∧ rest = []
      | Watcher.DirEntry name entries =>
          n = name ∧ ∃ e', e' ∈ entries ∧ leads_to rest e'
      end
  end.

Fixpoint leaf_at (names : list string) (n : Listing.DriveNode) : Prop :=
  match names with
  | [] => False
  | x :: rest =>
      match n with
      | Listing.Node file children =>
          x = GDrive.name file ∧
          if String.eqb (GDrive.mimeType file) GDrive.FOLDER_MIME
          then ∃ c, c ∈ children ∧ leaf_at rest c
          else rest = []
      end
  end.

(** A name with no separator in it, and not empty. *)
Definition is_name (s : string) : Prop :=
  s ≠ "" ∧ Forall (λ c, Path.is_sep c = false) (list_ascii_of_string s).

(** ** Reading the command line

    An argument is positional when it does not start with a dash; the
    folder the loop ends with is the last positional argument, if any. *)

Definition positional (a : string) : bool := negb (Js.startsWith a "-").

Definition last_positional (args : list string) (folderPath : option string)
    : option string :=
  match last (List.filter positional args) with
  | Some a => Some a
  | None => folderPath
  end.

(** An entry of a listing that is not a folder. *)
Definition no_folder (kv : string * GDrive.GDriveFile) : Prop :=
  String.eqb (GDrive.mimeType kv.2) GDrive.FOLDER_MIME = false.

(** ** What an operation may do

    The events [push] may add to the trace: no listing, no download, no
    directory made, and no file written but the state file.  Those of
    [pull]: of the remote calls, downloads only. *)

Definition is_push_event (statePath : string) (e : Event) : Prop :=
  match e with
  | Listed _ _ => False
  | Remote _ (DownloadFile _) _ => False
  | MadeDir _ => False
  | WroteFile p _ => p = statePath
  | _ => True
  end.

Definition is_pull_event (e : Event) : Prop :=
  match e with
  | Remote _ (DownloadFile _) _ => True
  | Remote _ _ _ => False
  | _ => True
  end.

(** On the disk: nothing changes but at [p]; no entry goes away and a
    regular file stays one. *)
Definition only_at (p : string) (d d' : Fs.t) : Prop :=
  ∀ q, q ≠ p → Fs.entries d' !! q = Fs.entries d !! q.

Definition is_file (d : Fs.t) (p : string) : Prop :=
  ∃ m c, Fs.entries d !! p = Some (Fs.File m c).

Definition keeps_entries (d d' : Fs.t) : Prop :=
  ∀ p, (is_Some (Fs.entries d !! p) → is_Some (Fs.entries d' !! p)) ∧
       (is_file d p → is_file d' p).

(** On the state: no key of [folders] goes away; an id the resolver would
    use from [folders] stays what it is. *)
Definition folders_grow (s s' : SyncState) : Prop :=
  ∀ p, is_Some (folders s !! p) → is_Some (folders s' !! p).

Definition cache_kept (s s' : SyncState) : Prop :=
  ∀ p i, SyncEngine.cached s p = Some i → SyncEngine.cached s' p = Some i.

Definition any_state (s s' : SyncState) : Prop := True.

(** [effect P D S]: the events added satisfy [P], the disk moves along [D]
    and the state along [S]. *)
Definition effect {R} (P : Event → Prop) (D : Fs.t → Fs.t → Prop)
    (S : SyncState → SyncState → Prop) (w w' : World R) : Prop :=
  (∃ evs, trace w' = (trace w ++ evs)%list ∧ Forall P evs) ∧
  D (disk w) (disk w') ∧ S (state w) (state w').

(** A path [push] has nothing to do for: its name is excluded, it is a
    directory, or it is neither on the disk nor tracked. *)
Definition nothing_to_push {R} (relative : string → string) (w : World R)
    (absolutePath : string) : Prop :=
  SyncEngine.isExcluded (relative absolutePath) = true ∨
  (∃ m, Fs.entries (disk w) !! absolutePath = Some (Fs.Dir m)) ∨
  (Fs.entries (disk w) !! absolutePath = None ∧
   files (state w) !! relative absolutePath = None ∧
   relative absolutePath ∉ Js.inherited).

(** A thrown remote call, and the error it threw. *)
Definition is_thrown (x : Event) : bool :=
  match x with
  | Listed _ (Threw _) | Remote _ _ (Threw _) => true
  | _ => false
  end.

Definition thrown_by (x : Event) (e : Error) : Prop :=
  (∃ folderId, x = Listed folderId (Threw e)) ∨
  (∃ subject c, x = Remote subject c (Threw e)).

(** [stops_at_throw m]: a remote call that throws in [m] is the last thing
    [m] does, and is what [m] throws. *)
Definition stops_at_throw {R A} (m : M R A) : Prop :=
  ∀ w r w', m w = (r, w') →
    ∃ evs, trace w' = (trace w ++ evs)%list ∧
      (Forall (λ x, is_thrown x = false) evs ∨
       ∃ e evs0 x, r = Throw e ∧ evs = (evs0 ++ [x])%list ∧
                   Forall (λ x, is_thrown x = false) evs0 ∧ thrown_by x e).


(** * Properties *)

(** ** Node paths, on examples *)

Example basename_nested : Path.basename "a/b/.DS_Store" = ".DS_Store".
Proof. reflexivity. Qed.

Example basename_trailing : Path.basename "a/b//" = "b".
Proof. reflexivity. Qed.

Example dirname_flat : Path.dirname "notes.txt" = ".".
Proof. reflexivity. Qed.

Example dirname_nested : Path.dirname "a/b/c.txt" = "a/b".
Proof. reflexivity. Qed.

Example dirname_one : Path.dirname "a/c.txt" = "a".
Proof. reflexivity. Qed.

Example split_nested : Path.split "a/b" = ["a"; "b"].
Proof. reflexivity. Qed.

Example split_empty : Path.split "" = [""].
Proof. reflexivity. Qed.

(** ** Reasoning about computations

    For a preorder [T], [respects T] goes through sequencing, loops and
    handlers. *)

Section Respects.

Context {R : Type}.
Variable T : World R → World R → Prop.
Context `{!PreOrder T}.

Lemma respects_ret {A} (a : A) : respects T (ret a).
Proof. intros w r w' [= <- <-]. reflexivity. Qed.

Lemma respects_lift {A} (x : Result A) : respects T (lift x).
Proof. intros w r w' [= <- <-]. reflexivity. Qed.

Lemma respects_get_state : respects T get_state.
Proof. intros w r w' [= <- <-]. reflexivity. Qed.

Lemma respects_get_disk : respects T get_disk.
Proof. intros w r w' [= <- <-]. reflexivity. Qed.

Lemma respects_bind {A B} (m : M R A) (k : A → M R B) :
  respects T m → (∀ a, respects T (k a)) → respects T (bind m k).
Proof.
  intros Hm Hk w r w'. unfold bind.
  destruct (m w) as [[a|e] w1] eqn:E; intros Hr.
  - transitivity w1; [eapply Hm, E | eapply Hk, Hr].
  - injection Hr as <- <-. eapply Hm, E.
Qed.

Lemma respects_try_catch {A} (body : M R A) (handler : Error → M R A) :
  respects T body → (∀ e, respects T (handler e)) → respects T (try_catch body handler).
Proof.
  intros Hb Hh w r w'. unfold try_catch.
  destruct (body w) as [[a|e] w1] eqn:E; intros Hr.
  - injection Hr as <- <-. eapply Hb, E.
  - transitivity w1; [eapply Hb, E | eapply Hh, Hr].
Qed.

Lemma respects_for_each {A} (l : list A) (body : A → M R unit) :
  (∀ x, x ∈ l → respects T (body x)) → respects T (for_each l body).
Proof.
  induction l as [|x l IH]; intros Hbody; simpl.
  - apply respects_ret.
  - apply respects_bind.
    + apply Hbody. left.
    + intros _. apply IH. intros y Hy. apply Hbody. right. exact Hy.
Qed.

Lemma respects_fold_m {A B} (body : B → A → M R B) (l : list A) (b : B) :
  (∀ b x, x ∈ l → respects T (body b x)) → respects T (fold_m body l b).
Proof.
  revert b. induction l as [|x l IH]; intros b Hbody; simpl.
  - apply respects_ret.
  - apply respects_bind.
    + apply Hbody. left.
    + intros b'. apply IH. intros b'' y Hy. apply Hbody. right. exact Hy.
Qed.

End Respects.

(** [tidy] goes through sequencing and loops too. *)

Section Tidy.

Context {R : Type}.

Lemma tidy_silent {A} (m : M R A) :
  (∀ w r w', m w = (r, w') → disk w' = disk w ∧ trace w' = trace w) → tidy m.
Proof.
  intros Hm w r w' Hrun. destruct (Hm _ _ _ Hrun) as [Hd Ht].
  split; [exact Hd|]. exists []. rewrite app_nil_r. split; [exact Ht|].
  left. constructor.
Qed.

Lemma tidy_ret {A} (a : A) : tidy (ret a : M R A).
Proof. apply tidy_silent. intros w r w' [= <- <-]. auto. Qed.

Lemma tidy_lift {A} (x : Result A) : tidy (lift x : M R A).
Proof. apply tidy_silent. intros w r w' [= <- <-]. auto. Qed.

Lemma tidy_get_state : tidy (get_state : M R SyncState).
Proof. apply tidy_silent. intros w r w' [= <- <-]. auto. Qed.

Lemma tidy_get_disk : tidy (get_disk : M R Fs.t).
Proof. apply tidy_silent. intros w r w' [= <- <-]. auto. Qed.

Lemma tidy_put_state s : tidy (put_state s : M R unit).
Proof. apply tidy_silent. intros w r w' [= <- <-]. auto. Qed.

Lemma tidy_emit e : quiet e = true → tidy (emit e : M R unit).
Proof.
  intros Hq w r w' [= <- <-]. simpl. split; [reflexivity|].
  exists [e]. split; [reflexivity|]. left. repeat constructor. exact Hq.
Qed.

Lemma tidy_call {A} subject c (op : R → Result A * R) file :
  tidy (call (Remote subject c) op file).
Proof.
  intros w r w'. unfold call. destruct (op (remote w)) as [[a|e] r'];
    intros [= <- <-]; simpl; (split; [reflexivity|]); eexists; (split; [reflexivity|]).
  - left. repeat constructor.
  - right. exists e, [], subject, c. repeat split. constructor.
Qed.

Lemma tidy_bind {A B} (m : M R A) (k : A → M R B) :
  tidy m → (∀ a, tidy (k a)) → tidy (bind m k).
Proof.
  intros Hm Hk w r w'. unfold bind.
  destruct (m w) as [[a|e] w1] eqn:E; intros Hr.
  - destruct (Hm _ _ _ E) as (Hd1 & evs1 & Ht1 & [Hq1|Hf1]).
    + destruct (Hk _ _ _ _ Hr) as (Hd2 & evs2 & Ht2 & Hcase).
      split; [congruence|].
      exists (evs1 ++ evs2)%list. rewrite Ht2, Ht1, app_assoc.
      split; [reflexivity|].
      destruct Hcase as [Hq2|(e & evs0 & subject & c & -> & -> & Hq0)].
      * left. apply Forall_app. auto.
      * right. exists e, (evs1 ++ evs0)%list, subject, c.
        rewrite app_assoc. repeat split. apply Forall_app. auto.
    + destruct Hf1 as (e & ? & ? & ? & [=] & _).
  - injection Hr as <- <-.
    destruct (Hm _ _ _ E) as (Hd1 & evs1 & Ht1 & Hcase).
    split; [exact Hd1|]. exists evs1. split; [exact Ht1|].
    destruct Hcase as [Hq|(e' & evs0 & subject & c & [= <-] & -> & Hq0)].
    + left. exact Hq.
    + right. exists e, evs0, subject, c. auto.
Qed.

Lemma tidy_for_each {A} (l : list A) (body : A → M R unit) :
  (∀ x, tidy (body x)) → tidy (for_each l body).
Proof.
  intros Hbody. induction l as [|x l IH]; simpl.
  - apply tidy_ret.
  - apply tidy_bind; auto.
Qed.

End Tidy.

(** ** The engine *)

Create HintDb monad_ops.

#[local] Hint Unfold ret bind throw try_catch get_state put_state get_disk put_disk
  emit lift call : monad_ops.

Ltac run := autounfold with monad_ops; simpl.

Section Properties.

Context {R : Type} `{GDrive.Client R}.
Variable config : Config.Config.
Variable path_join : string -> string -> string.
Variable path_relative : string -> string -> string.
Variable getTime : string -> Z.
Variable JSON_stringify : SyncState -> string.

Abbreviation statePath := (SyncEngine.statePath config path_join).
Abbreviation isExcluded := SyncEngine.isExcluded.
Abbreviation getRelativePath := (SyncEngine.getRelativePath config path_relative).
Abbreviation shouldDownloadFile := SyncEngine.shouldDownloadFile.
Abbreviation handleLocalDelete := SyncEngine.handleLocalDelete.
Abbreviation ensureFolderExists := (SyncEngine.ensureFolderExists config).
Abbreviation push_entry := (SyncEngine.push_entry config path_relative getTime).
Abbreviation push :=
  (SyncEngine.push config path_join path_relative getTime JSON_stringify).
Abbreviation pull_entry := (SyncEngine.pull_entry config path_join getTime).
Abbreviation pull_missing := (SyncEngine.pull_missing config path_join).
Abbreviation pull :=
  (SyncEngine.pull config path_join getTime JSON_stringify).
Abbreviation loadState := (SyncEngine.loadState config path_join).
Abbreviation saveState := (SyncEngine.saveState config path_join JSON_stringify).

(** A sequence that returns: its first part returned. *)
Lemma bind_Ok_inv {A B} (m : M R A) (k : A → M R B) w b w' :
  bind m k w = (Ok b, w') → ∃ a w1, m w = (Ok a, w1) ∧ k a w1 = (Ok b, w').
Proof using Type.
  unfold bind. destruct (m w) as [[a|e] w1]; [eauto|discriminate].
Qed.

(** ** The conflict decision *)

(** The decision returns; it reads the state and the disk and writes at
    most a line on the console. *)
Lemma shouldDownloadFile_grows rel lp rm (w : World R) :
  ∃ a w' evs, shouldDownloadFile rel lp rm w = (Ok a, w')
          ∧ state w' = state w ∧ disk w' = disk w ∧ remote w' = remote w
          ∧ trace w' = (trace w ++ evs)%list
          ∧ ∀ e, e ∈ evs → ∃ line, e = ConsoleLog line.
Proof using Type.
  unfold SyncEngine.shouldDownloadFile, SyncEngine.existsSync,
    SyncEngine.statSync, SyncEngine.console_log, Fs.existsSync, Fs.statSync.
  run.
  destruct (files (state w) !! rel) as [existing|];
    [destruct (rm <=? gdriveMtime existing)|];
    destruct (Fs.entries (disk w) !! lp) as [stats|] eqn:E; simpl;
    rewrite ?E; simpl;
    repeat match goal with |- context [if ?b then _ else _] => destruct b end;
    simpl;
    first
      [ eexists _, _, [_]; (split; [reflexivity|]); simpl;
        repeat split; auto;
        intros e He; apply list_elem_of_singleton in He; eauto
      | eexists _, _, []; (split; [reflexivity|]); simpl;
        rewrite ?app_nil_r; repeat split; auto;
        intros e He; inversion He ].
Qed.

(** C1. For a tracked file the decision is [Skip] exactly when the remote
    time is at most the recorded remote time.  Otherwise it is [Download]
    when the local copy is missing or its time is at most the recorded
    local time; and when both sides moved it is [Download] exactly when
    the remote time is strictly greater than the local one, [LocalNewer]
    otherwise, equal times included. *)
Theorem shouldDownloadFile_tracked rel lp rm (w : World R) existing :
  files (state w) !! rel = Some existing →
  ∃ a w', shouldDownloadFile rel lp rm w = (Ok a, w') ∧
    (a = Skip ↔ rm ≤ gdriveMtime existing) ∧
    (gdriveMtime existing < rm →
      (Fs.existsSync (disk w) lp = false → a = Download) ∧
      (∀ stats, Fs.statSync (disk w) lp = Ok stats →
         (Fs.mtimeMs stats ≤ localMtime existing → a = Download) ∧
         (localMtime existing < Fs.mtimeMs stats →
            (a = Download ↔ Fs.mtimeMs stats < rm) ∧
            (a = LocalNewer ↔ rm ≤ Fs.mtimeMs stats) ∧
            (rm = Fs.mtimeMs stats → a = LocalNewer)))).
Proof using Type.
  clear path_relative path_join getTime.
  intros Hfile.
  unfold SyncEngine.shouldDownloadFile, SyncEngine.existsSync,
    SyncEngine.statSync, SyncEngine.console_log, Fs.existsSync, Fs.statSync.
  run. rewrite Hfile.
  destruct (Z.leb_spec rm (gdriveMtime existing)) as [Hle|Hgt].
  { eexists _, _. split; [reflexivity|]. split; [tauto|]. lia. }
  destruct (Fs.entries (disk w) !! lp) as [stats|] eqn:E; simpl; rewrite ?E; simpl.
  - rewrite Z.gtb_ltb.
    destruct (Z.leb_spec (Fs.mtimeMs stats) (localMtime existing)) as [Hl|Hl];
      [|destruct (Z.ltb_spec (Fs.mtimeMs stats) rm) as [Hr|Hr]];
      simpl; eexists _, _; (split; [reflexivity|]);
      (split; [split; [discriminate|lia]|]);
      intros _; (split; [discriminate|]);
      intros stats' [= <-]; repeat split; intros; subst;
      try reflexivity; try discriminate; try lia.
  - eexists _, _. split; [reflexivity|]. split; [split; [discriminate|lia]|].
    intros _. split; [reflexivity|]. intros stats' [=].
Qed.

(** C2. For an untracked file the decision is [Download] when there is no
    local copy; when there is one it is [Download] exactly when the remote
    time is strictly greater than the local time and [LocalNewer]
    otherwise, equal times included. *)
Theorem shouldDownloadFile_untracked rel lp rm (w : World R) :
  files (state w) !! rel = None →
  ∃ a w', shouldDownloadFile rel lp rm w = (Ok a, w') ∧
    (Fs.existsSync (disk w) lp = false → a = Download) ∧
    (∀ stats, Fs.statSync (disk w) lp = Ok stats →
       (a = Download ↔ Fs.mtimeMs stats < rm) ∧
       (a = LocalNewer ↔ rm ≤ Fs.mtimeMs stats) ∧
       (rm = Fs.mtimeMs stats → a = LocalNewer)).
Proof using Type.
  intros Hfile.
  unfold SyncEngine.shouldDownloadFile, SyncEngine.existsSync,
    SyncEngine.statSync, SyncEngine.console_log, Fs.existsSync, Fs.statSync.
  run. rewrite Hfile.
  destruct (Fs.entries (disk w) !! lp) as [stats|] eqn:E; simpl; rewrite ?E; simpl.
  - rewrite Z.gtb_ltb.
    destruct (Z.ltb_spec (Fs.mtimeMs stats) rm) as [Hr|Hr];
      simpl; eexists _, _; (split; [reflexivity|]);
      (split; [discriminate|]);
      intros stats' [= <-]; repeat split; intros; subst;
      try reflexivity; try discriminate; try lia.
  - eexists _, _. split; [reflexivity|]. split; [reflexivity|].
    intros stats' [=].
Qed.

(** ** Loading the state *)

(** C6, as the code has it.  [loadState] is a total function: a state
    file that cannot be read, or whose text is not JSON, gives the empty
    document; a text that is JSON is returned as parsed, whatever its
    shape. *)
Theorem loadState_never_fails (d : Fs.t) :
  (∀ e, Fs.readFileSync d statePath = Throw e →
        loadState d = SyncEngine.emptyDocument) ∧
  (∀ content, Fs.readFileSync d statePath = Ok content →
        Json.parse content = None →
        loadState d = SyncEngine.emptyDocument) ∧
  (∀ content document,
        Fs.readFileSync d statePath = Ok content →
        Json.parse content = Some document →
        loadState d = document).
Proof using Type.
  unfold SyncEngine.loadState. repeat split.
  - intros e ->. reflexivity.
  - intros content -> ->. reflexivity.
  - intros content document -> ->. reflexivity.
Qed.

(** ** Local deletions *)

(** What [handleLocalDelete] does to a tracked path, in terms of the
    answer of the remote. *)
Lemma handleLocalDelete_tracked rel (w : World R) existing :
  files (state w) !! rel = Some existing →
  ∃ w', handleLocalDelete rel w = (Ok tt, w') ∧
    files (state w') = delete rel (files (state w)) ∧
    folders (state w') = folders (state w) ∧
    disk w' = disk w ∧
    remote w' = (GDrive.deleteFile (gdriveId existing) (remote w)).2 ∧
    trace w' =
      (trace w ++
       match (GDrive.deleteFile (gdriveId existing) (remote w)).1 with
       | Ok _ =>
           [Remote rel (DeleteFile (gdriveId existing)) (Returned None);
            ConsoleLog ("[push] Deleted: " +:+ rel)]
       | Throw e =>
           [Remote rel (DeleteFile (gdriveId existing)) (Threw e);
            ConsoleError ("[push] Failed to delete " +:+ rel +:+ ":") e]
       end)%list.
Proof using Type.
  intros Hfile.
  unfold SyncEngine.handleLocalDelete, SyncEngine.gdrive_deleteFile,
    SyncEngine.console_log, SyncEngine.console_error, SyncEngine.delete_file.
  run. rewrite Hfile. simpl.
  destruct (GDrive.deleteFile (gdriveId existing) (remote w)) as [[[]|e] r'];
    simpl; eexists; (split; [reflexivity|]); simpl;
    rewrite <- app_assoc; auto.
Qed.

(** The entry of [push] for a tracked path whose file is gone. *)
Lemma push_entry_gone abs (w : World R) existing :
  isExcluded (getRelativePath abs) = false →
  Fs.existsSync (disk w) abs = false →
  files (state w) !! getRelativePath abs = Some existing →
  ∃ w', push_entry abs w = (Ok tt, w') ∧
    files (state w') = delete (getRelativePath abs) (files (state w)) ∧
    files (state w') !! getRelativePath abs = None ∧
    folders (state w') = folders (state w) ∧
    disk w' = disk w ∧
    remote w' = (GDrive.deleteFile (gdriveId existing) (remote w)).2 ∧
    trace w' =
      (trace w ++
       match (GDrive.deleteFile (gdriveId existing) (remote w)).1 with
       | Ok _ =>
           [Remote (getRelativePath abs) (DeleteFile (gdriveId existing))
                   (Returned None);
            ConsoleLog ("[push] Deleted: " +:+ getRelativePath abs)]
       | Throw e =>
           [Remote (getRelativePath abs) (DeleteFile (gdriveId existing))
                   (Threw e);
            ConsoleError
              ("[push] Failed to delete " +:+ getRelativePath abs +:+ ":") e]
       end)%list.
Proof using Type.
  intros Hex Hgone Hfile.
  destruct (handleLocalDelete_tracked _ _ _ Hfile)
    as (w' & Hrun & Hfiles & Hfolders & Hdisk & Hremote & Htrace).
  exists w'. split.
  - unfold SyncEngine.push_entry. rewrite Hex.
    unfold SyncEngine.existsSync at 1. unfold bind at 1. unfold bind at 1.
    unfold get_disk at 1. unfold ret at 1.
    rewrite Hgone. simpl. exact Hrun.
  - repeat split; auto. rewrite Hfiles. apply lookup_delete_eq.
Qed.

(** ** A throw in the middle of a batch *)

Ltac tidy_step :=
  first
    [ apply tidy_ret | apply tidy_lift | apply tidy_get_state
    | apply tidy_get_disk | apply tidy_put_state | apply tidy_call
    | apply tidy_emit; reflexivity
    | apply tidy_bind; [|intros ?] ].

Lemma tidy_ensureFolder_step currentPath part parentId :
  tidy (SyncEngine.ensureFolder_step (R := R) currentPath part parentId).
Proof using Type.
  unfold SyncEngine.ensureFolder_step, SyncEngine.gdrive_findFolder,
    SyncEngine.gdrive_createFolder, SyncEngine.set_folder.
  tidy_step; [tidy_step|].
  destruct (SyncEngine.cached _ _); [tidy_step|].
  tidy_step; [tidy_step|].
  match goal with |- context [match ?x with _ => _ end] => destruct x end;
    repeat tidy_step.
Qed.

Lemma tidy_ensureFolder_loop parts currentPath parentId :
  tidy (SyncEngine.ensureFolder_loop (R := R) parts currentPath parentId).
Proof using Type.
  revert currentPath parentId.
  induction parts as [|part parts IH]; intros currentPath parentId; simpl.
  - apply tidy_ret.
  - apply tidy_bind; [apply tidy_ensureFolder_step|]. intros a. apply IH.
Qed.

Lemma tidy_handleLocalDelete rel : tidy (handleLocalDelete rel : M R unit).
Proof using Type.
  intros w r w' Hrun.
  destruct (files (state w) !! rel) as [existing|] eqn:Hfile.
  - destruct (handleLocalDelete_tracked _ _ _ Hfile)
      as (w1 & Hrun1 & _ & _ & Hdisk & _ & Htrace).
    rewrite Hrun1 in Hrun. injection Hrun as <- <-.
    split; [exact Hdisk|]. eexists. split; [exact Htrace|]. left.
    destruct (GDrive.deleteFile _ _).1; repeat constructor.
  - revert Hrun. unfold SyncEngine.handleLocalDelete. run. rewrite Hfile.
    intros [= <- <-]. split; [reflexivity|]. exists [].
    rewrite app_nil_r. split; [reflexivity|]. left. constructor.
Qed.

Lemma tidy_push_entry abs : tidy (push_entry abs : M R unit).
Proof using Type.
  unfold SyncEngine.push_entry, SyncEngine.existsSync, SyncEngine.statSync,
    SyncEngine.readFileSync, SyncEngine.gdrive_updateFile,
    SyncEngine.gdrive_uploadFile, SyncEngine.set_file, SyncEngine.console_log,
    SyncEngine.ensureFolderExists.
  destruct (isExcluded _); [apply tidy_ret|].
  tidy_step; [repeat tidy_step|].
  destruct (negb _); [apply tidy_handleLocalDelete|].
  tidy_step; [repeat tidy_step|].
  destruct (Fs.isDirectory _); [apply tidy_ret|].
  tidy_step; [repeat tidy_step|].
  tidy_step; [repeat tidy_step|].
  match goal with |- context [match ?x with _ => _ end] => destruct x end.
  - repeat tidy_step.
  - tidy_step.
    + destruct (String.eqb _ _); [apply tidy_ret|apply tidy_ensureFolder_loop].
    + repeat tidy_step.
Qed.


#[local] Instance stays_untracked_preorder rel : PreOrder (stays_untracked (R := R) rel).
Proof using Type. split; [intros w Hw; exact Hw | intros a b c Hab Hbc Ha; auto]. Qed.

(** A computation that only ever removes records, or adds records for
    other paths, keeps [rel] untracked. *)
Lemma untracked_put_state rel s (w : World R) r w' :
  put_state s w = (r, w') →
  (files (state w) !! rel = None → files s !! rel = None) →
  stays_untracked rel w w'.
Proof using Type. intros [= <- <-] Hs. exact Hs. Qed.

Lemma untracked_set_file rel k f :
  k ≠ rel → respects (stays_untracked rel) (SyncEngine.set_file k f : M R unit).
Proof using Type.
  intros Hne w r w' Hrun. eapply untracked_put_state; [exact Hrun|].
  simpl. rewrite lookup_insert_ne by exact Hne. auto.
Qed.

Lemma untracked_delete_file rel k :
  respects (stays_untracked rel) (SyncEngine.delete_file k : M R unit).
Proof using Type.
  intros w r w' Hrun. eapply untracked_put_state; [exact Hrun|].
  simpl. intros Hn. destruct (decide (k = rel)) as [->|Hne];
    [apply lookup_delete_eq|rewrite lookup_delete_ne; auto].
Qed.

Lemma untracked_set_folder rel k i :
  respects (stays_untracked rel) (SyncEngine.set_folder k i : M R unit).
Proof using Type.
  intros w r w' Hrun. eapply untracked_put_state; [exact Hrun|]. auto.
Qed.

Lemma untracked_emit rel e : respects (stays_untracked rel) (emit e : M R unit).
Proof using Type. intros w r w' [= <- <-] Hw. exact Hw. Qed.

Lemma untracked_call {A} rel record (op : R → Result A * R) file :
  respects (stays_untracked rel) (call record op file).
Proof using Type.
  intros w r w'. unfold call. destruct (op (remote w)) as [x r'].
  intros [= <- <-] Hw. exact Hw.
Qed.

Ltac untracked_step rel :=
  first
    [ apply (respects_ret (stays_untracked rel))
    | apply (respects_lift (stays_untracked rel))
    | apply (respects_get_state (stays_untracked rel))
    | apply (respects_get_disk (stays_untracked rel))
    | apply untracked_set_folder | apply untracked_delete_file
    | apply untracked_emit | apply untracked_call
    | apply (respects_bind (stays_untracked rel)); [|intros ?] ].

Lemma untracked_handleLocalDelete rel k :
  respects (stays_untracked rel) (handleLocalDelete k : M R unit).
Proof using Type.
  unfold SyncEngine.handleLocalDelete, SyncEngine.gdrive_deleteFile,
    SyncEngine.console_log, SyncEngine.console_error.
  untracked_step rel; [untracked_step rel|].
  destruct (files _ !! _); [|untracked_step rel].
  untracked_step rel; [|untracked_step rel].
  apply (respects_try_catch (stays_untracked rel));
    [|intros ?]; repeat untracked_step rel.
Qed.

Lemma untracked_ensureFolder_loop rel parts currentPath parentId :
  respects (stays_untracked rel)
    (SyncEngine.ensureFolder_loop parts currentPath parentId : M R string).
Proof using Type.
  revert currentPath parentId.
  induction parts as [|part parts IH]; intros currentPath parentId; simpl.
  - untracked_step rel.
  - untracked_step rel; [|apply IH].
    unfold SyncEngine.ensureFolder_step, SyncEngine.gdrive_findFolder,
      SyncEngine.gdrive_createFolder.
    untracked_step rel; [untracked_step rel|].
    destruct (SyncEngine.cached _ _); [untracked_step rel|].
    untracked_step rel; [untracked_step rel|].
    match goal with |- context [match ?x with _ => _ end] => destruct x end;
      repeat untracked_step rel.
Qed.

Lemma untracked_push_entry_other rel abs :
  getRelativePath abs ≠ rel →
  respects (stays_untracked rel) (push_entry abs : M R unit).
Proof using Type.
  intros Hne. unfold SyncEngine.push_entry.
  destruct (isExcluded (getRelativePath abs)); [untracked_step rel|].
  unfold SyncEngine.existsSync, SyncEngine.statSync, SyncEngine.readFileSync,
    SyncEngine.gdrive_updateFile, SyncEngine.gdrive_uploadFile,
    SyncEngine.console_log, SyncEngine.ensureFolderExists.
  untracked_step rel; [repeat untracked_step rel|].
  destruct (negb _); [apply untracked_handleLocalDelete|].
  untracked_step rel; [repeat untracked_step rel|].
  destruct (Fs.isDirectory _); [untracked_step rel|].
  untracked_step rel; [repeat untracked_step rel|].
  untracked_step rel; [untracked_step rel|].
  destruct (files _ !! _).
  - untracked_step rel; [untracked_step rel|].
    untracked_step rel; [apply untracked_set_file; exact Hne|].
    untracked_step rel.
  - untracked_step rel.
    + destruct (String.eqb _ _);
        [untracked_step rel|apply untracked_ensureFolder_loop].
    + untracked_step rel; [untracked_step rel|].
      untracked_step rel; [apply untracked_set_file; exact Hne|].
      untracked_step rel.
Qed.

(** An entry for another path, or for a file that is not there, does not
    start tracking [rel]. *)
Lemma untracked_push_entry rel abs (w : World R) r w' :
  push_entry abs w = (r, w') →
  getRelativePath abs ≠ rel ∨ Fs.existsSync (disk w) abs = false →
  stays_untracked rel w w'.
Proof using Type.
  intros Hrun [Hne|Hgone].
  - eapply untracked_push_entry_other; eauto.
  - revert Hrun. unfold SyncEngine.push_entry.
    destruct (isExcluded (getRelativePath abs));
      [intros [= <- <-] Hw; exact Hw|].
    unfold SyncEngine.existsSync at 1. unfold bind at 1. unfold bind at 1.
    unfold get_disk at 1. unfold ret at 1. rewrite Hgone. simpl.
    apply untracked_handleLocalDelete.
Qed.

(** The loop of [push], for a path none of whose entries is on the
    disk: once untracked it stays so, and an entry for it untracks it. *)
Lemma push_loop_untracks rel l : ∀ (w : World R) w',
  isExcluded rel = false →
  for_each l push_entry w = (Ok tt, w') →
  (∀ abs, abs ∈ l → getRelativePath abs = rel →
          Fs.existsSync (disk w) abs = false) →
  files (state w) !! rel = None ∨ (∃ abs, abs ∈ l ∧ getRelativePath abs = rel) →
  files (state w') !! rel = None.
Proof using Type.
  induction l as [|x l IH]; intros w w' Hex Hrun Hgone Hcase; simpl in Hrun.
  - injection Hrun as <-. destruct Hcase as [Hn|(abs & Hin & _)]; [exact Hn|].
    inversion Hin.
  - apply bind_Ok_inv in Hrun as ([] & w1 & Hx & Hrun).
    destruct (tidy_push_entry _ _ _ _ Hx) as [Hdisk _].
    apply (IH w1 w' Hex Hrun).
    { intros abs Hin Hrel. rewrite Hdisk. apply Hgone; [right; exact Hin|exact Hrel]. }
    destruct (decide (getRelativePath x = rel)) as [Hrel|Hne].
    + left. assert (Hxgone := Hgone x ltac:(left) Hrel).
      destruct (files (state w) !! rel) as [existing|] eqn:Hfile.
      * rewrite <- Hrel in Hfile, Hex.
        destruct (push_entry_gone _ _ _ Hex Hxgone Hfile)
          as (w1' & Hrun1 & _ & Hnone & _).
        rewrite Hrun1 in Hx. injection Hx as <-. rewrite <- Hrel. exact Hnone.
      * eapply untracked_push_entry; eauto.
    + destruct Hcase as [Hn|(abs & Hin & Hrel)].
      * left. eapply untracked_push_entry; eauto.
      * apply elem_of_cons in Hin as [->|Hin]; [contradiction|].
        right. exists abs. auto.
Qed.

(** C10. A tracked path whose local file is gone when [push] reaches it
    leaves [files], whether the remote delete returns or throws; a throw
    is caught and written to the console, and the entry returns
    normally.  So a batch that runs to its end leaves the path
    untracked. *)
Theorem push_entry_local_delete abs (w : World R) existing :
  isExcluded (getRelativePath abs) = false →
  Fs.existsSync (disk w) abs = false →
  files (state w) !! getRelativePath abs = Some existing →
  (∃ w', push_entry abs w = (Ok tt, w') ∧
     files (state w') = delete (getRelativePath abs) (files (state w)) ∧
     files (state w') !! getRelativePath abs = None ∧
     folders (state w') = folders (state w) ∧
     disk w' = disk w ∧
     remote w' = (GDrive.deleteFile (gdriveId existing) (remote w)).2 ∧
     trace w' =
       (trace w ++
        match (GDrive.deleteFile (gdriveId existing) (remote w)).1 with
        | Ok _ =>
            [Remote (getRelativePath abs) (DeleteFile (gdriveId existing))
                    (Returned None);
             ConsoleLog ("[push] Deleted: " +:+ getRelativePath abs)]
        | Throw e =>
            [Remote (getRelativePath abs) (DeleteFile (gdriveId existing))
                    (Threw e);
             ConsoleError
               ("[push] Failed to delete " +:+ getRelativePath abs +:+ ":") e]
        end)%list) ∧
  (∀ l w',
     abs ∈ l →
     (∀ abs', abs' ∈ l → getRelativePath abs' = getRelativePath abs →
              Fs.existsSync (disk w) abs' = false) →
     push l w = (Ok tt, w') →
     files (state w') !! getRelativePath abs = None).
Proof using Type.
  intros Hex Hgone Hfile. split.
  - exact (push_entry_gone _ _ _ Hex Hgone Hfile).
  - intros l w' Hin Hall Hrun. unfold SyncEngine.push in Hrun.
    apply bind_Ok_inv in Hrun as ([] & w1 & Hloop & Hsave).
    assert (Hnone : files (state w1) !! getRelativePath abs = None).
    { eapply push_loop_untracks; eauto. }
    revert Hsave. unfold SyncEngine.saveState, SyncEngine.writeFileSync. run.
    destruct (Fs.writeFileSync _ _ _); simpl; [|discriminate].
    intros [= <-]. exact Hnone.
Qed.

(** The loop of [push]: either nothing in it threw but, possibly, a local
    read, or it stopped at the entry whose remote call threw. *)
Lemma push_loop_shape l : ∀ (w : World R) r w',
  for_each l push_entry w = (r, w') →
  disk w' = disk w ∧
  ∃ evs, trace w' = (trace w ++ evs)%list ∧
    (all_quiet evs ∨
     (ends_in_throw r evs ∧
      ∃ done x rest w1 e,
        l = (done ++ x :: rest)%list ∧
        for_each done push_entry w = (Ok tt, w1) ∧
        push_entry x w1 = (Throw e, w') ∧ r = Throw e)).
Proof using Type.
  induction l as [|x l IH]; intros w r w'; simpl.
  - intros [= <- <-]. split; [reflexivity|]. exists []. rewrite app_nil_r.
    split; [reflexivity|]. left. constructor.
  - unfold bind at 1. destruct (push_entry x w) as [[[]|e] w1] eqn:E; intros Hr.
    + destruct (tidy_push_entry _ _ _ _ E) as (Hd1 & evs1 & Ht1 & [Hq1|Hf1]);
        [|destruct Hf1 as (? & ? & ? & ? & [=] & _)].
      destruct (IH _ _ _ Hr) as (Hd2 & evs2 & Ht2 & Hcase).
      split; [congruence|].
      exists (evs1 ++ evs2)%list. rewrite Ht2, Ht1, app_assoc.
      split; [reflexivity|].
      destruct Hcase as [Hq2|[(e & evs0 & subject & c & -> & -> & Hq0)
                               (done & y & rest & w2 & e' & -> & Hdone & Hy & Hr')]].
      * left. apply Forall_app. auto.
      * right. split.
        -- exists e, (evs1 ++ evs0)%list, subject, c.
           rewrite app_assoc. repeat split. apply Forall_app. auto.
        -- exists (x :: done), y, rest, w2, e'. repeat split; auto.
           simpl. unfold bind at 1. rewrite E. exact Hdone.
    + injection Hr as <- <-.
      destruct (tidy_push_entry _ _ _ _ E) as (Hd1 & evs1 & Ht1 & Hcase).
      split; [exact Hd1|]. exists evs1. split; [exact Ht1|].
      destruct Hcase as [Hq|Hf]; [left; exact Hq|right].
      split.
      * destruct Hf as (e' & evs0 & subject & c & [= <-] & -> & Hq0).
        exists e, evs0, subject, c. auto.
      * exists [], x, l, w, e. repeat split; auto.
Qed.

(** A list that ends in [y] after quiet events holds a non-quiet [x]
    only as that last element. *)
Lemma last_not_quiet (before after evs0 : list Event) x y :
  (before ++ x :: after = evs0 ++ [y])%list →
  all_quiet evs0 → quiet x = false →
  after = [] ∧ x = y ∧ before = evs0.
Proof using Type.
  intros Heq Hq Hx.
  destruct after as [|a after _] using rev_ind.
  - apply app_inj_tail in Heq as [-> ->]. auto.
  - exfalso.
    change (before ++ x :: after ++ [a])%list
      with (before ++ (x :: after) ++ [a])%list in Heq.
    rewrite app_assoc in Heq. apply app_inj_tail in Heq as [<- _].
    apply Forall_app in Hq as [_ Hq]. apply Forall_cons in Hq as [Hq _].
    congruence.
Qed.

Lemma not_all_quiet (before after : list Event) x :
  quiet x = false → ¬ all_quiet (before ++ x :: after).
Proof using Type.
  intros Hx Hq. apply Forall_app in Hq as [_ Hq].
  apply Forall_cons in Hq as [Hq _]. congruence.
Qed.

(** C7. When a remote call other than a delete throws during [push], the
    batch stops there: [push] throws that error, the failed call is the
    last event, nothing was written to the disk (so the state was not
    saved), and the world is the one the failing entry left, reached
    from the world the entries before it had produced. *)
Theorem push_aborts_on_throw l (w : World R) res w' before subject c e after :
  push l w = (res, w') →
  trace w' = (trace w ++ before ++ Remote subject c (Threw e) :: after)%list →
  is_delete c = false →
  res = Throw e ∧ after = [] ∧ all_quiet before ∧ disk w' = disk w ∧
  ∃ done x rest w1,
    l = (done ++ x :: rest)%list ∧
    for_each done push_entry w = (Ok tt, w1) ∧
    push_entry x w1 = (Throw e, w').
Proof using Type.
  intros Hrun Htrace Hc. unfold SyncEngine.push in Hrun. unfold bind at 1 in Hrun.
  assert (Hnq : quiet (Remote subject c (Threw e)) = false) by exact Hc.
  clear Hc.
  destruct (for_each l push_entry w) as [[[]|e1] w1] eqn:E.
  - exfalso.
    destruct (push_loop_shape _ _ _ _ E) as (Hd & evs & Ht & [Hq|[Hf _]]);
      [|destruct Hf as (? & ? & ? & ? & [=] & _)].
    revert Hrun. unfold SyncEngine.saveState, SyncEngine.writeFileSync. run.
    destruct (Fs.writeFileSync _ _ _) as [d'|e']; simpl; intros [= <- <-];
      simpl in Htrace; rewrite Ht in Htrace.
    + rewrite <- app_assoc in Htrace. apply app_inv_head in Htrace.
      symmetry in Htrace. apply last_not_quiet in Htrace as (_ & [=] & _); auto.
    + apply app_inv_head in Htrace. rewrite Htrace in Hq.
      exact (not_all_quiet before after (Remote subject c (Threw e)) Hnq Hq).
  - injection Hrun as <- <-.
    destruct (push_loop_shape _ _ _ _ E) as (Hd & evs & Ht & Hcase).
    rewrite Ht in Htrace. apply app_inv_head in Htrace.
    destruct Hcase as [Hq|[Hf Hdec]].
    + exfalso. rewrite Htrace in Hq. exact (not_all_quiet before after (Remote subject c (Threw e)) Hnq Hq).
    + destruct Hf as (e' & evs0 & subject' & c' & [= <-] & -> & Hq0).
      symmetry in Htrace.
      apply last_not_quiet in Htrace as (-> & [= <- <- <-] & ->); auto.
      destruct Hdec as (done & x & rest & w2 & e2 & -> & Hdone & Hx & [= <-]).
      repeat split; auto. exists done, x, rest, w2. auto.
Qed.

(** ** Excluded names *)


#[local] Instance keeps_clean_preorder : PreOrder (keeps_clean (R := R)).
Proof using Type. split; [intros w; exact id | intros a b c Hab Hbc Ha; auto]. Qed.

Lemma clean_put_state s :
  files_clean s → respects keeps_clean (put_state s : M R unit).
Proof using Type. intros Hs w r w' [= <- <-] [_ Ht]. split; assumption. Qed.

Lemma clean_put_disk d : respects keeps_clean (put_disk d : M R unit).
Proof using Type. intros w r w' [= <- <-] Hw. exact Hw. Qed.

Lemma clean_emit e : event_clean e → respects keeps_clean (emit e : M R unit).
Proof using Type.
  intros He w r w' [= <- <-] [Hs Ht]. split; [exact Hs|]. simpl.
  apply Forall_app. split; [exact Ht|]. repeat constructor. exact He.
Qed.

Lemma clean_call {A} record (op : R → Result A * R) file :
  (∀ o, event_clean (record o)) → respects keeps_clean (call record op file).
Proof using Type.
  intros He w r w'. unfold call. destruct (op (remote w)) as [x r'].
  intros [= <- <-] [Hs Ht]. split; [exact Hs|]. simpl.
  apply Forall_app. split; [exact Ht|]. repeat constructor. apply He.
Qed.

Lemma clean_set_file rel f :
  isExcluded rel = false →
  respects keeps_clean (SyncEngine.set_file rel f : M R unit).
Proof using Type.
  intros Hrel w r w' [= <- <-] [Hs Ht]. split; [|exact Ht].
  intros k. simpl. destruct (decide (rel = k)) as [<-|Hne]; [auto|].
  rewrite lookup_insert_ne by exact Hne. apply Hs.
Qed.

Lemma clean_delete_file rel :
  respects keeps_clean (SyncEngine.delete_file rel : M R unit).
Proof using Type.
  intros w r w' [= <- <-] [Hs Ht]. split; [|exact Ht].
  intros k. simpl. destruct (decide (rel = k)) as [<-|Hne].
  - rewrite lookup_delete_eq. intros [? [=]].
  - rewrite lookup_delete_ne by exact Hne. apply Hs.
Qed.

Lemma clean_set_folder rel i :
  respects keeps_clean (SyncEngine.set_folder rel i : M R unit).
Proof using Type. intros w r w' [= <- <-] [Hs Ht]. split; assumption. Qed.

Ltac clean_step :=
  first
    [ apply (respects_ret keeps_clean) | apply (respects_lift keeps_clean)
    | apply (respects_get_state keeps_clean)
    | apply (respects_get_disk keeps_clean)
    | apply clean_put_disk | apply clean_set_folder
    | apply clean_delete_file
    | apply clean_emit; exact I
    | apply clean_call; intros ?; split; [discriminate|exact I]
    | apply (respects_bind keeps_clean); [|intros ?] ].

Lemma clean_ensureFolder_loop parts currentPath parentId :
  respects keeps_clean
    (SyncEngine.ensureFolder_loop parts currentPath parentId : M R string).
Proof using Type.
  revert currentPath parentId.
  induction parts as [|part parts IH]; intros currentPath parentId; simpl.
  - clean_step.
  - clean_step; [|apply IH].
    unfold SyncEngine.ensureFolder_step, SyncEngine.gdrive_findFolder,
      SyncEngine.gdrive_createFolder.
    clean_step; [clean_step|].
    destruct (SyncEngine.cached _ _); [clean_step|].
    clean_step; [clean_step|].
    match goal with |- context [match ?x with _ => _ end] => destruct x end;
      repeat clean_step.
Qed.

Lemma clean_shouldDownloadFile rel lp rm :
  respects keeps_clean (shouldDownloadFile rel lp rm : M R Action).
Proof using Type.
  intros w r w' Hrun [Hs Ht].
  destruct (shouldDownloadFile_grows rel lp rm w)
    as (a & w1 & evs & Hrun1 & Hstate & _ & _ & Htrace & Hevs).
  rewrite Hrun1 in Hrun. injection Hrun as <- <-.
  split; [rewrite Hstate; exact Hs|].
  rewrite Htrace. apply Forall_app. split; [exact Ht|].
  apply Forall_forall. intros e He.
  destruct (Hevs e He) as [line ->]. exact I.
Qed.

Lemma isExcluded_basename rel :
  isExcluded rel = false → Path.basename rel ∉ Config.getExcludedFiles.
Proof using Type.
  unfold SyncEngine.isExcluded. intros Hrel Hin.
  apply bool_decide_eq_false in Hrel. contradiction.
Qed.

Lemma clean_push_entry abs :
  respects keeps_clean (push_entry abs : M R unit).
Proof using Type.
  unfold SyncEngine.push_entry.
  destruct (isExcluded (getRelativePath abs)) eqn:Hrel; [clean_step|].
  unfold SyncEngine.existsSync, SyncEngine.statSync, SyncEngine.readFileSync,
    SyncEngine.handleLocalDelete, SyncEngine.gdrive_deleteFile,
    SyncEngine.gdrive_updateFile, SyncEngine.gdrive_uploadFile,
    SyncEngine.console_log, SyncEngine.console_error,
    SyncEngine.ensureFolderExists.
  clean_step; [repeat clean_step|].
  destruct (negb _).
  - clean_step; [clean_step|].
    destruct (files _ !! _); [|clean_step].
    clean_step; [|clean_step].
    apply (respects_try_catch keeps_clean); [|intros ?; clean_step].
    clean_step; [|clean_step].
    apply clean_call. intros o. split; [intros _; exact Hrel|exact I].
  - clean_step; [repeat clean_step|].
    destruct (Fs.isDirectory _); [clean_step|].
    clean_step; [repeat clean_step|].
    clean_step; [clean_step|].
    destruct (files _ !! _).
    + clean_step.
      * apply clean_call. intros o. split; [intros _; exact Hrel|exact I].
      * clean_step; [apply clean_set_file; exact Hrel|clean_step].
    + clean_step.
      * destruct (String.eqb _ _); [clean_step|apply clean_ensureFolder_loop].
      * clean_step.
        -- apply clean_call. intros o.
           split; [intros _; exact Hrel|apply isExcluded_basename, Hrel].
        -- clean_step; [apply clean_set_file; exact Hrel|clean_step].
Qed.

Lemma clean_saveState : respects keeps_clean (saveState : M R unit).
Proof using Type.
  unfold SyncEngine.saveState, SyncEngine.writeFileSync. repeat clean_step.
Qed.

Lemma clean_push l : respects keeps_clean (push l : M R unit).
Proof using Type.
  unfold SyncEngine.push. clean_step; [|apply clean_saveState].
  apply (respects_for_each keeps_clean). intros x _. apply clean_push_entry.
Qed.

Lemma clean_pull_entry filesToPush entry :
  respects keeps_clean (pull_entry filesToPush entry : M R (list string)).
Proof using Type.
  destruct entry as [rel remoteFile]. unfold SyncEngine.pull_entry.
  destruct (isExcluded rel) eqn:Hrel; [clean_step|].
  destruct (String.prefix _ _); [clean_step|].
  clean_step; [apply clean_shouldDownloadFile|].
  unfold SyncEngine.gdrive_downloadFile, SyncEngine.mkdirSync,
    SyncEngine.writeFileSync, SyncEngine.statSync, SyncEngine.console_log.
  match goal with |- context [match ?x with _ => _ end] => destruct x end.
  - clean_step.
    + apply clean_call. intros o. split; [intros _; exact Hrel|exact I].
    + do 3 (clean_step; [repeat clean_step|]).
      clean_step; [apply clean_set_file; exact Hrel|repeat clean_step].
  - clean_step.
  - clean_step; [repeat clean_step|].
    clean_step; [apply clean_set_file; exact Hrel|clean_step].
Qed.

Lemma clean_pull : respects keeps_clean (pull : M R (list string)).
Proof using Type.
  unfold SyncEngine.pull, SyncEngine.console_log,
    SyncEngine.gdrive_listFilesRecursive.
  clean_step; [clean_step|].
  clean_step; [apply clean_call; intros ?; exact I|].
  clean_step.
  { apply (respects_for_each keeps_clean). intros [rel file] _. unfold SyncEngine.pull_folder.
    destruct (String.eqb _ _); clean_step. }
  clean_step.
  { apply (respects_fold_m keeps_clean). intros b x _. apply clean_pull_entry. }
  clean_step; [clean_step|].
  clean_step.
  { apply (respects_fold_m keeps_clean). intros b x _. unfold SyncEngine.pull_missing.
    destruct (SyncEngine.has _ _); [clean_step|].
    unfold SyncEngine.existsSync, SyncEngine.console_log.
    clean_step; [repeat clean_step|].
    match goal with |- context [if ?b then _ else _] => destruct b end;
      repeat clean_step. }
  clean_step; [apply clean_saveState|repeat clean_step].
Qed.

(** C5, as the code has it.  In every world an engine can reach from the
    empty document, no key of [files] has an excluded basename, every
    upload, download, update and delete was made for a path whose
    basename is not excluded, and no upload named an excluded file.
    (Nothing is said of [folders]: its keys are not filtered.) *)
Theorem excluded_names_stay_out (w : World R) :
  reachable config path_join path_relative getTime JSON_stringify w →
  files_clean (state w) ∧ Forall event_clean (trace w).
Proof using Type.
  induction 1 as [d r|w d r _ IH|w l res w' _ IH Hrun|w res w' _ IH Hrun].
  - split; [|constructor]. intros k. simpl. rewrite lookup_empty.
    intros [? [=]].
  - exact IH.
  - exact (clean_push _ _ _ _ Hrun IH).
  - exact (clean_pull _ _ _ Hrun IH).
Qed.

(** ** Paths that left the remote *)





#[local] Instance bystander_preorder rel : PreOrder (bystander (R := R) rel).
Proof using Type.
  split.
  - intros w. split; [intros p Hp; exact Hp|]. split; [|reflexivity].
    exists []. rewrite app_nil_r. split; [reflexivity|]. intros c o Hin.
    inversion Hin.
  - intros a b c (Hd1 & (evs1 & Ht1 & Hs1) & Hr1) (Hd2 & (evs2 & Ht2 & Hs2) & Hr2).
    split; [intros p Hp; auto|]. split.
    + exists (evs1 ++ evs2)%list. rewrite Ht2, Ht1, app_assoc.
      split; [reflexivity|]. intros c0 o Hin.
      apply elem_of_app in Hin as [Hin|Hin]; [eapply Hs1|eapply Hs2]; eauto.
    + unfold keeps_record in *. congruence.
Qed.

Lemma bystander_put_state rel s (w : World R) :
  files s !! rel = files (state w) !! rel →
  bystander rel w {| state := s; disk := disk w; remote := remote w;
                     trace := trace w |}.
Proof using Type.
  intros Hs. split; [intros p Hp; exact Hp|]. split; [|exact Hs].
  exists []. simpl. rewrite app_nil_r. split; [reflexivity|].
  intros c o Hin. inversion Hin.
Qed.

Lemma bystander_set_file rel k f :
  k ≠ rel → respects (bystander rel) (SyncEngine.set_file k f : M R unit).
Proof using Type.
  intros Hne w r w' [= <- <-]. apply bystander_put_state. simpl.
  apply lookup_insert_ne. exact Hne.
Qed.

Lemma bystander_set_folder rel k i :
  respects (bystander rel) (SyncEngine.set_folder k i : M R unit).
Proof using Type. intros w r w' [= <- <-]. apply bystander_put_state. reflexivity. Qed.

Lemma bystander_emit rel e :
  (∀ c o, e ≠ Remote rel c o) → respects (bystander rel) (emit e : M R unit).
Proof using Type.
  intros He w r w' [= <- <-]. split; [intros p Hp; exact Hp|].
  split; [|reflexivity]. exists [e]. split; [reflexivity|].
  intros c o Hin. apply list_elem_of_singleton in Hin. eapply He; eauto.
Qed.

Lemma bystander_call {A} rel record (op : R → Result A * R) file :
  (∀ o c o', record o ≠ Remote rel c o') →
  respects (bystander rel) (call record op file).
Proof using Type.
  intros He w r w'. unfold call. destruct (op (remote w)) as [x r'].
  intros [= <- <-]. split; [intros p Hp; exact Hp|].
  split; [|reflexivity]. eexists. split; [reflexivity|].
  intros c o Hin. apply list_elem_of_singleton in Hin. eapply He; eauto.
Qed.

Lemma existsSync_insert d p q e :
  Fs.existsSync d p = true →
  Fs.existsSync {| Fs.entries := <[q := e]> (Fs.entries d); Fs.now := Fs.now d |} p
  = true.
Proof using Type.
  unfold Fs.existsSync. simpl. intros Hp.
  destruct (decide (q = p)) as [->|Hne].
  - rewrite lookup_insert_eq. reflexivity.
  - rewrite lookup_insert_ne by exact Hne. exact Hp.
Qed.

Lemma bystander_writeFileSync rel p content :
  respects (bystander rel) (SyncEngine.writeFileSync p content : M R unit).
Proof using Type.
  intros w r w'. unfold SyncEngine.writeFileSync, Fs.writeFileSync. run.
  assert (Hgo : ∀ d', (∀ q, Fs.existsSync (disk w) q = true →
                            Fs.existsSync d' q = true) →
            bystander rel w {| state := state w; disk := d'; remote := remote w;
                               trace := (trace w ++ [WroteFile p content])%list |}).
  { intros d' Hd'. split; [exact Hd'|]. split; [|reflexivity].
    eexists. split; [reflexivity|]. intros c o Hin.
    apply list_elem_of_singleton in Hin. discriminate. }
  destruct (Fs.entries (disk w) !! p) as [[m c|m]|]; simpl; intros [= <- <-];
    try reflexivity; apply Hgo; intros q; apply existsSync_insert.
Qed.

Lemma bystander_mkdirSync rel p :
  respects (bystander rel) (SyncEngine.mkdirSync p : M R unit).
Proof using Type.
  intros w r w'. unfold SyncEngine.mkdirSync, Fs.mkdirSync. run.
  assert (Hgo : ∀ d', (∀ q, Fs.existsSync (disk w) q = true →
                            Fs.existsSync d' q = true) →
            bystander rel w {| state := state w; disk := d'; remote := remote w;
                               trace := (trace w ++ [MadeDir p])%list |}).
  { intros d' Hd'. split; [exact Hd'|]. split; [|reflexivity].
    eexists. split; [reflexivity|]. intros c o Hin.
    apply list_elem_of_singleton in Hin. discriminate. }
  destruct (Fs.entries (disk w) !! p) as [[m c|m]|]; simpl; intros [= <- <-];
    try reflexivity; apply Hgo; intros q; try apply existsSync_insert; auto.
Qed.

Lemma bystander_shouldDownloadFile rel k lp rm :
  respects (bystander rel) (shouldDownloadFile k lp rm : M R Action).
Proof using Type.
  intros w r w' Hrun.
  destruct (shouldDownloadFile_grows k lp rm w)
    as (a & w1 & evs & Hrun1 & Hstate & Hdisk & _ & Htrace & Hevs).
  rewrite Hrun1 in Hrun. injection Hrun as <- <-.
  split; [intros p; rewrite Hdisk; auto|]. split.
  - exists evs. split; [exact Htrace|]. intros c o Hin.
    destruct (Hevs _ Hin) as [line [=]].
  - unfold keeps_record. rewrite Hstate. reflexivity.
Qed.


Lemma returns_ret {A} (Q : A → Prop) a : Q a → returns Q (ret a : M R A).
Proof using Type. intros Ha w a' w' [= <- <-]. exact Ha. Qed.

Lemma returns_bind {A B} (Q : B → Prop) (m : M R A) (k : A → M R B) :
  (∀ a, returns Q (k a)) → returns Q (bind m k).
Proof using Type.
  intros Hk w b w' Hrun. apply bind_Ok_inv in Hrun as (a & w1 & _ & Hrun).
  eapply Hk, Hrun.
Qed.

Lemma pull_entry_batch b entry :
  returns (λ b', ∀ x, x ∈ b → x ∈ b') (pull_entry b entry : M R (list string)).
Proof using Type.
  destruct entry as [k file]. unfold SyncEngine.pull_entry.
  destruct (isExcluded k); [apply returns_ret; auto|].
  destruct (String.prefix _ _); [apply returns_ret; auto|].
  apply returns_bind. intros [].
  - repeat (apply returns_bind; intros ?). apply returns_ret. auto.
  - apply returns_ret. auto.
  - repeat (apply returns_bind; intros ?). apply returns_ret.
    intros x Hx. apply elem_of_app. auto.
Qed.

Lemma pull_entries_batch l : ∀ b,
  returns (λ b', ∀ x, x ∈ b → x ∈ b')
          (fold_m pull_entry l b : M R (list string)).
Proof using Type.
  induction l as [|entry l IH]; intros b; simpl.
  - apply returns_ret. auto.
  - intros w b' w' Hrun. apply bind_Ok_inv in Hrun as (b1 & w1 & H1 & H2).
    intros x Hx. eapply IH; [exact H2|]. eapply pull_entry_batch; eauto.
Qed.

Lemma bystander_pull_entry rel b k file :
  k ≠ rel → respects (bystander rel) (pull_entry b (k, file) : M R (list string)).
Proof using Type.
  intros Hne. unfold SyncEngine.pull_entry.
  destruct (isExcluded k); [apply (respects_ret (bystander rel))|].
  destruct (String.prefix _ _); [apply (respects_ret (bystander rel))|].
  apply (respects_bind (bystander rel)); [apply bystander_shouldDownloadFile|].
  unfold SyncEngine.gdrive_downloadFile, SyncEngine.statSync,
    SyncEngine.console_log.
  intros [];
    repeat first
      [ apply (respects_ret (bystander rel))
      | apply (respects_lift (bystander rel))
      | apply (respects_get_disk (bystander rel))
      | apply bystander_mkdirSync | apply bystander_writeFileSync
      | apply bystander_set_file; exact Hne
      | apply bystander_emit; discriminate
      | apply bystander_call; intros o c o' [= -> _ _]; exact (Hne eq_refl)
      | apply (respects_bind (bystander rel)); [|intros ?] ].
Qed.

Lemma bystander_pull_folder rel entry :
  respects (bystander rel) (SyncEngine.pull_folder entry : M R unit).
Proof using Type.
  destruct entry as [k file]. unfold SyncEngine.pull_folder.
  destruct (String.eqb _ _);
    [apply bystander_set_folder|apply (respects_ret (bystander rel))].
Qed.

(** One turn of the third loop. *)
Lemma pull_missing_run remoteFiles b k (w : World R) :
  pull_missing remoteFiles b k w =
    if SyncEngine.has remoteFiles k then (Ok b, w)
    else
      let localPath := path_join (Config.localPath config) k in
      let s := {| files := delete k (files (state w));
                  folders := folders (state w) |} in
      if Fs.existsSync (disk w) localPath then
        (Ok (b ++ [localPath])%list,
         {| state := s; disk := disk w; remote := remote w;
            trace := (trace w ++
                      [ConsoleLog ("[pull] Not on remote, will push: " +:+ k)])%list |})
      else
        (Ok b, {| state := s; disk := disk w; remote := remote w;
                  trace := trace w |}).
Proof using Type.
  unfold SyncEngine.pull_missing, SyncEngine.existsSync, SyncEngine.delete_file,
    SyncEngine.console_log.
  destruct (SyncEngine.has remoteFiles k); [reflexivity|]. run.
  destruct (Fs.existsSync (disk w) _); reflexivity.
Qed.

(** The third loop returns; it leaves the disk and the remote alone,
    only removes records, and removes the record of every key it meets
    that the listing lacks, handing the local path to the batch when the
    file is there. *)
Lemma pull_missing_loop remoteFiles l : ∀ b (w : World R),
  ∃ b' w' evs,
    fold_m (pull_missing remoteFiles) l b w = (Ok b', w') ∧
    disk w' = disk w ∧ remote w' = remote w ∧
    trace w' = (trace w ++ evs)%list ∧
    (∀ e, e ∈ evs → ∃ line, e = ConsoleLog line) ∧
    (∀ x, x ∈ b → x ∈ b') ∧
    (∀ k, files (state w) !! k = None → files (state w') !! k = None) ∧
    (∀ k, k ∈ l → SyncEngine.has remoteFiles k = false →
          files (state w') !! k = None ∧
          (Fs.existsSync (disk w) (path_join (Config.localPath config) k) = true →
           path_join (Config.localPath config) k ∈ b')).
Proof using Type.
  induction l as [|k l IH]; intros b w; simpl.
  - exists b, w, []. rewrite app_nil_r.
    do 4 (split; [reflexivity|]).
    split; [intros e He; inversion He|]. split; [auto|]. split; [auto|].
    intros k Hk. inversion Hk.
  - unfold bind at 1. rewrite pull_missing_run.
    assert (Hdel : ∀ k', files (state w) !! k' = None →
                         delete k (files (state w)) !! k' = None).
    { intros k' Hk'. destruct (decide (k = k')) as [->|Hne];
        [apply lookup_delete_eq|rewrite lookup_delete_ne; auto]. }
    destruct (SyncEngine.has remoteFiles k) eqn:Hhas; simpl;
      [|destruct (Fs.existsSync (disk w) _) eqn:Hex];
      match goal with |- context [fold_m _ l ?b1 ?w1] =>
        destruct (IH b1 w1)
          as (b' & w' & evs & Hrun & Hd & Hr & Ht & He & Hb & Hn & Hl)
      end; simpl in *.
    + exists b', w', evs. split; [exact Hrun|].
      do 6 (split; [assumption|]).
      intros k' Hin Hk'. apply elem_of_cons in Hin as [->|Hin]; [congruence|].
      auto.
    + exists b', w',
        (ConsoleLog ("[pull] Not on remote, will push: " +:+ k) :: evs).
      split; [exact Hrun|]. do 2 (split; [assumption|]).
      split; [rewrite Ht, <- app_assoc; reflexivity|].
      split; [intros e Hin; apply elem_of_cons in Hin as [->|Hin]; eauto|].
      split; [intros x Hx; apply Hb, elem_of_app; auto|].
      split; [intros k' Hk'; auto|].
      intros k' Hin Hk'. apply elem_of_cons in Hin as [->|Hin]; [|auto].
      split; [apply Hn, lookup_delete_eq|]. intros _.
      apply Hb, elem_of_app. right. apply list_elem_of_singleton. reflexivity.
    + exists b', w', evs. split; [exact Hrun|]. do 5 (split; [assumption|]).
      split; [intros k' Hk'; auto|].
      intros k' Hin Hk'. apply elem_of_cons in Hin as [->|Hin]; [|auto].
      split; [apply Hn, lookup_delete_eq|]. congruence.
Qed.

Lemma elem_of_keys (s : SyncState) k f :
  files s !! k = Some f → k ∈ SyncEngine.keys s.
Proof using Type.
  intros Hk. unfold SyncEngine.keys. apply list_elem_of_fmap.
  exists (k, f). split; [reflexivity|]. apply elem_of_map_to_list. exact Hk.
Qed.

(** C3. When [pull] returns, a path that was tracked and that the listing
    taken at its start lacks is tracked no more, and [pull] made no remote
    call for it.  [pull] removes nothing from the disk; if the local file
    was there, it still is and its path is in the returned batch. *)
Theorem pull_untracks_missing (w : World R) remoteFiles r1 batch w' rel existing :
  GDrive.listFilesRecursive (Config.gdriveFolderId config) (remote w)
    = (Ok remoteFiles, r1) →
  pull w = (Ok batch, w') →
  files (state w) !! rel = Some existing →
  rel ∉ remoteFiles.*1 →
  files (state w') !! rel = None ∧
  (∃ evs, trace w' = (trace w ++ evs)%list ∧ ∀ c o, Remote rel c o ∉ evs) ∧
  (∀ p, Fs.existsSync (disk w) p = true → Fs.existsSync (disk w') p = true) ∧
  (Fs.existsSync (disk w) (path_join (Config.localPath config) rel) = true →
     path_join (Config.localPath config) rel ∈ batch ∧
     Fs.existsSync (disk w') (path_join (Config.localPath config) rel) = true).
Proof using Type.
  intros Hlist Hrun Hfile Hmiss. unfold SyncEngine.pull in Hrun.
  apply bind_Ok_inv in Hrun as ([] & w0 & H0 & Hrun).
  apply bind_Ok_inv in Hrun as (rf & w1 & H1 & Hrun).
  apply bind_Ok_inv in Hrun as ([] & w2 & H2 & Hrun).
  apply bind_Ok_inv in Hrun as (b1 & w3 & H3 & Hrun).
  apply bind_Ok_inv in Hrun as (s & w3' & H3' & Hrun).
  injection H3' as <- <-.
  apply bind_Ok_inv in Hrun as (b2 & w4 & H4 & Hrun).
  apply bind_Ok_inv in Hrun as ([] & w5 & H5 & Hrun).
  apply bind_Ok_inv in Hrun as ([] & w6 & H6 & Hrun).
  injection Hrun as <- <-.
  (* the listing is the one of the hypothesis *)
  assert (rf = remoteFiles) as ->.
  { injection H0 as <-. revert H1.
    unfold SyncEngine.gdrive_listFilesRecursive, call. simpl.
    rewrite Hlist. intros [= <- _]. reflexivity. }
  (* up to the third loop the record is left alone *)
  assert (B03 : bystander rel w w3).
  { transitivity w0; [eapply bystander_emit, H0; discriminate|].
    transitivity w1; [eapply bystander_call, H1; discriminate|].
    transitivity w2.
    - eapply (respects_for_each (bystander rel)), H2.
      intros x _. apply bystander_pull_folder.
    - eapply (respects_fold_m (bystander rel)), H3.
      intros b [k file] Hin. apply bystander_pull_entry.
      intros ->. apply Hmiss. apply list_elem_of_fmap. exists (rel, file). auto. }
  destruct B03 as (Hd03 & (evs03 & Ht03 & Hs03) & Hr03).
  unfold keeps_record in Hr03. rewrite Hfile in Hr03.
  (* the third loop *)
  destruct (pull_missing_loop remoteFiles (SyncEngine.keys (state w3)) b1 w3)
    as (b' & w' & evs34 & Hrun4 & Hd34 & _ & Ht34 & He34 & _ & _ & Hl).
  rewrite H4 in Hrun4. injection Hrun4 as <- <-.
  destruct (Hl rel (elem_of_keys _ _ _ Hr03)) as [Hgone Hbatch].
  { unfold SyncEngine.has. apply bool_decide_eq_false. exact Hmiss. }
  (* saving and the last line *)
  assert (B46 : bystander rel w4 w6).
  { transitivity w5; [|eapply bystander_emit, H6; discriminate].
    revert H5. unfold SyncEngine.saveState. intros H5.
    apply bind_Ok_inv in H5 as (s & w4' & [= <- <-] & H5).
    eapply bystander_writeFileSync, H5. }
  destruct B46 as (Hd46 & (evs46 & Ht46 & Hs46) & Hr46).
  unfold keeps_record in Hr46.
  split; [congruence|]. split; [|split].
  - exists (evs03 ++ evs34 ++ evs46)%list.
    split; [rewrite Ht46, Ht34, Ht03, <- !app_assoc; reflexivity|].
    intros c o Hin. apply elem_of_app in Hin as [Hin|Hin]; [eapply Hs03, Hin|].
    apply elem_of_app in Hin as [Hin|Hin]; [|eapply Hs46, Hin].
    destruct (He34 _ Hin) as [line [=]].
  - intros p Hp. apply Hd46. rewrite Hd34. apply Hd03, Hp.
  - intros Hhere. split.
    + apply Hbatch, Hd03, Hhere.
    + apply Hd46. rewrite Hd34. apply Hd03, Hhere.
Qed.

(** ** Local wins *)



(** ** Push, then pull *)


(** Once the remote time of a record is the one the remote reports, the
    file is skipped: [pull] does nothing for it. *)
Lemma pull_entry_skip b rel remoteFile record (w : World R) :
  isExcluded rel = false →
  files (state w) !! rel = Some record →
  getTime (GDrive.modifiedTime remoteFile) ≤ gdriveMtime record →
  shouldDownloadFile rel (path_join (Config.localPath config) rel)
    (getTime (GDrive.modifiedTime remoteFile)) w = (Ok Skip, w) ∧
  pull_entry b (rel, remoteFile) w = (Ok b, w).
Proof using Type.
  intros Hex Hrecord Hle.
  assert (Hskip : shouldDownloadFile rel (path_join (Config.localPath config) rel)
            (getTime (GDrive.modifiedTime remoteFile)) w = (Ok Skip, w)).
  { unfold SyncEngine.shouldDownloadFile. run. rewrite Hrecord.
    apply Z.leb_le in Hle. rewrite Hle. reflexivity. }
  split; [exact Hskip|].
  unfold SyncEngine.pull_entry. rewrite Hex.
  destruct (String.prefix _ _); [reflexivity|].
  unfold bind at 1. rewrite Hskip. reflexivity.
Qed.


(** ** The folder resolver *)



Lemma create_after_find_nil : create_after_find [].
Proof using Type. intros [|? ?] ? ? ? ? ? [=]. Qed.

Lemma create_after_find_find p n parent o :
  create_after_find [Remote p (FindFolder n parent) o].
Proof using Type. intros [|? [|? ?]] ? ? ? ? ? [=]. Qed.

Lemma create_after_find_pair p n parent o :
  create_after_find
    [Remote p (FindFolder n parent) (Returned None);
     Remote p (CreateFolder n parent) o].
Proof using Type.
  intros [|? [|? [|? ?]]] ? ? ? ? ? [=]; subst. exists []. reflexivity.
Qed.

Lemma create_after_find_app evs1 evs2 :
  create_after_find evs1 → create_after_find evs2 →
  create_after_find (evs1 ++ evs2).
Proof using Type.
  intros H1 H2 before p n parent o after Heq.
  symmetry in Heq. apply app_eq_app in Heq as [l [[-> Hl]|[-> Hl]]].
  - destruct (H2 _ _ _ _ _ _ Hl) as [b' ->]. exists (evs1 ++ b')%list.
    rewrite app_assoc. reflexivity.
  - destruct l as [|x l].
    + simpl in Hl. subst evs2. destruct (H2 [] _ _ _ _ _ eq_refl) as [b' Hb'].
      destruct b'; discriminate.
    + injection Hl as <- ->. exact (H1 _ _ _ _ _ _ eq_refl).
Qed.

Lemma cached_set_folder_other (s : SyncState) p q i :
  SyncEngine.cached s p = None →
  ∀ j, SyncEngine.cached s q = Some j →
    SyncEngine.cached {| files := files s; folders := <[p := i]> (folders s) |} q
    = Some j.
Proof using Type.
  intros Hp j Hq. unfold SyncEngine.cached in *. simpl.
  destruct (decide (p = q)) as [->|Hne]; [congruence|].
  rewrite lookup_insert_ne by exact Hne. exact Hq.
Qed.

(** One segment. *)
Lemma ensureFolder_step_spec p part parent (w : World R) r w' :
  SyncEngine.ensureFolder_step p part parent w = (r, w') →
  (∀ i, SyncEngine.cached (state w) p = Some i → w' = w ∧ r = Ok i) ∧
  keeps_cache w w' ∧
  ∃ evs, trace w' = (trace w ++ evs)%list ∧ create_after_find evs ∧
    ∀ e, e ∈ evs →
      ∃ c o, e = Remote p c o ∧ is_folder_call c = true ∧
             SyncEngine.cached (state w) p = None.
Proof using Type.
  unfold SyncEngine.ensureFolder_step, SyncEngine.gdrive_findFolder,
    SyncEngine.gdrive_createFolder, SyncEngine.set_folder.
  run.
  destruct (SyncEngine.cached (state w) p) as [i|] eqn:Hc.
  - intros [= <- <-]. split; [intros j [= <-]; auto|].
    split; [intros q j Hq; exact Hq|].
    exists []. rewrite app_nil_r. split; [reflexivity|].
    split; [apply create_after_find_nil|]. intros e He. inversion He.
  - split; [intros i [=]|]. revert H0.
    destruct (GDrive.findFolder part parent (remote w)) as [[[found|]|e] r1];
      simpl.
    + intros [= <- <-]. split.
      * intros q j Hq. simpl. apply cached_set_folder_other; assumption.
      * eexists [_]. simpl. split; [reflexivity|].
        split; [apply create_after_find_find|].
        intros e He. apply list_elem_of_singleton in He as ->. eauto.
    + destruct (GDrive.createFolder part parent r1) as [[folder|e] r2]; simpl;
        intros [= <- <-].
      * split.
        -- intros q j Hq. simpl. apply cached_set_folder_other; assumption.
        -- eexists [_; _]. simpl. rewrite <- app_assoc.
           split; [reflexivity|]. split; [apply create_after_find_pair|].
           intros e He. apply elem_of_cons in He as [->|He]; [eauto|].
           apply list_elem_of_singleton in He as ->. eauto.
      * split; [intros q j Hq; exact Hq|].
        eexists [_; _]. simpl. rewrite <- app_assoc.
        split; [reflexivity|]. split; [apply create_after_find_pair|].
        intros e' He. apply elem_of_cons in He as [->|He]; [eauto|].
        apply list_elem_of_singleton in He as ->. eauto.
    + intros [= <- <-]. split; [intros q j Hq; exact Hq|].
      eexists [_]. simpl. split; [reflexivity|].
      split; [apply create_after_find_find|].
      intros e' He. apply list_elem_of_singleton in He as ->. eauto.
Qed.

(** The whole walk. *)
Lemma ensureFolder_loop_spec parts : ∀ currentPath parent (w : World R) r w',
  SyncEngine.ensureFolder_loop parts currentPath parent w = (r, w') →
  keeps_cache w w' ∧
  ∃ evs, trace w' = (trace w ++ evs)%list ∧ create_after_find evs ∧
         folder_events parts currentPath w evs.
Proof using Type.
  induction parts as [|part parts IH]; intros cur parent w r w'; simpl.
  - intros [= <- <-]. split; [intros q j Hq; exact Hq|].
    exists []. rewrite app_nil_r. split; [reflexivity|].
    split; [apply create_after_find_nil|]. intros e He. inversion He.
  - unfold bind at 1.
    destruct (SyncEngine.ensureFolder_step _ _ _ w) as [[i|e] w1] eqn:E;
      intros Hrun;
      destruct (ensureFolder_step_spec _ _ _ _ _ _ E)
        as (_ & Hk1 & evs1 & Ht1 & Hc1 & He1).
    + destruct (IH _ _ _ _ _ Hrun) as (Hk2 & evs2 & Ht2 & Hc2 & He2).
      split; [intros q j Hq; auto|].
      exists (evs1 ++ evs2)%list. rewrite Ht2, Ht1, app_assoc.
      split; [reflexivity|]. split; [apply create_after_find_app; assumption|].
      intros e He. apply elem_of_app in He as [He|He].
      * destruct (He1 _ He) as (c & o & -> & Hc & Hn).
        exists (SyncEngine.next_path cur part), c, o. repeat split; auto. left.
      * destruct (He2 _ He) as (q & c & o & -> & Hc & Hin & Hn).
        exists q, c, o. repeat split; auto; [right; exact Hin|].
        destruct (SyncEngine.cached (state w) q) as [j|] eqn:Hq; [|reflexivity].
        apply Hk1 in Hq. congruence.
    + injection Hrun as <- <-. split; [exact Hk1|].
      exists evs1. split; [exact Ht1|]. split; [exact Hc1|].
      intros e' He. destruct (He1 _ He) as (c & o & -> & Hc & Hn).
      exists (SyncEngine.next_path cur part), c, o. repeat split; auto. left.
Qed.

(** When every cumulative path is cached, the walk is silent and returns
    the id cached for the last one. *)
Lemma ensureFolder_loop_cached parts : ∀ currentPath parent (w : World R),
  (∀ p, p ∈ cumulative parts currentPath →
        is_Some (SyncEngine.cached (state w) p)) →
  ∃ i, SyncEngine.ensureFolder_loop parts currentPath parent w = (Ok i, w) ∧
       match last (cumulative parts currentPath) with
       | Some p => SyncEngine.cached (state w) p = Some i
       | None => i = parent
       end.
Proof using Type.
  induction parts as [|part parts IH]; intros cur parent w Hall; simpl.
  - exists parent. auto.
  - destruct (Hall (SyncEngine.next_path cur part)) as [i Hi]; [left|].
    unfold bind at 1.
    destruct (SyncEngine.ensureFolder_step _ _ _ w) as [r w1] eqn:E.
    destruct (ensureFolder_step_spec _ _ _ _ _ _ E) as (Hc & _).
    destruct (Hc _ Hi) as [-> ->].
    destruct (IH (SyncEngine.next_path cur part) i w) as (j & Hrun & Hlast).
    { intros p Hp. apply Hall. right. exact Hp. }
    exists j. split; [exact Hrun|].
    destruct (cumulative parts (SyncEngine.next_path cur part)) as [|q l] eqn:El.
    + simpl in *. congruence.
    + rewrite last_cons_cons.
      destruct (last (q :: l)) eqn:EL; [exact Hlast|].
      apply last_None in EL. discriminate.
Qed.


(** *** The walk, segment by segment *)















End Properties.

(** * The properties at work *)

Lemma shouldDownloadFile_tracked_at_a :
  files (state Scenario.a_tracked) !! "a.txt" = Some Scenario.a_record ∧
  ∃ w', SyncEngine.shouldDownloadFile "a.txt" "/sync/a.txt" 30 Scenario.a_tracked
        = (Ok LocalNewer, w').
Proof.
  split; [reflexivity|].
  destruct (shouldDownloadFile_tracked "a.txt" "/sync/a.txt" 30
              Scenario.a_tracked Scenario.a_record eq_refl)
    as (a & w' & Hrun & _ & Hmoved).
  exists w'. rewrite Hrun.
  destruct (Hmoved ltac:(simpl; lia)) as [_ Hthere].
  destruct (Hthere (Fs.File 50 "local") eq_refl) as [_ Hboth].
  destruct (Hboth ltac:(simpl; lia)) as (_ & Hlocal & _).
  rewrite (proj2 Hlocal ltac:(simpl; lia)). reflexivity.
Defined.

Lemma shouldDownloadFile_untracked_at_a :
  files (state Scenario.a_untracked) !! "a.txt" = None ∧
  ∃ w', SyncEngine.shouldDownloadFile "a.txt" "/sync/a.txt" 50 Scenario.a_untracked
        = (Ok LocalNewer, w').
Proof.
  split; [reflexivity|].
  destruct (shouldDownloadFile_untracked "a.txt" "/sync/a.txt" 50
              Scenario.a_untracked eq_refl)
    as (a & w' & Hrun & _ & Hthere).
  exists w'. rewrite Hrun.
  destruct (Hthere (Fs.File 50 "local") eq_refl) as (_ & _ & Htie).
  rewrite (Htie eq_refl). reflexivity.
Defined.

Lemma pull_untracks_missing_at_kept :
  GDrive.listFilesRecursive "root" (remote Scenario.kept_unlisted) = (Ok [], []) ∧
  Scenario.pull Scenario.kept_unlisted
    = (Ok ["/sync/kept.txt"], (Scenario.pull Scenario.kept_unlisted).2) ∧
  files (state (Scenario.pull Scenario.kept_unlisted).2) !! "kept.txt" = None ∧
  Fs.existsSync (disk (Scenario.pull Scenario.kept_unlisted).2) "/sync/kept.txt"
    = true.
Proof.
  assert (Hlist : GDrive.listFilesRecursive "root" (remote Scenario.kept_unlisted)
                  = (Ok [], [])) by reflexivity.
  assert (Hrun : Scenario.pull Scenario.kept_unlisted
                 = (Ok ["/sync/kept.txt"], (Scenario.pull Scenario.kept_unlisted).2))
    by (vm_compute; reflexivity).
  destruct (pull_untracks_missing Scripted.config Scripted.join Scripted.getTime
              Scripted.stringify Scenario.kept_unlisted [] []
              ["/sync/kept.txt"] (Scenario.pull Scenario.kept_unlisted).2
              "kept.txt" Scenario.gone_record Hlist Hrun eq_refl
              ltac:(intros Hin; inversion Hin))
    as (Hgone & _ & _ & Hkept).
  destruct (Hkept eq_refl) as [_ Hthere].
  split; [exact Hlist|]. split; [exact Hrun|]. split; [exact Hgone|exact Hthere].
Defined.


Lemma excluded_names_stay_out_at_store :
  reachable Scripted.config Scripted.join Scripted.relative Scripted.getTime
    Scripted.stringify
    (Scenario.push ["/sync/.DS_Store/a.txt"] Scenario.store_start).2 ∧
  files_clean (state (Scenario.push ["/sync/.DS_Store/a.txt"] Scenario.store_start).2).
Proof.
  assert (Hreach : reachable Scripted.config Scripted.join Scripted.relative
            Scripted.getTime Scripted.stringify
            (Scenario.push ["/sync/.DS_Store/a.txt"] Scenario.store_start).2).
  { eapply reach_push; [apply reach_start|]. apply surjective_pairing. }
  split; [exact Hreach|].
  exact (proj1 (excluded_names_stay_out _ _ _ _ _ _ Hreach)).
Defined.

(** C5, as the specification has it, fails: after that push [folders] has
    the key [.DS_Store], which is an excluded name. *)
Lemma folders_hold_excluded_name :
  ¬ (∀ w, reachable Scripted.config Scripted.join Scripted.relative
            Scripted.getTime Scripted.stringify w →
          files_clean (state w) ∧ folders_clean (state w)
          ∧ Forall event_clean (trace w)).
Proof.
  intros Hclaim.
  assert (Hreach : reachable Scripted.config Scripted.join Scripted.relative
            Scripted.getTime Scripted.stringify
            (Scenario.push ["/sync/.DS_Store/a.txt"] Scenario.store_start).2).
  { eapply reach_push; [apply reach_start|]. apply surjective_pairing. }
  destruct (Hclaim _ Hreach) as (_ & Hfolders & _).
  specialize (Hfolders ".DS_Store").
  assert (Hkey : is_Some
            (folders (state (Scenario.push ["/sync/.DS_Store/a.txt"]
                               Scenario.store_start).2) !! ".DS_Store")).
  { exists "F7". vm_compute. reflexivity. }
  specialize (Hfolders Hkey). vm_compute in Hfolders. discriminate.
Qed.

Lemma loadState_never_fails_at_cut :
  Fs.readFileSync (Scenario.state_file "{") "/sync/.gdrive-folder-sync-state.json"
    = Ok "{" ∧
  Json.parse "{" = None ∧
  Scenario.loadState (Scenario.state_file "{") = SyncEngine.emptyDocument.
Proof.
  assert (Hread : Fs.readFileSync (Scenario.state_file "{")
                    (SyncEngine.statePath Scripted.config Scripted.join) = Ok "{")
    by reflexivity.
  assert (Hparse : Json.parse "{" = None) by reflexivity.
  split; [exact Hread|]. split; [exact Hparse|].
  exact (proj1 (proj2 (loadState_never_fails Scripted.config Scripted.join
                         (Scenario.state_file "{"))) "{" Hread Hparse).
Defined.

(** C6, as the specification has it, fails: for a state file holding the
    empty object the text is JSON, the value is no replica state, and it is
    what [loadState] returns. *)
Lemma loadState_returns_any_json :
  Json.parse "{}" = Some (Json.JObject []) ∧
  ReplicaState.valid (Json.JObject []) = false ∧
  Scenario.loadState (Scenario.state_file "{}") = Json.JObject [] ∧
  Scenario.loadState (Scenario.state_file "{}") ≠ SyncEngine.emptyDocument.
Proof.
  repeat split; try reflexivity. vm_compute. discriminate.
Qed.

Lemma push_aborts_on_throw_at_two :
  Scenario.push ["/sync/a.txt"; "/sync/b.txt"] Scenario.two_new
    = (Throw (RemoteError "500"),
       (Scenario.push ["/sync/a.txt"; "/sync/b.txt"] Scenario.two_new).2) ∧
  files (state (Scenario.push ["/sync/a.txt"; "/sync/b.txt"] Scenario.two_new).2)
    !! "a.txt" = Some {| gdriveId := "X9"; localMtime := 50; gdriveMtime := 70 |} ∧
  disk (Scenario.push ["/sync/a.txt"; "/sync/b.txt"] Scenario.two_new).2
    = Scenario.two_disk.
Proof.
  pose (w' := (Scenario.push ["/sync/a.txt"; "/sync/b.txt"] Scenario.two_new).2).
  assert (Hrun : Scenario.push ["/sync/a.txt"; "/sync/b.txt"] Scenario.two_new
                 = ((Scenario.push ["/sync/a.txt"; "/sync/b.txt"] Scenario.two_new).1,
                    w')) by apply surjective_pairing.
  assert (Htrace : trace w' =
            (trace Scenario.two_new ++
             [Remote "a.txt" (UploadFile "a.txt" "local" "root")
                     (Returned (Some Scenario.a_created));
              ConsoleLog "[push] Created: a.txt"] ++
             Remote "b.txt" (UploadFile "b.txt" "other" "root")
                    (Threw (RemoteError "500")) :: [])%list)
    by (vm_compute; reflexivity).
  destruct (push_aborts_on_throw Scripted.config Scripted.join Scripted.relative
              Scripted.getTime Scripted.stringify _ _ _ _ _ _ _ _ _
              Hrun Htrace eq_refl)
    as (Hres & _ & _ & Hdisk & _).
  split; [|split].
  - rewrite Hrun at 1. rewrite Hres. reflexivity.
  - vm_compute. reflexivity.
  - exact Hdisk.
Defined.




Lemma push_entry_local_delete_at_gone :
  Fs.existsSync (disk Scenario.gone_refused) "/sync/gone.txt" = false ∧
  files (state Scenario.gone_refused) !! "gone.txt" = Some Scenario.gone_record ∧
  (∃ w', Scenario.push_entry "/sync/gone.txt" Scenario.gone_refused = (Ok tt, w') ∧
         files (state w') !! "gone.txt" = None ∧
         trace w' =
           [Remote "gone.txt" (DeleteFile "G1") (Threw (RemoteError "500"));
            ConsoleError "[push] Failed to delete gone.txt:" (RemoteError "500")]) ∧
  files (state (Scenario.push ["/sync/gone.txt"] Scenario.gone_refused).2)
    !! "gone.txt" = None.
Proof.
  split; [reflexivity|]. split; [reflexivity|].
  destruct (push_entry_local_delete Scripted.config Scripted.join Scripted.relative
              Scripted.getTime Scripted.stringify "/sync/gone.txt"
              Scenario.gone_refused Scenario.gone_record eq_refl eq_refl eq_refl)
    as [(w' & Hrun & _ & Hnone & _ & _ & _ & Htrace) Hbatch].
  split.
  - exists w'. split; [exact Hrun|]. split; [exact Hnone|exact Htrace].
  - apply (Hbatch ["/sync/gone.txt"]).
    + left.
    + intros abs' Hin _. apply list_elem_of_singleton in Hin as ->. reflexivity.
    + vm_compute. reflexivity.
Defined.

(** * The engine, further

    ** Frames

    [effect P D S] goes through the engine's primitives. *)

Section Frames.

Context {R : Type}.
Variable P : Event → Prop.
Variable D : Fs.t → Fs.t → Prop.
Variable S : SyncState → SyncState → Prop.
Context `{!PreOrder D} `{!PreOrder S}.

Lemma effect_preorder : PreOrder (effect (R := R) P D S).
Proof using Type*.
  split.
  - intros w. split; [|split; reflexivity].
    exists []. rewrite app_nil_r. split; [reflexivity|constructor].
  - intros a b c [(e1 & H1 & F1) [D1 S1]] [(e2 & H2 & F2) [D2 S2]].
    split; [|split; etransitivity; eassumption].
    exists (e1 ++ e2)%list. rewrite H2, H1, app_assoc.
    split; [reflexivity|]. apply Forall_app. auto.
Qed.

Lemma effect_put_state s :
  (∀ s0, S s0 s) → respects (effect P D S) (put_state s : M R unit).
Proof using Type*.
  intros Hs w r w' [= <- <-]. simpl. split; [|split; [reflexivity|apply Hs]].
  exists []. rewrite app_nil_r. split; [reflexivity|constructor].
Qed.

Lemma effect_update (f : SyncState → SyncState) :
  (∀ s, S s (f s)) →
  respects (effect P D S) (let* s := get_state in put_state (f s) : M R unit).
Proof using Type*.
  intros Hs w r w' [= <- <-]. simpl. split; [|split; [reflexivity|apply Hs]].
  exists []. rewrite app_nil_r. split; [reflexivity|constructor].
Qed.

Lemma effect_emit e : P e → respects (effect P D S) (emit e : M R unit).
Proof using Type*.
  intros He w r w' [= <- <-]. simpl. split; [|split; reflexivity].
  exists [e]. split; [reflexivity|]. repeat constructor. exact He.
Qed.

Lemma effect_call {A} record (op : R → Result A * R) file :
  (∀ o, P (record o)) → respects (effect P D S) (call record op file).
Proof using Type*.
  intros He w r w'. unfold call. destruct (op (remote w)) as [x r'].
  intros [= <- <-]. simpl. split; [|split; reflexivity].
  eexists [_]. split; [reflexivity|]. repeat constructor. apply He.
Qed.

Lemma effect_writeFileSync p c :
  P (WroteFile p c) → (∀ d d', Fs.writeFileSync d p c = Ok d' → D d d') →
  respects (effect P D S) (SyncEngine.writeFileSync p c : M R unit).
Proof using Type*.
  intros He Hd w r w'. unfold SyncEngine.writeFileSync. run.
  destruct (Fs.writeFileSync (disk w) p c) as [d'|e] eqn:E; intros [= <- <-]; simpl.
  - split; [|split; [eapply Hd, E|reflexivity]].
    exists [WroteFile p c]. split; [reflexivity|]. repeat constructor. exact He.
  - split; [|split; reflexivity].
    exists []. rewrite app_nil_r. split; [reflexivity|constructor].
Qed.

Lemma effect_mkdirSync p :
  P (MadeDir p) → (∀ d d', Fs.mkdirSync d p = Ok d' → D d d') →
  respects (effect P D S) (SyncEngine.mkdirSync p : M R unit).
Proof using Type*.
  intros He Hd w r w'. unfold SyncEngine.mkdirSync. run.
  destruct (Fs.mkdirSync (disk w) p) as [d'|e] eqn:E; intros [= <- <-]; simpl.
  - split; [|split; [eapply Hd, E|reflexivity]].
    exists [MadeDir p]. split; [reflexivity|]. repeat constructor. exact He.
  - split; [|split; reflexivity].
    exists []. rewrite app_nil_r. split; [reflexivity|constructor].
Qed.

End Frames.

#[local] Existing Instance effect_preorder.

Ltac effect_step P D S :=
  first
    [ apply (respects_ret (effect P D S)) | apply (respects_lift (effect P D S))
    | apply (respects_get_state (effect P D S))
    | apply (respects_get_disk (effect P D S))
    | apply (respects_bind (effect P D S)); [|intros ?] ].

#[local] Instance only_at_preorder p : PreOrder (only_at p).
Proof.
  split; [intros d q _; reflexivity|].
  intros a b c Hab Hbc q Hq. rewrite (Hbc q Hq). apply Hab, Hq.
Qed.

#[local] Instance keeps_entries_preorder : PreOrder keeps_entries.
Proof.
  split; [intros d p; split; auto|].
  intros a b c Hab Hbc p. destruct (Hab p), (Hbc p). split; auto.
Qed.

#[local] Instance folders_grow_preorder : PreOrder folders_grow.
Proof. split; [intros s p Hp; exact Hp|intros a b c Hab Hbc p Hp; auto]. Qed.

#[local] Instance cache_kept_preorder : PreOrder cache_kept.
Proof. split; [intros s p i Hp; exact Hp|intros a b c Hab Hbc p i Hp; auto]. Qed.

#[local] Instance any_state_preorder : PreOrder any_state.
Proof. split; [intros s; exact I|intros a b c _ _; exact I]. Qed.

Lemma only_at_writeFileSync p c d d' :
  Fs.writeFileSync d p c = Ok d' → only_at p d d'.
Proof.
  unfold Fs.writeFileSync. intros Hw q Hq.
  destruct (Fs.entries d !! p) as [[m c0|m]|]; try discriminate;
    injection Hw as <-; simpl; apply lookup_insert_ne; congruence.
Qed.

Lemma keeps_entries_insert_file d p m c :
  keeps_entries d {| Fs.entries := <[p := Fs.File m c]> (Fs.entries d);
                     Fs.now := Fs.now d |}.
Proof.
  intros q. simpl. unfold is_file. simpl.
  destruct (decide (q = p)) as [->|Hne].
  - rewrite lookup_insert_eq. split; eauto.
  - rewrite lookup_insert_ne by congruence. split; auto.
Qed.

Lemma keeps_entries_writeFileSync p c d d' :
  Fs.writeFileSync d p c = Ok d' → keeps_entries d d'.
Proof.
  unfold Fs.writeFileSync. intros Hw.
  destruct (Fs.entries d !! p) as [[m c0|m]|]; try discriminate;
    injection Hw as <-; apply keeps_entries_insert_file.
Qed.

Lemma keeps_entries_mkdirSync p d d' :
  Fs.mkdirSync d p = Ok d' → keeps_entries d d'.
Proof.
  unfold Fs.mkdirSync. intros Hw.
  destruct (Fs.entries d !! p) as [[m c0|m]|] eqn:E; try discriminate;
    injection Hw as <-; [reflexivity|].
  intros q. unfold is_file. simpl. destruct (decide (q = p)) as [->|Hne].
  - rewrite lookup_insert_eq, E. split; [eauto|]. intros (m & c & [=]).
  - rewrite lookup_insert_ne by congruence. split; auto.
Qed.

(** ** What [push] and [pull] may do *)

Section EngineFrames.

Context {R : Type} `{GDrive.Client R}.
Variable config : Config.Config.
Variable path_join : string -> string -> string.
Variable path_relative : string -> string -> string.
Variable getTime : string -> Z.
Variable JSON_stringify : SyncState -> string.

Abbreviation statePath := (SyncEngine.statePath config path_join).
Abbreviation push_entry := (SyncEngine.push_entry config path_relative getTime).
Abbreviation push :=
  (SyncEngine.push config path_join path_relative getTime JSON_stringify).
Abbreviation pull_entry := (SyncEngine.pull_entry config path_join getTime).
Abbreviation pull_missing := (SyncEngine.pull_missing config path_join).
Abbreviation pull :=
  (SyncEngine.pull config path_join getTime JSON_stringify).
Abbreviation saveState := (SyncEngine.saveState config path_join JSON_stringify).

Variable P : Event → Prop.
Variable D : Fs.t → Fs.t → Prop.
Variable S : SyncState → SyncState → Prop.
Context `{!PreOrder D} `{!PreOrder S}.

Hypothesis P_log : ∀ line, P (ConsoleLog line).
Hypothesis P_error : ∀ line e, P (ConsoleError line e).
Hypothesis S_set_file : ∀ s k f,
  S s {| files := <[k := f]> (files s); folders := folders s |}.
Hypothesis S_delete_file : ∀ s k,
  S s {| files := delete k (files s); folders := folders s |}.

Lemma effect_shouldDownloadFile rel lp rm :
  respects (effect P D S) (SyncEngine.shouldDownloadFile rel lp rm : M R Action).
Proof using P_log PreOrder0 PreOrder1.
  unfold SyncEngine.shouldDownloadFile, SyncEngine.existsSync, SyncEngine.statSync,
    SyncEngine.console_log.
  effect_step P D S; [effect_step P D S|].
  match goal with |- context [match ?x with _ => _ end] => destruct x end.
  - destruct (_ <=? _); [effect_step P D S|].
    effect_step P D S; [repeat effect_step P D S|].
    destruct (negb _); [effect_step P D S|].
    effect_step P D S; [repeat effect_step P D S|].
    destruct (_ <=? _); [effect_step P D S|]. destruct (_ >? _); [effect_step P D S|].
    effect_step P D S; [apply (effect_emit P D S), P_log|effect_step P D S].
  - effect_step P D S; [repeat effect_step P D S|].
    destruct (negb _); [effect_step P D S|].
    effect_step P D S; [repeat effect_step P D S|].
    destruct (_ >? _); [effect_step P D S|].
    effect_step P D S; [apply (effect_emit P D S), P_log|effect_step P D S].
Qed.

Section Push.

Hypothesis P_remote : ∀ subject c o,
  (∀ fileId, c ≠ DownloadFile fileId) → P (Remote subject c o).
Hypothesis P_saved : ∀ content, P (WroteFile statePath content).
Hypothesis D_saved : ∀ d content d',
  Fs.writeFileSync d statePath content = Ok d' → D d d'.
Hypothesis S_set_folder : ∀ s k i,
  SyncEngine.cached s k = None →
  S s {| files := files s; folders := <[k := i]> (folders s) |}.

Lemma effect_ensureFolder_loop parts : ∀ currentPath parentId,
  respects (effect P D S)
    (SyncEngine.ensureFolder_loop parts currentPath parentId : M R string).
Proof using P_remote S_set_folder PreOrder0 PreOrder1.
  induction parts as [|part parts IH]; intros currentPath parentId; simpl.
  - effect_step P D S.
  - effect_step P D S; [|apply IH].
    unfold SyncEngine.ensureFolder_step, SyncEngine.gdrive_findFolder,
      SyncEngine.gdrive_createFolder.
    intros w r w'. unfold bind at 1. unfold get_state at 1.
    destruct (SyncEngine.cached (state w) _) as [i|] eqn:Hc.
    { intros [= <- <-]. reflexivity. }
    revert w r w' Hc.
    assert (Hset : ∀ i (w : World R), SyncEngine.cached (state w) (SyncEngine.next_path currentPath part) = None →
      ∀ r w', (SyncEngine.set_folder (SyncEngine.next_path currentPath part) i ;;; ret i) w = (r, w') →
        effect P D S w w').
    { intros i w Hc r w' [= <- <-]. simpl. split; [|split; [reflexivity|apply S_set_folder, Hc]].
      exists []. rewrite app_nil_r. split; [reflexivity|constructor]. }
    intros w r w' Hc. unfold bind at 1.
    destruct (call _ _ _ w) as [[found|e] w1] eqn:E1.
    + assert (E1' := E1). apply (effect_call P D S) in E1;
        [|intros o; apply P_remote; discriminate].
      assert (Hs1 : state w1 = state w).
      { revert E1'. unfold call. destruct (GDrive.findFolder _ _ _). intros [= _ <-]. reflexivity. }
      destruct found as [found|].
      * intros Hrun. transitivity w1; [exact E1|].
        eapply Hset, Hrun. rewrite Hs1. exact Hc.
      * unfold bind at 1. destruct (call _ _ _ w1) as [[folder|e] w2] eqn:E2.
        -- assert (E2' := E2). apply (effect_call P D S) in E2;
             [|intros o; apply P_remote; discriminate].
           assert (Hs2 : state w2 = state w1).
           { revert E2'. unfold call. destruct (GDrive.createFolder _ _ _).
             intros [= _ <-]. reflexivity. }
           intros Hrun. transitivity w1; [exact E1|]. transitivity w2; [exact E2|].
           eapply Hset, Hrun. rewrite Hs2, Hs1. exact Hc.
        -- intros [= <- <-]. transitivity w1; [exact E1|].
           apply (effect_call P D S) in E2; [exact E2|].
           intros o; apply P_remote; discriminate.
    + intros [= <- <-]. apply (effect_call P D S) in E1; [exact E1|].
      intros o; apply P_remote; discriminate.
Qed.

Lemma effect_handleLocalDelete rel :
  respects (effect P D S) (SyncEngine.handleLocalDelete rel : M R unit).
Proof using P_remote P_log P_error S_delete_file PreOrder0 PreOrder1.
  unfold SyncEngine.handleLocalDelete, SyncEngine.gdrive_deleteFile,
    SyncEngine.console_log, SyncEngine.console_error, SyncEngine.delete_file.
  effect_step P D S; [effect_step P D S|].
  match goal with |- context [match ?x with _ => _ end] => destruct x end;
    [|effect_step P D S].
  effect_step P D S.
  - apply (respects_try_catch (effect P D S)).
    + effect_step P D S; [apply (effect_call P D S); intros o; apply P_remote; discriminate|].
      apply (effect_emit P D S), P_log.
    + intros e. apply (effect_emit P D S), P_error.
  - apply (effect_update P D S (λ s, {| files := delete rel (files s); folders := folders s |})).
    intros s. apply S_delete_file.
Qed.

Lemma effect_push_entry abs :
  respects (effect P D S) (push_entry abs : M R unit).
Proof using P_remote P_log P_error S_set_file S_delete_file S_set_folder
  PreOrder0 PreOrder1.
  unfold SyncEngine.push_entry, SyncEngine.existsSync, SyncEngine.statSync,
    SyncEngine.readFileSync, SyncEngine.gdrive_updateFile,
    SyncEngine.gdrive_uploadFile, SyncEngine.console_log,
    SyncEngine.ensureFolderExists.
  destruct (SyncEngine.isExcluded _); [effect_step P D S|].
  effect_step P D S; [repeat effect_step P D S|].
  destruct (negb _); [apply effect_handleLocalDelete|].
  effect_step P D S; [repeat effect_step P D S|].
  destruct (Fs.isDirectory _); [effect_step P D S|].
  effect_step P D S; [repeat effect_step P D S|].
  effect_step P D S; [repeat effect_step P D S|].
  match goal with |- context [match ?x with _ => _ end] => destruct x end.
  - effect_step P D S; [apply (effect_call P D S); intros o; apply P_remote; discriminate|].
    effect_step P D S; [|apply (effect_emit P D S), P_log].
    unfold SyncEngine.set_file.
    apply (effect_update P D S (λ s, {| files := <[_ := _]> (files s); folders := folders s |})).
    intros s. apply S_set_file.
  - effect_step P D S.
    { destruct (String.eqb _ _); [effect_step P D S|apply effect_ensureFolder_loop]. }
    effect_step P D S; [apply (effect_call P D S); intros o; apply P_remote; discriminate|].
    effect_step P D S; [|apply (effect_emit P D S), P_log].
    unfold SyncEngine.set_file.
    apply (effect_update P D S (λ s, {| files := <[_ := _]> (files s); folders := folders s |})).
    intros s. apply S_set_file.
Qed.

Lemma effect_push l : respects (effect P D S) (push l : M R unit).
Proof using P_remote P_log P_error P_saved D_saved S_set_file S_delete_file
  S_set_folder PreOrder0 PreOrder1.
  unfold SyncEngine.push. effect_step P D S.
  - apply (respects_for_each (effect P D S)). intros x _. apply effect_push_entry.
  - unfold SyncEngine.saveState. effect_step P D S; [effect_step P D S|].
    apply (effect_writeFileSync P D S); [apply P_saved|intros d d'; apply D_saved].
Qed.

End Push.

Section Pull.

Hypothesis P_listed : ∀ folderId o, P (Listed folderId o).
Hypothesis P_download : ∀ subject fileId o, P (Remote subject (DownloadFile fileId) o).
Hypothesis P_wrote : ∀ p content, P (WroteFile p content).
Hypothesis P_made : ∀ p, P (MadeDir p).
Hypothesis D_wrote : ∀ d p content d', Fs.writeFileSync d p content = Ok d' → D d d'.
Hypothesis D_made : ∀ d p d', Fs.mkdirSync d p = Ok d' → D d d'.
Hypothesis S_put_folder : ∀ s k i,
  S s {| files := files s; folders := <[k := i]> (folders s) |}.

Lemma effect_pull_entry b entry :
  respects (effect P D S) (pull_entry b entry : M R (list string)).
Proof using P_log P_download P_wrote P_made D_wrote D_made S_set_file
  PreOrder0 PreOrder1.
  destruct entry as [rel remoteFile]. unfold SyncEngine.pull_entry.
  destruct (SyncEngine.isExcluded rel); [effect_step P D S|].
  destruct (String.prefix _ _); [effect_step P D S|].
  effect_step P D S; [apply effect_shouldDownloadFile|].
  unfold SyncEngine.gdrive_downloadFile, SyncEngine.statSync, SyncEngine.console_log,
    SyncEngine.set_file.
  match goal with |- context [match ?x with _ => _ end] => destruct x end.
  - effect_step P D S; [apply (effect_call P D S); intros o; apply P_download|].
    effect_step P D S; [apply (effect_mkdirSync P D S); [apply P_made|intros d d'; apply D_made]|].
    effect_step P D S; [apply (effect_writeFileSync P D S); [apply P_wrote|intros d d'; apply D_wrote]|].
    effect_step P D S; [repeat effect_step P D S|].
    effect_step P D S.
    { apply (effect_update P D S (λ s, {| files := <[_ := _]> (files s); folders := folders s |})).
      intros s. apply S_set_file. }
    effect_step P D S; [apply (effect_emit P D S), P_log|effect_step P D S].
  - effect_step P D S.
  - effect_step P D S; [repeat effect_step P D S|].
    effect_step P D S; [|effect_step P D S].
    apply (effect_update P D S (λ s, {| files := <[_ := _]> (files s); folders := folders s |})).
    intros s. apply S_set_file.
Qed.

Lemma effect_pull : respects (effect P D S) (pull : M R (list string)).
Proof using P_log P_listed P_download P_wrote P_made D_wrote D_made S_set_file
  S_delete_file S_put_folder PreOrder0 PreOrder1.
  unfold SyncEngine.pull, SyncEngine.console_log,
    SyncEngine.gdrive_listFilesRecursive.
  effect_step P D S; [apply (effect_emit P D S), P_log|].
  effect_step P D S; [apply (effect_call P D S); intros o; apply P_listed|].
  effect_step P D S.
  { apply (respects_for_each (effect P D S)). intros [rel file] _.
    unfold SyncEngine.pull_folder. destruct (String.eqb _ _); [|effect_step P D S].
    unfold SyncEngine.set_folder.
    apply (effect_update P D S (λ s, {| files := files s; folders := <[_ := _]> (folders s) |})).
    intros s. apply S_put_folder. }
  effect_step P D S.
  { apply (respects_fold_m (effect P D S)). intros b x _. apply effect_pull_entry. }
  effect_step P D S; [effect_step P D S|].
  effect_step P D S.
  { apply (respects_fold_m (effect P D S)). intros b x _. unfold SyncEngine.pull_missing.
    destruct (SyncEngine.has _ _); [effect_step P D S|].
    unfold SyncEngine.existsSync, SyncEngine.console_log, SyncEngine.delete_file.
    effect_step P D S; [repeat effect_step P D S|].
    match goal with |- context [if ?b then _ else _] => destruct b end.
    - effect_step P D S.
      { apply (effect_update P D S (λ s, {| files := delete _ (files s); folders := folders s |})).
        intros s. apply S_delete_file. }
      effect_step P D S; [apply (effect_emit P D S), P_log|effect_step P D S].
    - effect_step P D S; [|effect_step P D S].
      apply (effect_update P D S (λ s, {| files := delete _ (files s); folders := folders s |})).
      intros s. apply S_delete_file. }
  effect_step P D S.
  { unfold SyncEngine.saveState. effect_step P D S; [effect_step P D S|].
    apply (effect_writeFileSync P D S); [apply P_wrote|intros d d'; apply D_wrote]. }
  effect_step P D S; [apply (effect_emit P D S), P_log|effect_step P D S].
Qed.

End Pull.

End EngineFrames.

Section Further.

Context {R : Type} `{GDrive.Client R}.
Variable config : Config.Config.
Variable path_join : string -> string -> string.
Variable path_relative : string -> string -> string.
Variable getTime : string -> Z.
Variable JSON_stringify : SyncState -> string.

Abbreviation statePath := (SyncEngine.statePath config path_join).
Abbreviation isExcluded := SyncEngine.isExcluded.
Abbreviation getRelativePath := (SyncEngine.getRelativePath config path_relative).
Abbreviation shouldDownloadFile := SyncEngine.shouldDownloadFile.
Abbreviation ensureFolderExists := (SyncEngine.ensureFolderExists config).
Abbreviation push_entry := (SyncEngine.push_entry config path_relative getTime).
Abbreviation push :=
  (SyncEngine.push config path_join path_relative getTime JSON_stringify).
Abbreviation pull_entry := (SyncEngine.pull_entry config path_join getTime).
Abbreviation pull_missing := (SyncEngine.pull_missing config path_join).
Abbreviation pull :=
  (SyncEngine.pull config path_join getTime JSON_stringify).
Abbreviation saveState := (SyncEngine.saveState config path_join JSON_stringify).

(** *** One-way traffic *)

(** X1.  Whatever it is given and however it ends, [push] itself never
    asks for a listing or a download and never calls [mkdirSync], and the
    only [writeFileSync] it makes is that of the state file.  (This is
    said of the engine's own calls; a token refresh inside a remote call
    is the client's.) *)
Theorem push_only_pushes l (w : World R) :
  ∃ evs, trace (push l w).2 = (trace w ++ evs)%list ∧
    Forall (is_push_event statePath) evs.
Proof using Type.
  destruct (push l w) as [r w'] eqn:E. simpl.
  assert (Hpush : respects (effect (is_push_event statePath) (only_at statePath) any_state)
                    (push l : M R unit)).
  { apply (effect_push config path_join path_relative getTime JSON_stringify
             (is_push_event statePath) (only_at statePath) any_state);
      try (intros; exact I).
    - intros subject c o Hc. destruct c; try exact I. destruct (Hc fileId eq_refl).
    - intros content. reflexivity.
    - intros d content d'. apply only_at_writeFileSync. }
  destruct (Hpush _ _ _ E) as ((evs & Ht & Hev) & _).
  exists evs. auto.
Qed.

(** X2.  Whatever the remote answers and however it ends, the only remote
    calls [pull] makes besides the listing are downloads; it takes no entry
    off the disk, and a regular file of the disk is one afterwards. *)
Theorem pull_only_downloads (w : World R) :
  ∃ evs, trace (pull w).2 = (trace w ++ evs)%list ∧
    Forall is_pull_event evs ∧
    ∀ p, (is_Some (Fs.entries (disk w) !! p) →
          is_Some (Fs.entries (disk (pull w).2) !! p)) ∧
         (is_file (disk w) p → is_file (disk (pull w).2) p).
Proof using Type.
  destruct (pull w) as [r w'] eqn:E. simpl.
  assert (Hpull : respects (effect is_pull_event keeps_entries any_state)
                    (pull : M R (list string))).
  { apply (effect_pull config path_join getTime JSON_stringify
             is_pull_event keeps_entries any_state);
      try (intros; exact I).
    - intros d p content d'. apply keeps_entries_writeFileSync.
    - intros d p d'. apply keeps_entries_mkdirSync. }
  destruct (Hpull _ _ _ E) as ((evs & Ht & Hev) & Hd & _).
  exists evs. auto.
Qed.

(** X3.  No key ever leaves [folders], in [push] or in [pull]; and [push]
    leaves every id the resolver would take from [folders] as it is. *)
Theorem folders_never_shrink l (w : World R) :
  (∀ p, is_Some (folders (state w) !! p) →
        is_Some (folders (state (push l w).2) !! p)) ∧
  (∀ p i, SyncEngine.cached (state w) p = Some i →
          SyncEngine.cached (state (push l w).2) p = Some i) ∧
  (∀ p, is_Some (folders (state w) !! p) →
        is_Some (folders (state (pull w).2) !! p)).
Proof using Type.
  assert (Hgrow : ∀ s k i,
    folders_grow s {| files := files s; folders := <[k := i]> (folders s) |}).
  { intros s k i p Hp. simpl. destruct (decide (p = k)) as [->|Hne].
    - rewrite lookup_insert_eq. eauto.
    - rewrite lookup_insert_ne by congruence. exact Hp. }
  split; [|split].
  - destruct (push l w) as [r w'] eqn:E. simpl.
    assert (Hpush : respects (effect (is_push_event statePath) (only_at statePath)
                                folders_grow) (push l : M R unit)).
    { apply (effect_push config path_join path_relative getTime JSON_stringify
               (is_push_event statePath) (only_at statePath) folders_grow);
        try (intros; exact I).
      - intros s k f p Hp. exact Hp.
      - intros s k p Hp. exact Hp.
      - intros subject c o Hc. destruct c; try exact I. destruct (Hc fileId eq_refl).
      - intros content. reflexivity.
      - intros d content d'. apply only_at_writeFileSync.
      - intros s k i _. apply Hgrow. }
    destruct (Hpush _ _ _ E) as (_ & _ & Hs). exact Hs.
  - destruct (push l w) as [r w'] eqn:E. simpl.
    assert (Hpush : respects (effect (is_push_event statePath) (only_at statePath)
                                cache_kept) (push l : M R unit)).
    { apply (effect_push config path_join path_relative getTime JSON_stringify
               (is_push_event statePath) (only_at statePath) cache_kept);
        try (intros; exact I).
      - intros s k f p i Hp. exact Hp.
      - intros s k p i Hp. exact Hp.
      - intros subject c o Hc. destruct c; try exact I. destruct (Hc fileId eq_refl).
      - intros content. reflexivity.
      - intros d content d'. apply only_at_writeFileSync.
      - intros s k i Hk p j Hp. apply cached_set_folder_other; assumption. }
    destruct (Hpush _ _ _ E) as (_ & _ & Hs). exact Hs.
  - destruct (pull w) as [r w'] eqn:E. simpl.
    assert (Hpull : respects (effect is_pull_event keeps_entries folders_grow)
                      (pull : M R (list string))).
    { apply (effect_pull config path_join getTime JSON_stringify
               is_pull_event keeps_entries folders_grow);
        try (intros; exact I).
      - intros s k f p Hp. exact Hp.
      - intros s k p Hp. exact Hp.
      - intros d p content d'. apply keeps_entries_writeFileSync.
      - intros d p d'. apply keeps_entries_mkdirSync.
      - apply Hgrow. }
    destruct (Hpull _ _ _ E) as (_ & _ & Hs). exact Hs.
Qed.

(** *** Saving *)

(** [saveState] that returns has written the serialised state. *)
Lemma saveState_Ok (w w' : World R) :
  saveState w = (Ok tt, w') →
  state w' = state w ∧
  ∃ m, Fs.entries (disk w') !! statePath
       = Some (Fs.File m (JSON_stringify (state w))).
Proof using Type.
  unfold SyncEngine.saveState, SyncEngine.writeFileSync, Fs.writeFileSync. run.
  destruct (Fs.entries (disk w) !! statePath) as [[m c|m]|];
    intros [= <-]; simpl; (split; [reflexivity|]); eexists;
    apply lookup_insert_eq.
Qed.

(** X4.  When [push] returns, the state file holds the serialisation of
    the state the engine then has in memory. *)
Theorem push_saves_state l (w w' : World R) :
  push l w = (Ok tt, w') →
  ∃ m, Fs.entries (disk w') !! statePath
       = Some (Fs.File m (JSON_stringify (state w'))).
Proof using Type.
  unfold SyncEngine.push. intros Hrun.
  apply bind_Ok_inv in Hrun as ([] & w1 & _ & Hsave).
  apply saveState_Ok in Hsave as [-> Hfile]. exact Hfile.
Qed.

(** X5.  When [pull] returns, the state file holds the serialisation of
    the state the engine then has in memory. *)
Theorem pull_saves_state (w w' : World R) batch :
  pull w = (Ok batch, w') →
  ∃ m, Fs.entries (disk w') !! statePath
       = Some (Fs.File m (JSON_stringify (state w'))).
Proof using Type.
  unfold SyncEngine.pull. intros Hrun.
  apply bind_Ok_inv in Hrun as ([] & w0 & _ & Hrun).
  apply bind_Ok_inv in Hrun as (rf & w1 & _ & Hrun).
  apply bind_Ok_inv in Hrun as ([] & w2 & _ & Hrun).
  apply bind_Ok_inv in Hrun as (b1 & w3 & _ & Hrun).
  apply bind_Ok_inv in Hrun as (s & w3' & _ & Hrun).
  apply bind_Ok_inv in Hrun as (b2 & w4 & _ & Hrun).
  apply bind_Ok_inv in Hrun as ([] & w5 & Hsave & Hrun).
  apply bind_Ok_inv in Hrun as ([] & w6 & Hlog & Hrun).
  injection Hrun as <- <-. injection Hlog as <-. simpl.
  apply saveState_Ok in Hsave as [-> Hfile]. exact Hfile.
Qed.

(** *** A remote call that throws ends [pull] *)

Lemma stops_silent {A} (m : M R A) :
  (∀ w r w', m w = (r, w') → trace w' = trace w) → stops_at_throw m.
Proof using Type.
  intros Hm w r w' Hrun. exists []. rewrite app_nil_r.
  split; [eapply Hm, Hrun|]. left. constructor.
Qed.

Lemma stops_ret {A} (a : A) : stops_at_throw (ret a : M R A).
Proof using Type. apply stops_silent. intros w r w' [= <- <-]. reflexivity. Qed.

Lemma stops_lift {A} (x : Result A) : stops_at_throw (lift x : M R A).
Proof using Type. apply stops_silent. intros w r w' [= <- <-]. reflexivity. Qed.

Lemma stops_get_state : stops_at_throw (get_state : M R SyncState).
Proof using Type. apply stops_silent. intros w r w' [= <- <-]. reflexivity. Qed.

Lemma stops_get_disk : stops_at_throw (get_disk : M R Fs.t).
Proof using Type. apply stops_silent. intros w r w' [= <- <-]. reflexivity. Qed.

Lemma stops_put_state s : stops_at_throw (put_state s : M R unit).
Proof using Type. apply stops_silent. intros w r w' [= <- <-]. reflexivity. Qed.

Lemma stops_put_disk d : stops_at_throw (put_disk d : M R unit).
Proof using Type. apply stops_silent. intros w r w' [= <- <-]. reflexivity. Qed.

Lemma stops_emit x : is_thrown x = false → stops_at_throw (emit x : M R unit).
Proof using Type.
  intros Hx w r w' [= <- <-]. exists [x]. split; [reflexivity|].
  left. repeat constructor. exact Hx.
Qed.

Lemma stops_call {A} record (op : R → Result A * R) file :
  (∀ f, is_thrown (record (Returned f)) = false) →
  (∀ e, thrown_by (record (Threw e)) e) →
  stops_at_throw (call record op file).
Proof using Type.
  intros Hok Hthrow w r w'. unfold call.
  destruct (op (remote w)) as [[a|e] r']; intros [= <- <-]; simpl;
    eexists [_]; (split; [reflexivity|]).
  - left. repeat constructor. apply Hok.
  - right. exists e, [], (record (Threw e)). repeat split; [constructor|apply Hthrow].
Qed.

Lemma stops_bind {A B} (m : M R A) (k : A → M R B) :
  stops_at_throw m → (∀ a, stops_at_throw (k a)) → stops_at_throw (bind m k).
Proof using Type.
  intros Hm Hk w r w'. unfold bind.
  destruct (m w) as [[a|e] w1] eqn:E; intros Hr.
  - destruct (Hm _ _ _ E) as (evs1 & Ht1 & [Hq1|(e & ? & ? & [=] & _)]).
    destruct (Hk _ _ _ _ Hr) as (evs2 & Ht2 & Hcase).
    exists (evs1 ++ evs2)%list. rewrite Ht2, Ht1, app_assoc.
    split; [reflexivity|].
    destruct Hcase as [Hq2|(e & evs0 & x & -> & -> & Hq0 & Hx)].
    + left. apply Forall_app. auto.
    + right. exists e, (evs1 ++ evs0)%list, x. rewrite app_assoc.
      repeat split; [apply Forall_app; auto|exact Hx].
  - injection Hr as <- <-.
    destruct (Hm _ _ _ E) as (evs1 & Ht1 & Hcase).
    exists evs1. split; [exact Ht1|].
    destruct Hcase as [Hq|(e' & evs0 & x & [= <-] & -> & Hq0 & Hx)].
    + left. exact Hq.
    + right. exists e, evs0, x. auto.
Qed.

Lemma stops_for_each {A} (l : list A) (body : A → M R unit) :
  (∀ x, stops_at_throw (body x)) → stops_at_throw (for_each l body).
Proof using Type.
  intros Hbody. induction l as [|x l IH]; simpl.
  - apply stops_ret.
  - apply stops_bind; auto.
Qed.

Lemma stops_fold_m {A B} (body : B → A → M R B) (l : list A) : ∀ b,
  (∀ b x, stops_at_throw (body b x)) → stops_at_throw (fold_m body l b).
Proof using Type.
  induction l as [|x l IH]; intros b Hbody; simpl.
  - apply stops_ret.
  - apply stops_bind; auto.
Qed.

Ltac stops_step :=
  first
    [ apply stops_ret | apply stops_lift | apply stops_get_state
    | apply stops_get_disk | apply stops_put_state | apply stops_put_disk
    | apply stops_emit; reflexivity
    | apply stops_call; [intros ?; reflexivity|intros ?; right; eauto]
    | apply stops_bind; [|intros ?] ].

Lemma stops_pull_entry b entry :
  stops_at_throw (pull_entry b entry : M R (list string)).
Proof using Type.
  destruct entry as [rel remoteFile]. unfold SyncEngine.pull_entry.
  destruct (isExcluded rel); [stops_step|].
  destruct (String.prefix _ _); [stops_step|].
  stops_step.
  { intros w r w' Hrun.
    destruct (shouldDownloadFile_grows rel (path_join (Config.localPath config) rel)
                (getTime (GDrive.modifiedTime remoteFile)) w)
      as (a & w1 & evs & Hdec & _ & _ & _ & Ht & Hev).
    rewrite Hdec in Hrun. injection Hrun as <- <-.
    exists evs. split; [exact Ht|]. left. apply Forall_forall.
    intros x Hx. destruct (Hev x Hx) as [line ->]. reflexivity. }
  unfold SyncEngine.gdrive_downloadFile, SyncEngine.mkdirSync,
    SyncEngine.writeFileSync, SyncEngine.statSync, SyncEngine.set_file,
    SyncEngine.console_log.
  match goal with |- context [match ?x with _ => _ end] => destruct x end;
    repeat stops_step.
Qed.

Lemma stops_pull : stops_at_throw (pull : M R (list string)).
Proof using Type.
  unfold SyncEngine.pull, SyncEngine.console_log,
    SyncEngine.gdrive_listFilesRecursive.
  stops_step; [stops_step|].
  stops_step.
  { apply stops_call; [intros ?; reflexivity|intros ?; left; eauto]. }
  stops_step.
  { apply stops_for_each. intros [rel file]. unfold SyncEngine.pull_folder,
      SyncEngine.set_folder. destruct (String.eqb _ _); repeat stops_step. }
  stops_step.
  { apply stops_fold_m. intros b x. apply stops_pull_entry. }
  stops_step; [stops_step|].
  stops_step.
  { apply stops_fold_m. intros b x. unfold SyncEngine.pull_missing,
      SyncEngine.existsSync, SyncEngine.delete_file, SyncEngine.console_log.
    destruct (SyncEngine.has _ _); [stops_step|].
    stops_step; [repeat stops_step|].
    match goal with |- context [if ?b then _ else _] => destruct b end;
      repeat stops_step. }
  stops_step.
  { unfold SyncEngine.saveState, SyncEngine.writeFileSync. repeat stops_step. }
  repeat stops_step.
Qed.

Lemma last_thrown (before after evs0 : list Event) x y :
  (before ++ x :: after = evs0 ++ [y])%list →
  Forall (λ x, is_thrown x = false) evs0 → is_thrown x = true →
  after = [] ∧ x = y ∧ before = evs0.
Proof using Type.
  clear. intros Heq Hq Hx.
  destruct after as [|z after] using rev_ind.
  - apply app_inj_tail in Heq as [-> ->]. auto.
  - clear IHafter. change (before ++ x :: after ++ [z])%list
      with (before ++ (x :: after) ++ [z])%list in Heq.
    rewrite app_assoc in Heq. apply app_inj_tail in Heq as [<- _].
    rewrite Forall_app, Forall_cons in Hq. destruct Hq as (_ & Hx' & _).
    congruence.
Qed.

(** X6.  In [pull], a remote call that throws, be it the listing or a
    download, is the last thing the engine does: [pull] throws that
    error, what came before it in the trace holds no failed call, and
    nothing follows it, so that no further entry is looked at and the
    state is not saved. *)
Theorem pull_aborts_on_throw (w : World R) r w' before x after :
  pull w = (r, w') →
  trace w' = (trace w ++ before ++ x :: after)%list →
  is_thrown x = true →
  after = [] ∧ Forall (λ y, is_thrown y = false) before ∧
  ∃ e, r = Throw e ∧ thrown_by x e.
Proof using Type.
  intros Hrun Ht Hx.
  destruct (stops_pull _ _ _ Hrun) as (evs & Ht' & Hcase).
  rewrite Ht' in Ht. apply app_inv_head in Ht. subst evs.
  destruct Hcase as [Hq|(e & evs0 & y & -> & Heq & Hq & Hy)].
  - rewrite Forall_app, Forall_cons in Hq. destruct Hq as (_ & Hx' & _).
    congruence.
  - destruct (last_thrown _ _ _ _ _ Heq Hq Hx) as (-> & -> & ->).
    split; [reflexivity|]. split; [exact Hq|]. eauto.
Qed.

(** *** Paths with nothing to push *)

Lemma push_entry_skips abs (w : World R) :
  nothing_to_push getRelativePath w abs → push_entry abs w = (Ok tt, w).
Proof using Type.
  unfold SyncEngine.push_entry, SyncEngine.existsSync, SyncEngine.statSync,
    SyncEngine.handleLocalDelete, Fs.existsSync, Fs.statSync.
  intros [Hex|[[m Hdir]|(Hgone & Hnew & _)]].
  - rewrite Hex. reflexivity.
  - destruct (isExcluded _); [reflexivity|]. run.
    repeat (rewrite Hdir; simpl). reflexivity.
  - destruct (isExcluded _); [reflexivity|]. run.
    repeat (rewrite Hgone; simpl). rewrite Hnew. reflexivity.
Qed.

(** X7.  A batch in which every path is excluded, a directory, or neither
    on the disk nor tracked (and, in that last case, not named as a
    property that every object inherits, which the lookup in [files]
    would find), makes [push] do nothing but save the state. *)
Theorem push_nothing l (w : World R) :
  (∀ abs, abs ∈ l → nothing_to_push getRelativePath w abs) →
  push l w = saveState w.
Proof using Type.
  intros Hl. unfold SyncEngine.push.
  assert (Hloop : for_each l push_entry w = (Ok tt, w)).
  { induction l as [|x l IH]; [reflexivity|]. simpl. unfold bind at 1.
    rewrite push_entry_skips by (apply Hl; left). apply IH.
    intros abs Habs. apply Hl. right. exact Habs. }
  unfold bind at 1. rewrite Hloop. reflexivity.
Qed.


(** *** The folder resolver, asked twice *)

(** A step that returns leaves its path in [folders], under the id it
    returns, when the ids the remote returned are not empty. *)
Lemma ensureFolder_step_caches p part parent (w w1 : World R) i :
  SyncEngine.ensureFolder_step p part parent w = (Ok i, w1) →
  (∀ q c f, Remote q c (Returned (Some f)) ∈ trace w1 →
            SyncEngine.truthy (GDrive.id f) = true) →
  SyncEngine.cached (state w1) p = Some i.
Proof using Type.
  unfold SyncEngine.ensureFolder_step. unfold bind at 1. unfold get_state at 1.
  destruct (SyncEngine.cached (state w) p) as [j|] eqn:Hc.
  { intros [= <- <-] _. exact Hc. }
  unfold SyncEngine.gdrive_findFolder, SyncEngine.gdrive_createFolder,
    SyncEngine.set_folder. run.
  destruct (GDrive.findFolder part parent (remote w)) as [[[found|]|e] r1]; simpl.
  - intros [= <- <-] Hids. unfold SyncEngine.cached. simpl.
    rewrite lookup_insert_eq, (Hids p (FindFolder part parent) found); [reflexivity|].
    simpl. apply elem_of_app. right. left.
  - destruct (GDrive.createFolder part parent r1) as [[folder|e] r2]; simpl;
      [|discriminate].
    intros [= <- <-] Hids. unfold SyncEngine.cached. simpl.
    rewrite lookup_insert_eq, (Hids p (CreateFolder part parent) folder); [reflexivity|].
    simpl. apply elem_of_app. right. left.
  - discriminate.
Qed.

Lemma ensureFolder_loop_settles parts : ∀ currentPath parent (w : World R) i w',
  SyncEngine.ensureFolder_loop parts currentPath parent w = (Ok i, w') →
  (∀ q c f, Remote q c (Returned (Some f)) ∈ trace w' →
            SyncEngine.truthy (GDrive.id f) = true) →
  (∀ p, p ∈ cumulative parts currentPath →
        is_Some (SyncEngine.cached (state w') p)) ∧
  match last (cumulative parts currentPath) with
  | Some p => SyncEngine.cached (state w') p = Some i
  | None => i = parent
  end.
Proof using Type.
  induction parts as [|part parts IH]; intros currentPath parent w i w' Hrun Hids.
  - injection Hrun as <- <-. split; [intros p Hp; inversion Hp|reflexivity].
  - simpl in Hrun. apply bind_Ok_inv in Hrun as (j & w1 & Hstep & Hrun).
    destruct (ensureFolder_loop_spec _ _ _ _ _ _ Hrun) as (Hkeep & evs & Ht & _).
    assert (Hj : SyncEngine.cached (state w1) (SyncEngine.next_path currentPath part)
                 = Some j).
    { eapply ensureFolder_step_caches; [exact Hstep|].
      intros q c f Hin. apply (Hids q c f). rewrite Ht. apply elem_of_app. auto. }
    destruct (IH _ _ _ _ _ Hrun Hids) as [Hall Hlast].
    simpl. split.
    + intros p Hp. apply elem_of_cons in Hp as [->|Hp]; [|auto].
      exists j. apply Hkeep, Hj.
    + rewrite last_cons. destruct (last (cumulative parts _)) as [p|];
        [exact Hlast|]. subst i. apply Hkeep, Hj.
Qed.

(** X8.  Once [ensureFolderExists] has returned an id for a directory, and
    provided no remote call has returned a file with an empty id, asking
    again returns the same id without a remote call and without touching
    anything. *)
Theorem ensureFolderExists_twice dir (w w' : World R) i :
  ensureFolderExists dir w = (Ok i, w') →
  (∀ q c f, Remote q c (Returned (Some f)) ∈ trace w' →
            SyncEngine.truthy (GDrive.id f) = true) →
  ensureFolderExists dir w' = (Ok i, w').
Proof using Type.
  unfold SyncEngine.ensureFolderExists. intros Hrun Hids.
  destruct (ensureFolder_loop_settles _ _ _ _ _ _ Hrun Hids) as [Hall Hlast].
  destruct (ensureFolder_loop_cached (Path.split dir) "" (Config.gdriveFolderId config)
              w' Hall) as (i' & Hagain & Hlast').
  rewrite Hagain. destruct (last (cumulative (Path.split dir) "")) as [p|].
  - rewrite Hlast in Hlast'. injection Hlast' as <-. reflexivity.
  - subst. reflexivity.
Qed.

(** *** Pulling twice *)

Lemma shouldDownloadFile_skip_inv rel lp rm (w w1 : World R) :
  shouldDownloadFile rel lp rm w = (Ok Skip, w1) →
  ∃ existing, files (state w) !! rel = Some existing ∧ rm ≤ gdriveMtime existing.
Proof using Type.
  unfold SyncEngine.shouldDownloadFile, SyncEngine.existsSync,
    SyncEngine.statSync, SyncEngine.console_log, Fs.existsSync, Fs.statSync.
  run.
  destruct (files (state w) !! rel) as [existing|].
  - destruct (rm <=? gdriveMtime existing) eqn:Hle.
    + intros _. exists existing. split; [reflexivity|]. apply Z.leb_le, Hle.
    + destruct (Fs.entries (disk w) !! lp) as [stats|]; simpl; [|discriminate].
      repeat match goal with
             | |- context [match ?x with _ => _ end] => destruct x; simpl
             end; discriminate.
  - destruct (Fs.entries (disk w) !! lp) as [stats|]; simpl; [|discriminate].
    repeat match goal with
           | |- context [match ?x with _ => _ end] => destruct x; simpl
           end; discriminate.
Qed.

(** X9.  Once [pull] has dealt with an entry of the listing, in whichever
    way, dealing with the same entry again does nothing for as long as the
    record of the path stays what it is: no download, no change of state,
    and a file found newer locally is not handed back a second time. *)
Theorem pull_entry_settles b rel remoteFile (w w1 : World R) b' :
  pull_entry b (rel, remoteFile) w = (Ok b', w1) →
  ∀ (w2 : World R) b2,
    files (state w2) !! rel = files (state w1) !! rel →
    pull_entry b2 (rel, remoteFile) w2 = (Ok b2, w2).
Proof using Type.
  intros Hrun w2 b2 Hsame.
  destruct (isExcluded rel) eqn:Hex.
  { unfold SyncEngine.pull_entry. rewrite Hex. reflexivity. }
  destruct (String.prefix GDrive.NATIVE_PREFIX (GDrive.mimeType remoteFile)) eqn:Hnat.
  { unfold SyncEngine.pull_entry. rewrite Hex, Hnat. reflexivity. }
  assert (Hrec : ∃ record, files (state w1) !! rel = Some record ∧
                   getTime (GDrive.modifiedTime remoteFile) ≤ gdriveMtime record).
  { revert Hrun. unfold SyncEngine.pull_entry. rewrite Hex, Hnat. intros Hrun.
    apply bind_Ok_inv in Hrun as (action & w0 & Hdec & Hrun).
    destruct action.
    - apply bind_Ok_inv in Hrun as (content & wa & Ha & Hrun).
      apply bind_Ok_inv in Hrun as ([] & wb & Hb & Hrun).
      apply bind_Ok_inv in Hrun as ([] & wc & Hc & Hrun).
      apply bind_Ok_inv in Hrun as (stats & wd & Hd & Hrun).
      apply bind_Ok_inv in Hrun as ([] & we & He & Hrun).
      apply bind_Ok_inv in Hrun as ([] & wf & Hf & Hrun).
      injection Hrun as <- <-. injection Hf as <-. injection He as <-. simpl.
      rewrite lookup_insert_eq. eexists. split; [reflexivity|]. simpl. lia.
    - injection Hrun as <- <-.
      destruct (shouldDownloadFile_grows rel
                  (path_join (Config.localPath config) rel)
                  (getTime (GDrive.modifiedTime remoteFile)) w)
        as (a' & w0' & evs & Hdec' & Hs0 & _).
      rewrite Hdec in Hdec'. injection Hdec' as <- <-. rewrite Hs0.
      eapply shouldDownloadFile_skip_inv, Hdec.
    - apply bind_Ok_inv in Hrun as (stats & wd & Hd & Hrun).
      apply bind_Ok_inv in Hrun as ([] & we & He & Hrun).
      injection Hrun as <- <-. injection He as <-. simpl.
      rewrite lookup_insert_eq. eexists. split; [reflexivity|]. simpl. lia. }
  destruct Hrec as (record & Hrec & Hle).
  eapply pull_entry_skip; [exact Hex| |exact Hle]. rewrite Hsame. exact Hrec.
Qed.

(** *** A download comes back as an update *)



(** *** A poll cycle puts back what the remote lost *)


#[local] Existing Instance bystander_preorder.






(** *** The watcher's timers *)

(** X12.  [flush] and the poll tick never throw.  [flush] empties the
    pending set before it pushes: when the push throws, the failure goes to
    the console and the paths of the batch are pending no more. *)
Theorem timers_never_throw st (w : World R) :
  (∃ u, (Watcher.pollTick config path_join path_relative getTime JSON_stringify w).1
        = Ok u) ∧
  (∃ st', (Watcher.flush config path_join path_relative getTime JSON_stringify st w).1
          = Ok st' ∧
     (Watcher.pendingChanges st ≠ [] → Watcher.pendingChanges st' = []) ∧
     ∀ e w1, Watcher.pendingChanges st ≠ [] →
       push (Watcher.pendingChanges st) w = (Throw e, w1) →
       (Watcher.flush config path_join path_relative getTime JSON_stringify st w).2
       = {| state := state w1; disk := disk w1; remote := remote w1;
            trace := (trace w1 ++ [ConsoleError "[watch] Push failed:" e])%list |}).
Proof using Type.
  split.
  - unfold Watcher.pollTick, try_catch, SyncEngine.console_error.
    destruct (Watcher.pull _ _ _ _ _ w) as [[[]|e] w1]; simpl; eauto.
  - unfold Watcher.flush.
    destruct (Watcher.pendingChanges st) as [|x l] eqn:Hp; simpl.
    + exists st. split; [reflexivity|]. split; [congruence|]. congruence.
    + unfold bind, try_catch, SyncEngine.console_error.
      destruct (push (x :: l) w) as [[[]|e] w1]; simpl.
      * eexists. split; [reflexivity|]. split; [reflexivity|]. discriminate.
      * eexists. split; [reflexivity|]. split; [reflexivity|].
        intros e' w1' _ [= <- <-]. reflexivity.
Qed.

(** *** [push] sends every file *)





(** *** Folders are nested as the path is *)

(** The calls of one step are for its segment, under its parent. *)
Lemma ensureFolder_step_calls p part parent (w : World R) r w' :
  SyncEngine.ensureFolder_step p part parent w = (r, w') →
  ∃ evs, trace w' = (trace w ++ evs)%list ∧
    ∀ q c o, Remote q c o ∈ evs →
      q = p ∧ (c = FindFolder part parent ∨ c = CreateFolder part parent).
Proof using Type.
  unfold SyncEngine.ensureFolder_step. unfold bind at 1. unfold get_state at 1.
  destruct (SyncEngine.cached (state w) p) as [j|].
  { intros [= <- <-]. exists []. rewrite app_nil_r. split; [reflexivity|].
    intros q c o Hin. inversion Hin. }
  unfold SyncEngine.gdrive_findFolder, SyncEngine.gdrive_createFolder,
    SyncEngine.set_folder. run.
  assert (Hone : ∀ (e : Event) q c o, Remote q c o ∈ [e] → e = Remote q c o).
  { intros e q c o Hin. apply list_elem_of_singleton in Hin. congruence. }
  destruct (GDrive.findFolder part parent (remote w)) as [[[found|]|e] r1]; simpl.
  - intros [= <- <-]. eexists [_]. split; [reflexivity|].
    intros q c o Hin. apply Hone in Hin. injection Hin as <- <- _. auto.
  - destruct (GDrive.createFolder part parent r1) as [[folder|e] r2]; simpl;
      intros [= <- <-]; simpl; eexists [_; _]; rewrite <- app_assoc;
      (split; [reflexivity|]); intros q c o Hin;
      apply elem_of_cons in Hin as [Hin|Hin];
      try (apply Hone in Hin); injection Hin as <- <- _; auto.
  - intros [= <- <-]. eexists [_]. split; [reflexivity|].
    intros q c o Hin. apply Hone in Hin. injection Hin as <- <- _. auto.
Qed.

Lemma ensureFolder_loop_nested parts : ∀ currentPath parent (w : World R) i w',
  SyncEngine.ensureFolder_loop parts currentPath parent w = (Ok i, w') →
  (∀ q c f, Remote q c (Returned (Some f)) ∈ trace w' →
            SyncEngine.truthy (GDrive.id f) = true) →
  ∃ evs, trace w' = (trace w ++ evs)%list ∧
    ∀ p c o, Remote p c o ∈ evs →
      ∃ q part parentId,
        p = SyncEngine.next_path q part ∧
        (c = FindFolder part parentId ∨ c = CreateFolder part parentId) ∧
        ((q = currentPath ∧ parentId = parent) ∨
         SyncEngine.cached (state w') q = Some parentId).
Proof using Type.
  induction parts as [|part parts IH]; intros currentPath parent w i w' Hrun Hids.
  - injection Hrun as <- <-. exists []. rewrite app_nil_r. split; [reflexivity|].
    intros p c o Hin. inversion Hin.
  - simpl in Hrun. apply bind_Ok_inv in Hrun as (j & w1 & Hstep & Hrun).
    destruct (ensureFolder_loop_spec _ _ _ _ _ _ Hrun) as (Hkeep & evs2' & Ht2' & _).
    assert (Hj : SyncEngine.cached (state w1) (SyncEngine.next_path currentPath part)
                 = Some j).
    { eapply ensureFolder_step_caches; [exact Hstep|].
      intros q c f Hin. apply (Hids q c f). rewrite Ht2'. apply elem_of_app. auto. }
    destruct (ensureFolder_step_calls _ _ _ _ _ _ Hstep) as (evs1 & Ht1 & Hcalls).
    destruct (IH _ _ _ _ _ Hrun Hids) as (evs2 & Ht2 & Hrest).
    exists (evs1 ++ evs2)%list. rewrite Ht2, Ht1, app_assoc. split; [reflexivity|].
    intros p c o Hin. apply elem_of_app in Hin as [Hin|Hin].
    + destruct (Hcalls _ _ _ Hin) as [-> Hc].
      exists currentPath, part, parent. auto.
    + destruct (Hrest _ _ _ Hin) as (q & part' & pid & -> & Hc & [[-> ->]|Hq]).
      * exists (SyncEngine.next_path currentPath part), part', j.
        split; [reflexivity|]. split; [exact Hc|]. right. apply Hkeep, Hj.
      * exists q, part', pid. auto.
Qed.

(** X14.  When [ensureFolderExists] returns (and no remote call has
    returned a file with an empty id), every folder it looked up or
    created was looked up or created under its parent: under the root for
    the first segment, and otherwise under the id that [folders] now holds
    for the path one segment shorter. *)
Theorem folders_are_nested dir (w w' : World R) i :
  ensureFolderExists dir w = (Ok i, w') →
  (∀ q c f, Remote q c (Returned (Some f)) ∈ trace w' →
            SyncEngine.truthy (GDrive.id f) = true) →
  ∃ evs, trace w' = (trace w ++ evs)%list ∧
    ∀ p c o, Remote p c o ∈ evs →
      ∃ q part parentId,
        p = SyncEngine.next_path q part ∧
        (c = FindFolder part parentId ∨ c = CreateFolder part parentId) ∧
        ((q = "" ∧ parentId = Config.gdriveFolderId config) ∨
         SyncEngine.cached (state w') q = Some parentId).
Proof using Type.
  unfold SyncEngine.ensureFolderExists. apply ensureFolder_loop_nested.
Qed.

(** *** Changes seen by the watcher *)

Lemma set_add_spec (s : list string) x :
  (NoDup s → NoDup (Js.set_add s x)) ∧
  ∀ p, p ∈ Js.set_add s x ↔ p ∈ s ∨ p = x.
Proof using Type.
  clear. unfold Js.set_add. destruct (bool_decide (x ∈ s)) eqn:Hx.
  - apply bool_decide_eq_true in Hx. split; [auto|].
    intros p. split; [auto|]. intros [Hp| ->]; assumption.
  - apply bool_decide_eq_false in Hx. split.
    + intros Hs. apply NoDup_app. split; [exact Hs|]. split.
      * intros y Hy Hy'. apply list_elem_of_singleton in Hy'. congruence.
      * apply NoDup_singleton.
    + intros p. rewrite elem_of_app, list_elem_of_singleton. reflexivity.
Qed.

Variable debounceMs : Z.

(** X15.  A run of change notifications, each with the time it came at,
    never throws and touches neither state, disk nor remote.  Afterwards
    the pending set holds the paths it held and the paths notified, each
    once, and the timer is due [debounceMs] after the last notification. *)
Theorem onChange_collects (changes : list (Z * string)) : ∀ st (w : World R),
  ∃ st' w',
    fold_m (λ st c, Watcher.onChange config path_relative debounceMs c.1 st c.2)
      changes st w = (Ok st', w') ∧
    (NoDup (Watcher.pendingChanges st) → NoDup (Watcher.pendingChanges st')) ∧
    (∀ p, p ∈ Watcher.pendingChanges st' ↔
          p ∈ Watcher.pendingChanges st ∨ p ∈ changes.*2) ∧
    Watcher.debounceTimer st' =
      match last changes with
      | Some c => Some (c.1 + debounceMs)
      | None => Watcher.debounceTimer st
      end ∧
    state w' = state w ∧ disk w' = disk w ∧ remote w' = remote w.
Proof using Type.
  clear path_join getTime.
  induction changes as [|[now p0] changes IH]; intros st w.
  - exists st, w. simpl. split; [reflexivity|]. split; [auto|].
    split; [|auto]. intros p. split; [auto|]. intros [Hp|Hp]; [exact Hp|inversion Hp].
  - simpl. unfold bind at 1. unfold Watcher.onChange at 1.
    unfold SyncEngine.console_log. run.
    match goal with |- context [fold_m _ changes ?st1 ?w1] =>
      destruct (IH st1 w1) as (st' & w' & Hrun & Hnd & Hin & Htimer & Hs & Hd & Hr)
    end.
    exists st', w'. split; [exact Hrun|]. simpl in *.
    destruct (set_add_spec (Watcher.pendingChanges st) p0) as [Hnd0 Hin0].
    split; [auto|]. split; [|split; [|auto]].
    + intros p. rewrite Hin, Hin0, elem_of_cons. tauto.
    + rewrite Htimer, last_cons. destruct (last changes); reflexivity.
Qed.

End Further.

(** * The watcher's walk, the listing, the command line, the configuration *)

(** ** Strings *)

Lemma list_ascii_app (a b : string) :
  list_ascii_of_string (a +:+ b) = (list_ascii_of_string a ++ list_ascii_of_string b)%list.
Proof. induction a as [|c a IH]; simpl; [reflexivity|]. rewrite IH. reflexivity. Qed.

Lemma prefix_of_app (p l : list ascii) : Js.prefix_of p (p ++ l) = true.
Proof.
  induction p as [|c p IH]; simpl; [reflexivity|].
  rewrite Ascii.eqb_refl. exact IH.
Qed.

Lemma endsWith_app (s f : string) : Js.endsWith (s +:+ f) f = true.
Proof.
  unfold Js.endsWith. rewrite list_ascii_app, rev_app_distr. apply prefix_of_app.
Qed.

Lemma take_while_app (f : ascii → bool) (r rest : list ascii) c :
  Forall (λ x, f x = true) r → f c = false →
  Path.take_while f (r ++ c :: rest) = r.
Proof.
  intros Hr Hc. induction Hr as [|x r Hx Hr IH]; simpl.
  - rewrite Hc. reflexivity.
  - rewrite Hx, IH. reflexivity.
Qed.

Lemma take_while_prefix (f : ascii → bool) (r : list ascii) :
  ∃ rest, r = (Path.take_while f r ++ rest)%list.
Proof.
  induction r as [|x r [rest IH]]; simpl; [exists []; reflexivity|].
  destruct (f x); [|eexists; reflexivity].
  exists rest. simpl. f_equal. exact IH.
Qed.

(** [path.basename] of a path that ends in a name after a separator. *)
Lemma basename_of_name d n : is_name n → Path.basename (d +:+ "/" +:+ n) = n.
Proof.
  intros [Hne Hn]. unfold Path.basename.
  rewrite !list_ascii_app. simpl. rewrite rev_app_distr. simpl.
  rewrite <- app_assoc. simpl.
  assert (Hr : Forall (λ c, Path.is_sep c = false) (rev (list_ascii_of_string n))).
  { apply Forall_forall. intros c Hc. apply list_elem_of_In, in_rev in Hc.
    rewrite Forall_forall in Hn. apply Hn, list_elem_of_In, Hc. }
  assert (Hd : ∀ rest, Path.drop_while Path.is_sep (rev (list_ascii_of_string n) ++ rest)
                       = (rev (list_ascii_of_string n) ++ rest)%list).
  { intros rest. destruct (rev (list_ascii_of_string n)) as [|c r] eqn:E.
    - destruct n as [|c n]; [congruence|]. simpl in E.
      apply app_eq_nil in E as [_ [=]].
    - simpl. apply Forall_cons in Hr as [-> _]. reflexivity. }
  rewrite Hd, take_while_app.
  - rewrite rev_involutive. apply string_of_list_ascii_of_string.
  - eapply Forall_impl; [exact Hr|]. intros c ->. reflexivity.
  - reflexivity.
Qed.

Lemma excluded_are_names n : n ∈ Config.getExcludedFiles → is_name n.
Proof.
  unfold Config.getExcludedFiles. intros Hn.
  repeat (apply elem_of_cons in Hn as [->|Hn];
          [split; [discriminate|repeat constructor]|]).
  inversion Hn.
Qed.

(** ** Excluded names *)

(** X16.  A name of the exclusion list is excluded by the engine wherever
    it stands: alone, or as the last segment below any directory. *)
Theorem isExcluded_at_any_depth d n :
  n ∈ Config.getExcludedFiles →
  SyncEngine.isExcluded n = true ∧
  SyncEngine.isExcluded (d +:+ "/" +:+ n) = true.
Proof.
  intros Hn. split.
  - revert Hn. unfold Config.getExcludedFiles. intros Hn.
    repeat (apply elem_of_cons in Hn as [->|Hn]; [reflexivity|]). inversion Hn.
  - unfold SyncEngine.isExcluded.
    rewrite basename_of_name by (apply excluded_are_names, Hn).
    apply bool_decide_eq_true. exact Hn.
Qed.

(** X17.  What the engine excludes, the watcher ignores: a path with an
    excluded last segment and no trailing separator ends with an excluded
    name, so it is skipped by [getAllFiles] and by the [ignored] filter.
    The watcher ignores more: every name that ends with an excluded name,
    such as [notes.DS_Store], which the engine does not exclude. *)
Theorem watcher_ignores_more :
  (∀ p, SyncEngine.isExcluded p = true → Js.endsWith p "/" = false →
        Watcher.endsWithExcluded Config.getExcludedFiles p = true) ∧
  (∀ s f, f ∈ Config.getExcludedFiles →
          Watcher.endsWithExcluded Config.getExcludedFiles (s +:+ f) = true) ∧
  SyncEngine.isExcluded "notes.DS_Store" = false.
Proof.
  split; [|split; [|reflexivity]].
  - intros p Hex Hslash. unfold SyncEngine.isExcluded in Hex.
    apply bool_decide_eq_true in Hex.
    unfold Watcher.endsWithExcluded. apply existsb_exists.
    exists (Path.basename p). split; [apply list_elem_of_In, Hex|].
    unfold Js.endsWith, Path.basename in *.
    rewrite list_ascii_of_string_of_list_ascii, rev_involutive.
    destruct (rev (list_ascii_of_string p)) as [|c r] eqn:E.
    + reflexivity.
    + assert (Hc : Path.is_sep c = false).
      { destruct (Path.is_sep c) eqn:Hc; [|reflexivity].
        apply Ascii.eqb_eq in Hc. subst c. simpl in Hslash. discriminate Hslash. }
      cbn [Path.drop_while]. rewrite Hc.
      destruct (take_while_prefix (λ c, negb (Path.is_sep c)) (c :: r))
        as [rest Hrest].
      rewrite Hrest at 2. apply prefix_of_app.
  - intros s f Hf. unfold Watcher.endsWithExcluded. apply existsb_exists.
    exists f. split; [apply list_elem_of_In, Hf|apply endsWith_app].
Qed.

(** ** [getAllFiles] *)

Lemma Dirent_nested_ind (P : Watcher.Dirent → Prop) :
  (∀ name, P (Watcher.FileEntry name)) →
  (∀ name entries, Forall P entries → P (Watcher.DirEntry name entries)) →
  ∀ e, P e.
Proof.
  intros Hf Hd. fix IH 1. intros [name|name entries].
  - apply Hf.
  - apply Hd. induction entries as [|e entries IHl]; constructor.
    + apply IH.
    + exact IHl.
Qed.

Section Walk.

Variable path_join : string → string → string.
Variable excludedFiles : list string.

Abbreviation kept := (λ n, Watcher.endsWithExcluded excludedFiles n = false).

Lemma entryFiles_spec e : ∀ dir p,
  p ∈ Watcher.entryFiles path_join dir excludedFiles e ↔
  ∃ names, leads_to names e ∧ Forall kept names ∧ p = fold_left path_join names dir.
Proof using Type.
  induction e as [name|name entries IH] using Dirent_nested_ind; intros dir p.
  - simpl. destruct (Watcher.endsWithExcluded excludedFiles name) eqn:Hskip.
    + split; [intros Hp; inversion Hp|].
      intros ([|n rest] & Hlead & Hkept & _); [destruct Hlead|].
      destruct Hlead as [-> _]. apply Forall_cons in Hkept as [Hn _]. congruence.
    + rewrite list_elem_of_singleton. split.
      * intros ->. exists [name]. simpl. split; [auto|].
        split; [repeat constructor; exact Hskip|reflexivity].
      * intros ([|n rest] & Hlead & _ & ->); [destruct Hlead|].
        destruct Hlead as [-> ->]. reflexivity.
  - cbn [Watcher.entryFiles].
    destruct (Watcher.endsWithExcluded excludedFiles name) eqn:Hskip.
    + split; [intros Hp; inversion Hp|].
      intros ([|n rest] & Hlead & Hkept & _); [destruct Hlead|].
      destruct Hlead as [-> _]. apply Forall_cons in Hkept as [Hn _]. congruence.
    + induction IH as [|e entries He _ IHl].
      * split; [intros Hp; inversion Hp|].
        intros ([|n rest] & Hlead & _); [destruct Hlead|].
        destruct Hlead as (_ & e' & He' & _). inversion He'.
      * rewrite elem_of_app, He, IHl. split.
        -- intros [(names & Hlead & Hkept & ->)|([|n rest] & Hlead & Hkept & ->)].
           ++ exists (name :: names). simpl. split.
              ** split; [reflexivity|]. exists e. split; [left|exact Hlead].
              ** split; [|reflexivity]. constructor; assumption.
           ++ destruct Hlead.
           ++ destruct Hlead as (-> & e' & He' & Hlead).
              exists (name :: rest). simpl. split; [|auto].
              split; [reflexivity|]. exists e'. split; [right; exact He'|exact Hlead].
        -- intros ([|n rest] & Hlead & Hkept & ->); [destruct Hlead|].
           destruct Hlead as (-> & e' & He' & Hlead).
           apply Forall_cons in Hkept as [Hn Hrest].
           apply elem_of_cons in He' as [->|He'].
           ++ left. exists rest. auto.
           ++ right. exists (name :: rest). simpl. split; [|auto].
              split; [reflexivity|]. exists e'. auto.
Qed.

Lemma getAllFiles_elem dir entries p :
  p ∈ Watcher.getAllFiles path_join dir entries excludedFiles ↔
  ∃ e names, e ∈ entries ∧ leads_to names e ∧ Forall kept names ∧
             p = fold_left path_join names dir.
Proof using Type.
  unfold Watcher.getAllFiles. induction entries as [|e entries IH]; simpl.
  - split; [intros Hp; inversion Hp|]. intros (e & _ & He & _). inversion He.
  - rewrite elem_of_app, IH, entryFiles_spec. split.
    + intros [(names & H1)|(e' & names & He' & H1)].
      * exists e, names. split; [left|exact H1].
      * exists e', names. split; [right; exact He'|exact H1].
    + intros (e' & names & He' & H1). apply elem_of_cons in He' as [->|He'].
      * left. exists names. exact H1.
      * right. exists e', names. auto.
Qed.

(** X18.  [getAllFiles] returns exactly the files of the tree that are
    reached through names none of which ends with an excluded name, each
    under the path made by joining the names onto the directory: a
    directory with such a name hides all that is below it. *)
Theorem getAllFiles_spec dir entries p :
  p ∈ Watcher.getAllFiles path_join dir entries excludedFiles ↔
  ∃ e names, e ∈ entries ∧ leads_to names e ∧ Forall kept names ∧
             p = fold_left path_join names dir.
Proof using Type.
  apply getAllFiles_elem.
Qed.

End Walk.

(** ** The first push *)

Section StartUp.

Context {R : Type} `{GDrive.Client R}.
Variable config : Config.Config.
Variable path_join : string -> string -> string.
Variable path_relative : string -> string -> string.
Variable getTime : string -> Z.
Variable JSON_stringify : SyncState -> string.

Abbreviation getRelativePath := (SyncEngine.getRelativePath config path_relative).


End StartUp.

(** ** [listFilesRecursive] *)

Lemma DriveNode_nested_ind (P : Listing.DriveNode → Prop) :
  (∀ file children, Forall P children → P (Listing.Node file children)) →
  ∀ n, P n.
Proof.
  intros Hn. fix IH 1. intros [file children].
  apply Hn. induction children as [|c children IHl]; constructor.
  - apply IH.
  - exact IHl.
Qed.

Lemma map_set_keys {V} k (v : V) m x :
  x ∈ (Js.map_set k v m).*1 ↔ x = k ∨ x ∈ m.*1.
Proof.
  induction m as [|[k' v'] m IH]; simpl.
  - rewrite list_elem_of_singleton. split; [auto|]. intros [->|Hx]; [reflexivity|inversion Hx].
  - destruct (String.eqb k k') eqn:Hk; simpl.
    + apply String.eqb_eq in Hk as <-. rewrite !elem_of_cons. tauto.
    + rewrite !elem_of_cons, IH. tauto.
Qed.

Lemma map_set_NoDup {V} k (v : V) m : NoDup m.*1 → NoDup (Js.map_set k v m).*1.
Proof.
  induction m as [|[k' v'] m IH]; simpl; intros Hm.
  - repeat constructor. intros Hx. inversion Hx.
  - apply NoDup_cons in Hm as [Hk' Hm].
    destruct (String.eqb k k') eqn:Hk; simpl.
    + apply String.eqb_eq in Hk as <-. apply NoDup_cons. auto.
    + apply NoDup_cons. split; [|auto].
      rewrite map_set_keys. intros [->|Hin]; [|auto].
      rewrite String.eqb_refl in Hk. discriminate.
Qed.

Lemma map_set_Forall {V} (Q : string * V → Prop) k v m :
  Q (k, v) → Forall Q m → Forall Q (Js.map_set k v m).
Proof.
  intros Hkv Hm. induction Hm as [|[k' v'] m Hx Hm IH]; simpl.
  - repeat constructor. exact Hkv.
  - destruct (String.eqb k k'); constructor; auto.
Qed.

Lemma set_all_spec subFiles : ∀ result,
  (∀ x, x ∈ (Listing.set_all subFiles result).*1 ↔ x ∈ subFiles.*1 ∨ x ∈ result.*1) ∧
  (NoDup result.*1 → NoDup (Listing.set_all subFiles result).*1) ∧
  (Forall no_folder subFiles → Forall no_folder result →
   Forall no_folder (Listing.set_all subFiles result)).
Proof.
  unfold Listing.set_all.
  induction subFiles as [|[k v] subFiles IH]; intros result; simpl.
  - split; [|auto]. intros x. split; [auto|]. intros [Hx|Hx]; [inversion Hx|exact Hx].
  - destruct (IH (Js.map_set k v result)) as (Hk & Hn & Hf). split; [|split].
    + intros x. rewrite Hk, map_set_keys, elem_of_cons. tauto.
    + intros Hr. apply Hn, map_set_NoDup, Hr.
    + intros Hs Hr. apply Forall_cons in Hs as [Hkv Hs].
      apply Hf; [exact Hs|]. apply map_set_Forall; assumption.
Qed.

Lemma listNode_spec n : ∀ basePath result,
  (∀ x, x ∈ (Listing.listNode basePath result n).*1 ↔
        x ∈ result.*1 ∨
        ∃ names, leaf_at names n ∧ x = fold_left SyncEngine.next_path names basePath) ∧
  (NoDup result.*1 → NoDup (Listing.listNode basePath result n).*1) ∧
  (Forall no_folder result → Forall no_folder (Listing.listNode basePath result n)).
Proof.
  induction n as [file children IH] using DriveNode_nested_ind.
  intros basePath result. cbn [Listing.listNode].
  change (if SyncEngine.truthy basePath
          then basePath +:+ "/" +:+ GDrive.name file else GDrive.name file)
    with (SyncEngine.next_path basePath (GDrive.name file)).
  set (filePath := SyncEngine.next_path basePath (GDrive.name file)).
  destruct (String.eqb (GDrive.mimeType file) GDrive.FOLDER_MIME) eqn:Hmime.
  - match goal with |- context [Listing.set_all (?loop children []) result] =>
      assert (Hloop : ∀ acc,
        (∀ x, x ∈ (loop children acc).*1 ↔
              x ∈ acc.*1 ∨
              ∃ c names, c ∈ children ∧ leaf_at names c ∧
                         x = fold_left SyncEngine.next_path names filePath) ∧
        (NoDup acc.*1 → NoDup (loop children acc).*1) ∧
        (Forall no_folder acc → Forall no_folder (loop children acc)));
      [|destruct (Hloop []) as (Hk & Hn & Hf);
        destruct (set_all_spec (loop children []) result) as (Hk' & Hn' & Hf')]
    end.
    { clear result. induction IH as [|c children Hc _ IHl]; intros acc.
      - split; [|auto]. intros x. split; [auto|].
        intros [Hx|(c & _ & Hc & _)]; [exact Hx|inversion Hc].
      - destruct (Hc filePath acc) as (Hk1 & Hn1 & Hf1).
        destruct (IHl (Listing.listNode filePath acc c)) as (Hk2 & Hn2 & Hf2).
        split; [|split; [auto|auto]].
        intros x. rewrite Hk2, Hk1. split.
        + intros [[Hx|(names & Hlead & ->)]|(c' & names & Hc' & Hlead & ->)].
          * auto.
          * right. exists c, names. split; [left|auto].
          * right. exists c', names. split; [right; exact Hc'|auto].
        + intros [Hx|(c' & names & Hc' & Hlead & ->)]; [auto|].
          apply elem_of_cons in Hc' as [->|Hc'].
          * left. right. exists names. auto.
          * right. exists c', names. auto. }
    split; [|split].
    + intros x. rewrite Hk', Hk. split.
      * intros [[Hx|(c & names & Hc & Hlead & ->)]|Hx]; [inversion Hx| |auto].
        right. exists (GDrive.name file :: names). simpl. rewrite Hmime.
        split; [|reflexivity]. split; [reflexivity|]. exists c. auto.
      * intros [Hx|([|n rest] & Hlead & ->)]; [auto|destruct Hlead|].
        simpl in Hlead. rewrite Hmime in Hlead.
        destruct Hlead as (-> & c & Hc & Hlead).
        left. right. exists c, rest. auto.
    + exact Hn'.
    + intros Hr. apply Hf'; [|exact Hr]. apply Hf. constructor.
  - split; [|split].
    + intros x. rewrite map_set_keys. split.
      * intros [->|Hx]; [|auto]. right. exists [GDrive.name file]. simpl.
        rewrite Hmime. auto.
      * intros [Hx|([|n rest] & Hlead & ->)]; [auto|destruct Hlead|].
        simpl in Hlead. rewrite Hmime in Hlead. destruct Hlead as [-> ->].
        left. reflexivity.
    + apply map_set_NoDup.
    + apply map_set_Forall. exact Hmime.
Qed.

Lemma listFilesRecursive_spec files basePath : ∀ result,
  (∀ x, x ∈ (fold_left (Listing.listNode basePath) files result).*1 ↔
        x ∈ result.*1 ∨
        ∃ n names, n ∈ files ∧ leaf_at names n ∧
                   x = fold_left SyncEngine.next_path names basePath) ∧
  (NoDup result.*1 → NoDup (fold_left (Listing.listNode basePath) files result).*1) ∧
  (Forall no_folder result →
   Forall no_folder (fold_left (Listing.listNode basePath) files result)).
Proof.
  induction files as [|n files IH]; intros result; simpl.
  - split; [|auto]. intros x. split; [auto|].
    intros [Hx|(n & _ & Hn & _)]; [exact Hx|inversion Hn].
  - destruct (listNode_spec n basePath result) as (Hk1 & Hn1 & Hf1).
    destruct (IH (Listing.listNode basePath result n)) as (Hk2 & Hn2 & Hf2).
    split; [|split; [auto|auto]].
    intros x. rewrite Hk2, Hk1. split.
    + intros [[Hx|(names & Hlead & ->)]|(n' & names & Hn' & Hlead & ->)].
      * auto.
      * right. exists n, names. split; [left|auto].
      * right. exists n', names. split; [right; exact Hn'|auto].
    + intros [Hx|(n' & names & Hn' & Hlead & ->)]; [auto|].
      apply elem_of_cons in Hn' as [->|Hn'].
      * left. right. exists names. auto.
      * right. exists n', names. auto.
Qed.

(** X20.  The paths of a recursive listing are exactly the paths that lead
    to an object that is not a folder, segments joined by a slash under
    the base path; a folder, empty or not, has no entry of its own. *)
Theorem listing_paths files basePath x :
  x ∈ (Listing.listFilesRecursive files basePath).*1 ↔
  ∃ n names, n ∈ files ∧ leaf_at names n ∧
             x = fold_left SyncEngine.next_path names basePath.
Proof.
  unfold Listing.listFilesRecursive.
  destruct (listFilesRecursive_spec files basePath []) as (Hk & _).
  rewrite Hk. split; [|auto]. intros [Hx|Hx]; [inversion Hx|exact Hx].
Qed.

(** X21.  A recursive listing holds each path once and no folder, so the
    first loop of [pull], which records the folders of the listing in
    [folders], does nothing on it. *)
Theorem listing_has_no_folder {R} files basePath (w : World R) :
  NoDup (Listing.listFilesRecursive files basePath).*1 ∧
  Forall (λ kv, GDrive.mimeType kv.2 ≠ GDrive.FOLDER_MIME)
         (Listing.listFilesRecursive files basePath) ∧
  for_each (Listing.listFilesRecursive files basePath) SyncEngine.pull_folder w
  = (Ok tt, w).
Proof.
  unfold Listing.listFilesRecursive.
  destruct (listFilesRecursive_spec files basePath []) as (_ & Hn & Hf).
  specialize (Hn ltac:(constructor)). specialize (Hf ltac:(constructor)).
  split; [exact Hn|]. split.
  - eapply Forall_impl; [exact Hf|]. intros kv Hkv Heq. unfold no_folder in Hkv.
    rewrite Heq, String.eqb_refl in Hkv. discriminate.
  - induction Hf as [|[k f] l Hkv Hl IH]; [reflexivity|].
    simpl. unfold bind at 1. unfold no_folder in Hkv. simpl in Hkv. rewrite Hkv.
    apply IH. apply NoDup_cons in Hn as [_ Hn]. exact Hn.
Qed.

(** ** [parseArgs] *)

Lemma last_positional_cons a args f :
  last_positional (a :: args) f =
  if positional a then last_positional args (Some a) else last_positional args f.
Proof.
  unfold last_positional. simpl. destruct (positional a); [|reflexivity].
  rewrite last_cons. destruct (last _); reflexivity.
Qed.

Lemma scanArgs_plain args : ∀ configPath folderPath,
  "--config" ∉ args →
  Cli.scanArgs args configPath folderPath = (configPath, last_positional args folderPath).
Proof.
  induction args as [|a args IH]; intros configPath folderPath Hno; [reflexivity|].
  apply not_elem_of_cons in Hno as [Ha Hno].
  simpl. destruct (String.eqb a "--config") eqn:E.
  { apply String.eqb_eq in E. congruence. }
  rewrite last_positional_cons. fold (positional a).
  destruct (positional a); apply IH, Hno.
Qed.

Lemma scanArgs_app pre : ∀ rest configPath folderPath,
  "--config" ∉ pre →
  Cli.scanArgs (pre ++ rest) configPath folderPath =
  Cli.scanArgs rest configPath (last_positional pre folderPath).
Proof.
  induction pre as [|a pre IH]; intros rest configPath folderPath Hno; [reflexivity|].
  apply not_elem_of_cons in Hno as [Ha Hno].
  rewrite last_positional_cons.
  change ((a :: pre) ++ rest)%list with (a :: (pre ++ rest))%list.
  cbn [Cli.scanArgs]. destruct (String.eqb a "--config") eqn:E.
  { apply String.eqb_eq in E. congruence. }
  fold (positional a). destruct (positional a); apply IH, Hno.
Qed.

Section CommandLine.

Variable path_join : string → string → string.
Variable HOME : option string.
Variable cwd : string.

(** X22.  A [--config] followed by a non-empty argument decides: its value
    is the path returned, whatever positional folders stand before or
    after it (no other [--config] being given). *)
Theorem parseArgs_config_wins pre v post :
  "--config" ∉ pre → "--config" ∉ post → v ≠ "" →
  Cli.parseArgs path_join HOME cwd (pre ++ "--config" :: v :: post) = v.
Proof using Type.
  intros Hpre Hpost Hv. unfold Cli.parseArgs.
  rewrite scanArgs_app by exact Hpre. cbn [Cli.scanArgs].
  rewrite String.eqb_refl.
  assert (Ht : SyncEngine.truthy v = true).
  { unfold SyncEngine.truthy. destruct (String.eqb v "") eqn:E; [|reflexivity].
    apply String.eqb_eq in E. congruence. }
  rewrite Ht, scanArgs_plain by exact Hpost. simpl. rewrite Ht. reflexivity.
Qed.

(** X23.  Without [--config], the last argument that does not start with
    a dash is the folder, a leading [~/] standing for the home directory;
    if there is none, or if that last one is empty, the folder is the
    current directory.  The path returned is that of the configuration
    file in the folder. *)
Theorem parseArgs_last_positional args :
  "--config" ∉ args →
  Cli.parseArgs path_join HOME cwd args =
  match last (List.filter positional args) with
  | Some f =>
      if SyncEngine.truthy f then
        path_join
          (if Js.startsWith f "~/" then path_join (default "" HOME) (Js.slice2 f)
           else f)
          Config.CONFIG_FILENAME
      else path_join cwd Config.CONFIG_FILENAME
  | None => path_join cwd Config.CONFIG_FILENAME
  end.
Proof using Type.
  intros Hno. unfold Cli.parseArgs. rewrite scanArgs_plain by exact Hno.
  unfold last_positional. simpl.
  destruct (last (List.filter positional args)) as [f|]; simpl; [|reflexivity].
  destruct (SyncEngine.truthy f); reflexivity.
Qed.

End CommandLine.

(** ** [loadConfig] *)

Section Configuration.

Variable path_join : string → string → string.
Variable HOME : option string.
Variable GOOGLE_CLIENT_ID : option string.
Variable GOOGLE_CLIENT_SECRET : option string.

Abbreviation expandPath := (ConfigFile.expandPath path_join HOME).
Abbreviation loadConfig :=
  (ConfigFile.loadConfig path_join HOME GOOGLE_CLIENT_ID GOOGLE_CLIENT_SECRET).

(** X24.  [loadConfig] returns exactly when the file can be read, its
    text is JSON for an object, and the object's [localPath] and
    [tokenFile] are strings.  Nothing else is checked: [gdriveFolderId] is
    copied as it is, even absent; an id or a secret that is absent or
    [null] comes from the environment; and the two delays are the
    constants, whatever the file says. *)
Theorem loadConfig_accepts d configPath c :
  loadConfig d configPath = inr c ↔
  ∃ content members lp tf,
    Fs.readFileSync d (expandPath configPath) = Ok content ∧
    Json.parse content = Some (Json.JObject members) ∧
    Json.member "localPath" members = Some (Json.JString lp) ∧
    Json.member "tokenFile" members = Some (Json.JString tf) ∧
    c = {| ConfigFile.localPath := expandPath lp;
           ConfigFile.gdriveFolderId := Json.member "gdriveFolderId" members;
           ConfigFile.tokenFile := expandPath tf;
           ConfigFile.clientId :=
             ConfigFile.orEnv (Json.member "clientId" members) GOOGLE_CLIENT_ID;
           ConfigFile.clientSecret :=
             ConfigFile.orEnv (Json.member "clientSecret" members) GOOGLE_CLIENT_SECRET;
           ConfigFile.debounceMs := 15000;
           ConfigFile.pollIntervalMs := 900000 |}.
Proof using Type.
  unfold ConfigFile.loadConfig. split.
  - destruct (Fs.readFileSync d (expandPath configPath)) as [content|e] eqn:Hread;
      [|discriminate].
    destruct (Json.parse content) as [raw|] eqn:Hparse; [|discriminate].
    destruct raw as [|b|x|s|items|members]; try discriminate.
    unfold ConfigFile.get, ConfigFile.expandValue.
    destruct (Json.member "localPath" members) as [[|b|x|lp|items|ms]|] eqn:Hlp;
      try discriminate.
    destruct (Json.member "tokenFile" members) as [[|b|x|tf|items|ms]|] eqn:Htf;
      try discriminate.
    intros [= <-]. exists content, members, lp, tf.
    split; [reflexivity|]. split; [exact Hparse|]. split; [exact Hlp|].
    split; [exact Htf|reflexivity].
  - intros (content & members & lp & tf & -> & -> & Hlp & Htf & ->).
    unfold ConfigFile.get, ConfigFile.expandValue. rewrite Hlp, Htf. reflexivity.
Qed.

End Configuration.

(** * The further properties at work *)

Lemma push_saves_state_at_a :
  ∃ m, Fs.entries (disk (Scenario.push ["/sync/a.txt"] Scenario.a_uploading).2)
         !! SyncEngine.statePath Scripted.config Scripted.join
       = Some (Fs.File m
                 (Scripted.stringify
                    (state (Scenario.push ["/sync/a.txt"] Scenario.a_uploading).2))).
Proof.
  apply (push_saves_state Scripted.config Scripted.join Scripted.relative
           Scripted.getTime Scripted.stringify ["/sync/a.txt"] Scenario.a_uploading).
  vm_compute. reflexivity.
Defined.

Lemma pull_saves_state_at_kept :
  ∃ m, Fs.entries (disk (Scenario.pull Scenario.kept_unlisted).2)
         !! SyncEngine.statePath Scripted.config Scripted.join
       = Some (Fs.File m
                 (Scripted.stringify (state (Scenario.pull Scenario.kept_unlisted).2))).
Proof.
  eapply (pull_saves_state Scripted.config Scripted.join Scripted.getTime
           Scripted.stringify Scenario.kept_unlisted _ ["/sync/kept.txt"]).
  vm_compute. reflexivity.
Defined.

Lemma pull_aborts_on_throw_at_refused :
  trace (Scenario.pull Cases.refused).2 =
    [ConsoleLog "[pull] Checking for remote changes...";
     Listed "root" (Returned None);
     Remote "a.txt" (DownloadFile "R1") (Threw (RemoteError "500"))] ∧
  ∃ e, (Scenario.pull Cases.refused).1 = Throw e ∧
       thrown_by (Remote "a.txt" (DownloadFile "R1") (Threw (RemoteError "500"))) e.
Proof.
  assert (Ht : trace (Scenario.pull Cases.refused).2 =
    [ConsoleLog "[pull] Checking for remote changes...";
     Listed "root" (Returned None);
     Remote "a.txt" (DownloadFile "R1") (Threw (RemoteError "500"))])
    by (vm_compute; reflexivity).
  split; [exact Ht|].
  destruct (pull_aborts_on_throw Scripted.config Scripted.join Scripted.getTime
              Scripted.stringify Cases.refused
              (Scenario.pull Cases.refused).1 (Scenario.pull Cases.refused).2
              [ConsoleLog "[pull] Checking for remote changes...";
               Listed "root" (Returned None)]
              (Remote "a.txt" (DownloadFile "R1") (Threw (RemoteError "500"))) [])
    as (_ & _ & e & Hr & He).
  - apply surjective_pairing.
  - exact Ht.
  - reflexivity.
  - exists e. split; [exact Hr|exact He].
Defined.

Lemma push_nothing_at_idle :
  Scenario.push Cases.idle_batch Scenario.a_untracked
  = Cases.saveState Scenario.a_untracked.
Proof.
  apply (push_nothing Scripted.config Scripted.join Scripted.relative
           Scripted.getTime Scripted.stringify Cases.idle_batch Scenario.a_untracked).
  intros abs Hin. apply elem_of_cons in Hin as [->|Hin].
  - left. vm_compute. reflexivity.
  - apply list_elem_of_singleton in Hin as ->. right. right.
    split; [vm_compute; reflexivity|]. split; [vm_compute; reflexivity|].
    intros Hin. apply list_elem_of_In in Hin. simpl in Hin.
    intuition discriminate.
Defined.

Lemma ensureFolderExists_twice_at_docs :
  Cases.ensureFolderExists "docs/img"
    (Cases.ensureFolderExists "docs/img" Scenario.docs_cached).2
  = (Ok "F2", (Cases.ensureFolderExists "docs/img" Scenario.docs_cached).2).
Proof.
  apply (ensureFolderExists_twice Scripted.config "docs/img" Scenario.docs_cached).
  - vm_compute. reflexivity.
  - intros q c f Hin.
    assert (Ht : trace (Cases.ensureFolderExists "docs/img" Scenario.docs_cached).2
                 = [Remote "docs/img" (FindFolder "img" "F1")
                           (Returned (Some Scenario.img_folder))])
      by (vm_compute; reflexivity).
    rewrite Ht in Hin. apply list_elem_of_singleton in Hin.
    injection Hin as _ _ ->. reflexivity.
Defined.

Lemma pull_entry_settles_at_a :
  Scenario.pull_entry [] ("a.txt", Scenario.a_remote)
    (Scenario.pull_entry [] ("a.txt", Scenario.a_remote) Scenario.a_tracked).2
  = (Ok [], (Scenario.pull_entry [] ("a.txt", Scenario.a_remote) Scenario.a_tracked).2).
Proof.
  eapply (pull_entry_settles Scripted.config Scripted.join Scripted.getTime
           [] "a.txt" Scenario.a_remote Scenario.a_tracked _ ["/sync/a.txt"]).
  - vm_compute. reflexivity.
  - reflexivity.
Defined.




Lemma folders_are_nested_at_docs :
  ∃ evs, trace (Cases.ensureFolderExists "docs/img" Scenario.docs_cached).2
         = (trace Scenario.docs_cached ++ evs)%list ∧
    ∀ p c o, Remote p c o ∈ evs →
      ∃ q part parentId,
        p = SyncEngine.next_path q part ∧
        (c = FindFolder part parentId ∨ c = CreateFolder part parentId) ∧
        ((q = "" ∧ parentId = "root") ∨
         SyncEngine.cached
           (state (Cases.ensureFolderExists "docs/img" Scenario.docs_cached).2) q
         = Some parentId).
Proof.
  eapply (folders_are_nested Scripted.config "docs/img" Scenario.docs_cached _ "F2").
  - vm_compute. reflexivity.
  - intros q c f Hin.
    assert (Ht : trace (Cases.ensureFolderExists "docs/img" Scenario.docs_cached).2
                 = [Remote "docs/img" (FindFolder "img" "F1")
                           (Returned (Some Scenario.img_folder))])
      by (vm_compute; reflexivity).
    rewrite Ht in Hin. apply list_elem_of_singleton in Hin.
    injection Hin as _ _ ->. reflexivity.
Defined.

Lemma isExcluded_at_any_depth_at_store :
  SyncEngine.isExcluded ".DS_Store" = true ∧
  SyncEngine.isExcluded ("a/b" +:+ "/" +:+ ".DS_Store") = true.
Proof.
  apply (isExcluded_at_any_depth "a/b" ".DS_Store").
  apply list_elem_of_In. simpl. auto.
Defined.

Lemma parseArgs_config_wins_at_both :
  Cases.parseArgs (["~/docs"] ++ "--config" :: "/etc/sync.json" :: ["-v"; "other"])
  = "/etc/sync.json".
Proof.
  apply (parseArgs_config_wins Scripted.join (Some "/home/u") "/work"
           ["~/docs"] "/etc/sync.json" ["-v"; "other"]).
  - intros Hin. apply list_elem_of_In in Hin. simpl in Hin.
    destruct Hin as [Hin|[]]. discriminate Hin.
  - intros Hin. apply list_elem_of_In in Hin. simpl in Hin.
    destruct Hin as [Hin|[Hin|[]]]; discriminate Hin.
  - discriminate.
Defined.

Lemma parseArgs_last_positional_at_home :
  Cases.parseArgs ["first"; "-v"; "~/docs"]
  = "/home/u/docs/.gdrive-folder-sync.json".
Proof.
  apply (parseArgs_last_positional Scripted.join (Some "/home/u") "/work"
           ["first"; "-v"; "~/docs"]).
  intros Hin. apply list_elem_of_In in Hin. simpl in Hin.
  destruct Hin as [Hin|[Hin|[Hin|[]]]]; discriminate Hin.
Defined.

